(** * Patient data processor: streaming ingestion and row reconciliation

    A shallow embedding of the TypeScript sources of the patient data
    processor, and the properties its specification states about them.

    - [Js]              the JavaScript values the code handles
    - [Patient]         models/Patient.ts
    - [Mongo]           the collection of the persistence boundary
    - [PatientsApi]     pages/api/patients/index.ts (bulk update)
    - [PatientIdApi]    pages/api/patients/[id].ts
    - [UploadApi]       pages/api/patients/upload.ts
    - [FileParser]      lib/fileParser.ts
    - [PatientTable]    components/PatientTable.tsx
    - [Reconciliation]  the states of the table and their invariant
    - [Scenario]        concrete tables, requests and files
    - [Cadence]         batch cadence and header naming
    - [Text]            the string methods the column headers use
    - [Home]            pages/index.tsx
    - [Columns]         the column definitions of components/PatientTable.tsx
    - [Cells]           what an editable cell shows
    - [Ids]             identifiers of patients and documents
    - [Examples]        concrete chunks

    The definitions come first, the properties after them.  Numbers are
    integers here (the sources use IEEE doubles); the server answers one
    request after the other; every other value is modelled as the code
    observes it. *)

From Stdlib Require Import Ascii String.
From stdpp Require Import gmap strings list fin_maps pretty.

Open Scope string_scope.
Open Scope list_scope.
Open Scope nat_scope.

(** ** JavaScript values *)
Module Js.

(** A [Date] as far as the code observes it: through [toISOString()] (JSON
    serialisation) and through [toString()] (string coercion). *)
Record JSDate := { toISOString : string; Date_toString : string }.

(** The scalar values a record field holds.  [undefined] is the absence of
    a field ([None] on lookup). *)
Inductive value :=
| VNull
| VBool (b : bool)
| VNum (z : Z)
| VStr (s : string)
| VDate (d : JSDate)
| VOid (hex : string).

(** A JS object used as a record: field name to value. *)
Abbreviation record := (gmap string value).

(** ToBoolean, as [if (x)], [!x], [x || y] and [x && y] apply it. *)
Definition truthy (v : option value) : bool :=
  match v with
  | None => false
  | Some VNull => false
  | Some (VBool b) => b
  | Some (VNum z) => negb (z =? 0)%Z
  | Some (VStr s) => negb (String.eqb s "")
  | Some (VDate _) => true
  | Some (VOid _) => true
  end.

(** [x.toString()] of a non-null value.  A number is printed digit by
    digit, which is what JavaScript does for the safe integers (at most
    2^53 - 1 in magnitude); beyond them JavaScript rounds and, from 1e21 on,
    uses exponent notation. *)
Definition toString (v : value) : string :=
  match v with
  | VNull => "null"
  | VBool true => "true"
  | VBool false => "false"
  | VNum z => pretty z
  | VStr s => s
  | VDate d => Date_toString d
  | VOid hex => hex
  end.

(** [String(x)], also what a template literal does to [x]. *)
Definition String_of (v : option value) : string :=
  match v with
  | None => "undefined"
  | Some v => toString v
  end.

(** [typeof x === 'string'] *)
Definition is_string (v : option value) : bool :=
  match v with Some (VStr _) => true | _ => false end.

(** [JSON.parse(JSON.stringify(x))] on a field value: a Date comes back as
    its ISO string (Date.prototype.toJSON), an ObjectId as its hex string
    (ObjectId.prototype.toJSON), everything else as itself. *)
Definition json_value (v : value) : value :=
  match v with
  | VDate d => VStr (toISOString d)
  | VOid hex => VStr hex
  | _ => v
  end.

(** [JSON.parse(JSON.stringify(r))] on a record: a fresh object. *)
Definition json_roundtrip (r : record) : record := json_value <$> r.

(** [s.add(x)] on a JS [Set], which keeps insertion order and holds no
    value twice; [Array.from(s)] is the list. *)
Definition Set_add {A} `{EqDecision A} (x : A) (s : list A) : list A :=
  if bool_decide (x ∈ s) then s else s ++ [x].

(** What a JS expression evaluates to: a result, or a thrown error with its
    [message]. *)
Inductive Exn (A : Type) :=
| Ok (a : A)
| Throw (message : string).
Arguments Ok {A} a.
Arguments Throw {A} message.

Definition bind {A B} (x : Exn A) (f : A → Exn B) : Exn B :=
  match x with
  | Ok a => f a
  | Throw m => Throw m
  end.

(** [xs.map(f)] where [f] may throw: the first throw ends the map. *)
Fixpoint mapE {A B} (f : A → Exn B) (xs : list A) : Exn (list B) :=
  match xs with
  | [] => Ok []
  | x :: xs' =>
      bind (f x) (λ y, bind (mapE f xs') (λ ys, Ok (y :: ys)))
  end.

(** What a request handler receives where the code expects a list of
    records, as far as it inspects it: [undefined], a scalar, a single
    object, or an array of objects. *)
Inductive jsany :=
| JUndefined
| JScalar (v : value)
| JObject (r : record)
| JArray (rs : list record).

(** [Array.isArray(x)] *)
Definition isArray (x : jsany) : bool :=
  match x with JArray _ => true | _ => false end.

End Js.
Export Js.

Notation "x ←! e1 ; e2" := (Js.bind e1 (λ x, e2))
  (at level 100, e1 at next level, right associativity, only parsing).

(** ** src/models/Patient.ts *)
Module Patient.

Definition is_hex_digit (c : ascii) : bool :=
  let n := nat_of_ascii c in
  ((48 <=? n)%nat && (n <=? 57)%nat) || ((65 <=? n)%nat && (n <=? 70)%nat)
  || ((97 <=? n)%nat && (n <=? 102)%nat).

Definition lower_hex_digit (c : ascii) : ascii :=
  let n := nat_of_ascii c in
  if (65 <=? n)%nat && (n <=? 70)%nat then ascii_of_nat (n + 32) else c.

Fixpoint string_forall (p : ascii → bool) (s : string) : bool :=
  match s with
  | EmptyString => true
  | String c s' => p c && string_forall p s'
  end.

Fixpoint string_map (f : ascii → ascii) (s : string) : string :=
  match s with
  | EmptyString => EmptyString
  | String c s' => String (f c) (string_map f s')
  end.

(** Modelled from the spec: the [ObjectId] class of the [mongodb] package is
    not part of the sources.  The identifier is "an opaque fixed-length
    token (24 hex characters in the reference store)". *)
Definition validObjectId (id : string) : bool :=
  (String.length id =? 24)%nat && string_forall is_hex_digit id.

(** Modelled from the spec: [new ObjectId(id)] of the [mongodb] package; it
    throws on a token that is not 24 hex characters, and an ObjectId prints
    as lower-case hex. *)
Definition new_ObjectId (id : string) : Exn value :=
  if validObjectId id then Ok (VOid (string_map lower_hex_digit id))
  else Throw "input must be a 24 character hex string, 12 byte Uint8Array, or an integer".

(** [export function toObjectId(id: string): ObjectId] *)
Definition toObjectId (id : string) : Exn value := new_ObjectId id.

(** [export function preparePatient(patient: any): any].  [now] is what
    [new Date()] returns during the call. *)
Definition preparePatient (now : JSDate) (patient : record) : Exn record :=
  let prepared := patient in
  prepared ←!
    (match prepared !! "_id" with
     | Some (VStr s) =>
         if truthy (Some (VStr s))
         then (oid ←! toObjectId s; Ok (<["_id" := oid]> prepared))
         else Ok prepared
     | _ => Ok prepared
     end);
  let prepared :=
    if negb (truthy (prepared !! "createdAt"))
    then <["createdAt" := VDate now]> prepared
    else prepared in
  let prepared := <["updatedAt" := VDate now]> prepared in
  Ok prepared.

(** [export function patientToJSON(patient: any): any] on a document that
    is not null. *)
Definition patientToJSON (patient : record) : record :=
  let jsonPatient := patient in
  let jsonPatient :=
    match jsonPatient !! "_id" with
    | Some v =>
        if truthy (Some v) && negb (is_string (Some v))
        then <["_id" := VStr (toString v)]> jsonPatient
        else jsonPatient
    | None => jsonPatient
    end in
  let jsonPatient :=
    match jsonPatient !! "createdAt" with
    | Some (VDate d) => <["createdAt" := VStr (toISOString d)]> jsonPatient
    | _ => jsonPatient
    end in
  let jsonPatient :=
    match jsonPatient !! "updatedAt" with
    | Some (VDate d) => <["updatedAt" := VStr (toISOString d)]> jsonPatient
    | _ => jsonPatient
    end in
  jsonPatient.

End Patient.

(** ** The persistence boundary: a MongoDB collection *)
Module Mongo.

#[global] Instance JSDate_eq_dec : EqDecision JSDate.
Proof. solve_decision. Defined.

#[global] Instance value_eq_dec : EqDecision value.
Proof. solve_decision. Defined.

(** The documents of the [patients] collection, in natural order. *)
Abbreviation Collection := (list record).

(** The filter [{ _id: oid }]. *)
Definition matches_id (oid : value) (d : record) : bool :=
  bool_decide (d !! "_id" = Some oid).

(** Modelled from the spec: [collection.findOne({ _id })] of the [mongodb]
    driver, "findOne(id) -> Record | not-found". *)
Definition findOne (oid : value) (c : Collection) : option record :=
  List.find (matches_id oid) c.

Fixpoint remove_first (p : record → bool) (c : Collection) : Collection :=
  match c with
  | [] => []
  | d :: c' => if p d then c' else d :: remove_first p c'
  end.

(** Modelled from the spec: [collection.deleteOne({ _id })] of the
    [mongodb] driver, "deleteOne(id) -> {deletedCount}". *)
Definition deleteOne (oid : value) (c : Collection) : nat * Collection :=
  if existsb (matches_id oid) c
  then (1, remove_first (matches_id oid) c)
  else (0, c).

(** The result of one update: [matchedCount], [modifiedCount] and the
    collection afterwards. *)
Record UpdateResult := {
  matchedCount : nat;
  modifiedCount : nat;
  updated : Collection
}.

(** Modelled from the spec: [collection.updateOne({ _id }, { $set })] of the
    [mongodb] driver without upsert, "each entry replaces the named fields
    on the record with matching id; returns modified count".  A document
    the [$set] leaves as it was is matched but not modified. *)
Fixpoint updateOne (oid : value) (set : record) (c : Collection)
  : UpdateResult :=
  match c with
  | [] => {| matchedCount := 0; modifiedCount := 0; updated := [] |}
  | d :: c' =>
      if matches_id oid d
      then
        let d' := set ∪ d in
        {| matchedCount := 1;
           modifiedCount := if bool_decide (d' = d) then 0 else 1;
           updated := d' :: c' |}
      else
        let r := updateOne oid set c' in
        {| matchedCount := matchedCount r;
           modifiedCount := modifiedCount r;
           updated := d :: updated r |}
  end.

(** One operation of a bulk write:
    [{ updateOne: { filter: { _id }, update: { $set }, upsert } }]. *)
Record UpdateOneOp := {
  filter_id : value;
  update_set : record;
  upsert : bool
}.

(** Modelled from the spec: [collection.bulkWrite(operations)] of the
    [mongodb] driver for [updateOne] operations without upsert, applied in
    order; the result carries the sum of the modified counts. *)
Fixpoint bulkWrite (ops : list UpdateOneOp) (c : Collection)
  : nat * Collection :=
  match ops with
  | [] => (0, c)
  | op :: ops' =>
      let r := updateOne (filter_id op) (update_set op) c in
      let '(n, c') := bulkWrite ops' (updated r) in
      (modifiedCount r + n, c')
  end.

End Mongo.
Export Mongo.

(** ** HTTP responses of the API routes *)
Module Http.

(** The JSON bodies the routes answer with. *)
Inductive ResBody :=
| ErrorBody (error : string) (details : option string)
| SuccessBody
| ModifiedBody (modifiedCount : nat)
| UploadedBody (count insertedCount : nat)
| PatientBody (patient : record)
| NullBody.

(** [res.status(code).json(body)] *)
Record Response := { status : nat; json : ResBody }.

(** [response.ok] of the fetch API: a status in the range 200-299. *)
Definition ok (r : Response) : bool :=
  (200 <=? status r)%nat && (status r <=? 299)%nat.

(** A client error is a status in the range 400-499. *)
Definition client_error (r : Response) : bool :=
  (400 <=? status r)%nat && (status r <=? 499)%nat.

(** A server error is a status in the range 500-599. *)
Definition server_error (r : Response) : bool :=
  (500 <=? status r)%nat && (status r <=? 599)%nat.

(** [req.query.id] of a Next.js route: absent, one string, or several. *)
Inductive QueryParam :=
| QMissing
| QString (s : string)
| QArray (l : list string).

End Http.
Export Http.

(** ** pages/api/patients/index.ts, the branch of PUT /api/patients *)
Module PatientsApi.

(** The callback of [patients.map] in the PUT branch. *)
Definition updateOperation (now : JSDate) (patient : record)
  : Exn UpdateOneOp :=
  if negb (truthy (patient !! "_id"))
  then Throw "Patient is missing _id field"
  else
    objectId ←!
      (match patient !! "_id" with
       | Some (VStr s) => Patient.toObjectId s
       | Some v => Ok v
       | None => Ok VNull
       end);
    prepared ←! Patient.preparePatient now patient;
    let updateFields := delete "_id" prepared in
    Ok {| filter_id := objectId; update_set := updateFields;
          upsert := false |}.

(** [if (req.method === 'PUT') { ... }] inside the handler's [try], with
    the [catch] that answers 500. *)
Definition handler_PUT (body : jsany) (now : JSDate) (db : Collection)
  : Response * Collection :=
  match body with
  | JArray patients =>
      match mapE (updateOperation now) patients with
      | Throw message =>
          ({| status := 500;
              json := ErrorBody "Internal server error" (Some message) |},
           db)
      | Ok updateOperations =>
          if (0 <? length updateOperations)%nat
          then
            let '(n, db') := bulkWrite updateOperations db in
            ({| status := 200; json := ModifiedBody n |}, db')
          else ({| status := 200; json := ModifiedBody 0 |}, db)
      end
  | _ =>
      ({| status := 400;
          json := ErrorBody "Expected array of patients" None |}, db)
  end.

End PatientsApi.

(** ** What the bulk update makes of an entry *)
Module BulkUpdate.

(** The update operation of one entry: the filter is the entry's
    identifier, the [$set] holds every field of the entry but [_id], with
    [updatedAt] stamped and [createdAt] kept or stamped. *)
Definition entry_operation (now : JSDate) (patient : record)
  (op : UpdateOneOp) : Prop :=
  match patient !! "_id" with
  | Some (VStr id) => Patient.toObjectId id = Ok (filter_id op)
  | Some v => filter_id op = v
  | None => False
  end ∧
  upsert op = false ∧
  update_set op !! "_id" = None ∧
  update_set op !! "updatedAt" = Some (VDate now) ∧
  update_set op !! "createdAt" =
    (if truthy (patient !! "createdAt") then patient !! "createdAt"
     else Some (VDate now)) ∧
  (∀ field, field ∉ ["_id"; "createdAt"; "updatedAt"] →
     update_set op !! field = patient !! field).

End BulkUpdate.
Export BulkUpdate.

(** ** pages/api/patients/[id].ts *)
Module PatientIdApi.

Definition invalid_format : Response :=
  {| status := 400; json := ErrorBody "Invalid patient ID format" None |}.

Definition not_found : Response :=
  {| status := 404; json := ErrorBody "Patient not found" None |}.

(** The GET branch. *)
Definition handler_GET (id : string) (db : Collection)
  : Response * Collection :=
  match (oid ←! Patient.toObjectId id; Ok (findOne oid db)) with
  | Throw _ => (invalid_format, db)
  | Ok None => (not_found, db)
  | Ok (Some patient) =>
      ({| status := 200; json := PatientBody (Patient.patientToJSON patient) |},
       db)
  end.

(** The PUT branch.  [None] is a request without a JSON object as body:
    reading [patientData._id] throws before the inner [try]. *)
Definition handler_PUT (id : string) (body : option record) (now : JSDate)
  (db : Collection) : Response * Collection :=
  match body with
  | None =>
      ({| status := 500;
          json := ErrorBody "Internal server error"
                    (Some "Cannot read properties of undefined (reading '_id')") |},
       db)
  | Some patientData =>
      if truthy (patientData !! "_id")
         && negb (bool_decide (patientData !! "_id" = Some (VStr id)))
      then
        ({| status := 400;
            json := ErrorBody
              "Patient ID in the URL does not match the ID in the request body"
              None |}, db)
      else
        let patientData := <["_id" := VStr id]> patientData in
        match (oid ←! Patient.toObjectId id;
               set ←! Patient.preparePatient now patientData;
               Ok (oid, updateOne oid set db)) with
        | Throw _ => (invalid_format, db)
        | Ok (oid, result) =>
            if (matchedCount result =? 0)%nat
            then (not_found, updated result)
            else
              match findOne oid (updated result) with
              | Some updatedPatient =>
                  ({| status := 200;
                      json := PatientBody (Patient.patientToJSON updatedPatient) |},
                   updated result)
              | None => ({| status := 200; json := NullBody |}, updated result)
              end
        end
  end.

(** The DELETE branch. *)
Definition handler_DELETE (id : string) (db : Collection)
  : Response * Collection :=
  match (oid ←! Patient.toObjectId id; Ok (deleteOne oid db)) with
  | Throw _ => (invalid_format, db)
  | Ok (deletedCount, db') =>
      if (deletedCount =? 0)%nat
      then (not_found, db')
      else ({| status := 200; json := SuccessBody |}, db')
  end.

(** [export default async function handler(req, res)] *)
Definition handler (method : string) (id : QueryParam)
  (body : option record) (now : JSDate) (db : Collection)
  : Response * Collection :=
  match id with
  | QString id =>
      if String.eqb id ""
      then ({| status := 400; json := ErrorBody "Invalid patient ID" None |}, db)
      else if String.eqb method "GET" then handler_GET id db
      else if String.eqb method "PUT" then handler_PUT id body now db
      else if String.eqb method "DELETE" then handler_DELETE id db
      else ({| status := 405; json := ErrorBody "Method not allowed" None |}, db)
  | _ => ({| status := 400; json := ErrorBody "Invalid patient ID" None |}, db)
  end.

End PatientIdApi.

(** ** pages/api/patients/upload.ts *)
Module UploadApi.

(** [req.body] of the upload route as far as [const { patients } = req.body]
    inspects it: [null], from which nothing can be destructured, or any
    other value with what its [patients] property holds. *)
Inductive UploadBody :=
| BodyNull
| BodyWith (patients : jsany).

(** [patients.length] of an array. *)
Definition array_length (x : jsany) : nat :=
  match x with JArray rs => length rs | _ => 0 end.

Definition array_elements (x : jsany) : list record :=
  match x with JArray rs => rs | _ => [] end.

(** What the handler did to the collection: the argument of each
    [insertMany] it called. *)
Abbreviation InsertLog := (list (list record)).

Section Handler.

(** [collection.insertMany(documents)] of the [mongodb] driver, which is
    not part of the sources: "insertMany(records) -> {insertedCount}", or a
    thrown error. *)
Variable insertMany : list record → Collection → Exn (nat * Collection).

(** [export default async function handler(req, res)] *)
Definition handler (method : string) (body : UploadBody) (now : JSDate)
  (db : Collection) : Response * Collection * InsertLog :=
  if negb (String.eqb method "POST")
  then ({| status := 405; json := ErrorBody "Method not allowed" None |}, db, [])
  else
    match body with
    | BodyNull =>
        ({| status := 500;
            json := ErrorBody "Failed to process upload"
              (Some "Cannot destructure property 'patients' of 'req.body' as it is null.") |},
         db, [])
    | BodyWith patients =>
        if negb (isArray patients) || (array_length patients =? 0)%nat
        then
          ({| status := 400;
              json := ErrorBody "Invalid or empty patients array" None |},
           db, [])
        else
          match mapE (Patient.preparePatient now) (array_elements patients) with
          | Throw message =>
              ({| status := 500;
                  json := ErrorBody "Failed to process upload" (Some message) |},
               db, [])
          | Ok documents =>
              match insertMany documents db with
              | Throw message =>
                  ({| status := 500;
                      json := ErrorBody "Failed to process upload" (Some message) |},
                   db, [documents])
              | Ok (insertedCount, db') =>
                  ({| status := 200;
                      json := UploadedBody (array_length patients) insertedCount |},
                   db', [documents])
              end
          end
    end.

End Handler.

End UploadApi.

(** ** lib/fileParser.ts *)
Module FileParser.

(** A row-level error as PapaParse reports it. *)
Record RowError := { row : nat; message : string }.

(** [interface ChunkResult] *)
Record ChunkResult := {
  chunk_data : list record;
  chunk_fields : list string;
  chunk_errors : list RowError
}.

(** [interface ParseResult] *)
Record ParseResult := {
  data : list record;
  fields : list string;
  errors : list RowError;
  totalRows : nat
}.

(** The calls a parse makes to [onChunk], [onComplete] and [onError], in
    order. *)
Inductive Callback :=
| OnChunk (result : ChunkResult)
| OnComplete (result : ParseResult)
| OnError (message : string).

(** *** The delimited-text variant: the worker of [createCSVParserWorker] *)

(** The [results] PapaParse hands to the [chunk] callback. *)
Record PapaResults := {
  results_data : list record;
  results_meta_fields : option (list string);
  results_errors : list RowError
}.

(** What PapaParse does during [Papa.parse(file, parseConfig)]: it calls
    [chunk], [complete] or [error]. *)
Inductive PapaEvent :=
| PapaChunk (results : PapaResults)
| PapaComplete
| PapaError (message : string).

(** The variables of the worker script. *)
Record WorkerState := {
  w_totalRows : nat;
  w_allFields : list string;
  w_errors : list RowError
}.

Definition worker_init : WorkerState :=
  {| w_totalRows := 0; w_allFields := []; w_errors := [] |}.

(** The messages the worker posts to the main thread. *)
Inductive WorkerMessage :=
| MsgChunk (data : list record) (fields : list string)
    (errors : list RowError)
| MsgComplete (totalRows : nat) (fields : list string)
    (errors : list RowError)
| MsgError (error : string).

(** The [chunk], [complete] and [error] callbacks of [parseConfig]. *)
Definition worker_step (w : WorkerState) (e : PapaEvent)
  : WorkerState * WorkerMessage :=
  match e with
  | PapaChunk results =>
      let totalRows := w_totalRows w + length (results_data results) in
      let allFields :=
        match results_meta_fields results with
        | Some fields => foldl (λ s field, Set_add field s) (w_allFields w) fields
        | None => w_allFields w
        end in
      let errors :=
        if (0 <? length (results_errors results))%nat
        then w_errors w ++ results_errors results
        else w_errors w in
      ({| w_totalRows := totalRows; w_allFields := allFields;
          w_errors := errors |},
       MsgChunk (results_data results) allFields (results_errors results))
  | PapaComplete =>
      (w, MsgComplete (w_totalRows w) (w_allFields w) (w_errors w))
  | PapaError message => (w, MsgError message)
  end.

(** The messages of a whole parse. *)
Fixpoint worker_run (w : WorkerState) (events : list PapaEvent)
  : list WorkerMessage :=
  match events with
  | [] => []
  | e :: events' =>
      let '(w', m) := worker_step w e in
      m :: worker_run w' events'
  end.

(** [worker.onmessage] of [parseCSVFile]: the callbacks the messages lead
    to.  After a [complete] or an [error] message the worker is terminated
    and no later message arrives. *)
Fixpoint onmessage (messages : list WorkerMessage) : list Callback :=
  match messages with
  | [] => []
  | MsgChunk data fields errors :: messages' =>
      OnChunk {| chunk_data := data; chunk_fields := fields;
                 chunk_errors := errors |}
      :: onmessage messages'
  | MsgComplete totalRows fields errors :: _ =>
      [OnComplete {| data := []; fields := fields; errors := errors;
                     totalRows := totalRows |}]
  | MsgError error :: _ => [OnError error]
  end.

(** [export function parseCSVFile(file, onChunk, onComplete, onError)],
    given what PapaParse makes of the file. *)
Definition parseCSVFile (events : list PapaEvent) : list Callback :=
  onmessage (worker_run worker_init events).

(** *** The spreadsheet variant: [parseExcelFile] *)

(** A cell as [eachCell] hands it over, with its 1-based column number. *)
Record Cell := { colNumber : nat; cell_value : value }.

(** A row as [eachRow] hands it over, with its 1-based row number and the
    cells [row.eachCell] visits, in order. *)
Record Row := { rowNumber : nat; cells : list Cell }.

(** A worksheet: the rows [eachRow] visits, in order. *)
Abbreviation Worksheet := (list Row).

(** [worksheet.getRow(1)]: the cells of the row numbered 1. *)
Definition getRow1 (worksheet : Worksheet) : list Cell :=
  match List.find (λ r, (rowNumber r =? 1)%nat) worksheet with
  | Some r => cells r
  | None => []
  end.

(** [cell.value?.toString()]; for a null value it is [undefined], which is
    falsy as the empty text is. *)
Definition cell_text (cell : Cell) : string :=
  match cell_value cell with
  | VNull => ""
  | v => toString v
  end.

(** [cell.value?.toString() || `Column${colNumber}`] *)
Definition header_of (cell : Cell) : string :=
  let text := cell_text cell in
  if String.eqb text "" then "Column" +:+ pretty (colNumber cell) else text.

(** The callback of [worksheet.getRow(1).eachCell]: the headers and the
    field set after the header row. *)
Definition read_headers (row1 : list Cell) : list string * list string :=
  foldl (λ '(headers, allFields) cell,
           let header := header_of cell in
           (headers ++ [header], Set_add header allFields))
        ([], []) row1.

Definition CHUNK_SIZE : nat := 100.

(** The callback of [row.eachCell]: one data row as a record. *)
Definition row_record (headers : list string) (r : Row) : record :=
  foldl (λ rowData cell,
           if (colNumber cell <=? length headers)%nat
           then
             match headers !! (colNumber cell - 1)%nat with
             | Some header => <[header := cell_value cell]> rowData
             | None => rowData
             end
           else rowData)
        ∅ (cells r).

(** The variables of [reader.onload] the row loop updates, and the calls to
    [onChunk] made so far. *)
Record ExcelState := {
  currentChunk : list record;
  x_totalRows : nat;
  allData : list record;
  calls : list Callback
}.

(** The callback of [worksheet.eachRow]. *)
Definition eachRow_step (headers allFields : list string)
  (st : ExcelState) (r : Row) : ExcelState :=
  if (rowNumber r =? 1)%nat then st
  else
    let rowData := row_record headers r in
    let currentChunk := currentChunk st ++ [rowData] in
    let totalRows := S (x_totalRows st) in
    if (CHUNK_SIZE <=? length currentChunk)%nat
    then
      {| currentChunk := [];
         x_totalRows := totalRows;
         allData := allData st ++ currentChunk;
         calls := calls st ++
           [OnChunk {| chunk_data := currentChunk;
                       chunk_fields := allFields;
                       chunk_errors := [] |}] |}
    else
      {| currentChunk := currentChunk;
         x_totalRows := totalRows;
         allData := allData st;
         calls := calls st |}.

(** [export async function parseExcelFile(file, onChunk, onComplete,
    onError)], given the worksheets of the loaded workbook. *)
Definition parseExcelFile (worksheets : list Worksheet) : list Callback :=
  match worksheets with
  | [] => [OnError "No worksheets found in the Excel file"]
  | worksheet :: _ =>
      let '(headers, allFields) := read_headers (getRow1 worksheet) in
      let st :=
        foldl (eachRow_step headers allFields)
          {| currentChunk := []; x_totalRows := 0; allData := [];
             calls := [] |}
          worksheet in
      let st :=
        if (0 <? length (currentChunk st))%nat
        then
          {| currentChunk := currentChunk st;
             x_totalRows := x_totalRows st;
             allData := allData st ++ currentChunk st;
             calls := calls st ++
               [OnChunk {| chunk_data := currentChunk st;
                           chunk_fields := allFields;
                           chunk_errors := [] |}] |}
        else st in
      calls st ++
        [OnComplete {| data := allData st; fields := allFields;
                       errors := []; totalRows := x_totalRows st |}]
  end.

End FileParser.

(** ** components/PatientTable.tsx: the row reconciliation store *)
Module PatientTable.

(** Row objects live in the JS heap: [tableData] and [originalData] are
    arrays of references, and an edit writes through the reference.  A
    location is an index into the heap; objects are never freed. *)
Abbreviation loc := nat.
Abbreviation Heap := (list record).

(** The object at a location. *)
Definition read (h : Heap) (l : loc) : record := default ∅ (h !! l).

(** The contents of an array of row objects. *)
Definition rows (h : Heap) (ls : list loc) : list record := read h <$> ls.

(** One new object per record, as [JSON.parse] / [response.json()] makes
    them. *)
Definition alloc_all (h : Heap) (rs : list record) : list loc * Heap :=
  (seq (length h) (length rs), h ++ rs).

(** [JSON.parse(JSON.stringify(xs))] on an array of row objects. *)
Definition deep_copy (h : Heap) (ls : list loc) : list loc * Heap :=
  alloc_all h (json_roundtrip <$> rows h ls).

(** The state of the component the store consists of, with the heap. *)
Record Store := {
  heap : Heap;
  tableData : list loc;
  originalData : list loc;
  dirtyRows : list nat;     (* a JS Set: insertion order, no duplicates *)
  rowSelection : list nat   (* the keys of the selection object, in order *)
}.

(** The [useState] defaults. *)
Definition initial : Store :=
  {| heap := []; tableData := []; originalData := []; dirtyRows := [];
     rowSelection := [] |}.

(** The effect on [data]: [setTableData(data)], a deep copy as
    [originalData], no dirty rows, no selection. *)
Definition load_effect (data : list loc) (s : Store) : Store :=
  let '(original, h) := deep_copy (heap s) data in
  {| heap := h; tableData := data; originalData := original;
     dirtyRows := []; rowSelection := [] |}.

(** [fetchPatients] of pages/index.tsx handing its result to the table as
    the [data] prop: [served] is the [data] array of the JSON the server
    sent, which [response.json()] parses into new objects. *)
Definition load (served : list record) (s : Store) : Store :=
  let '(data, h) := alloc_all (heap s) (json_roundtrip <$> served) in
  load_effect data
    {| heap := h; tableData := tableData s; originalData := originalData s;
       dirtyRows := dirtyRows s; rowSelection := rowSelection s |}.

(** [const updateData = (rowIndex, columnId, value) => { ... }].  Writing a
    property of [newData[rowIndex]] throws when there is no such row. *)
Definition updateData (rowIndex : nat) (columnId : string) (value : value)
  (s : Store) : Exn Store :=
  let newData := tableData s in
  match newData !! rowIndex with
  | None => Throw "Cannot set properties of undefined"
  | Some l =>
      let h := <[l := <[columnId := value]> (read (heap s) l)]> (heap s) in
      let newDirtyRows := Set_add rowIndex (dirtyRows s) in
      Ok {| heap := h; tableData := newData;
            originalData := originalData s;
            dirtyRows := newDirtyRows;
            rowSelection := rowSelection s |}
  end.

(** [['_id', 'createdAt', 'updatedAt'].includes(key)] *)
Definition reserved (key : string) : bool :=
  bool_decide (key ∈ ["_id"; "createdAt"; "updatedAt"]).

(** [x || ''] *)
Definition or_empty (v : option value) : option value :=
  if truthy v then v else Some (VStr "").

(** The [onBlur] handler of an editable cell of row [rowIndex], column
    [columnId], when the cell holds the text [newValue].  The cells of the
    reserved columns are not editable. *)
Definition onBlur (rowIndex : nat) (columnId : string) (newValue : string)
  (s : Store) : Exn Store :=
  if reserved columnId then Ok s
  else
    let getValue :=
      match tableData s !! rowIndex with
      | Some l => read (heap s) l !! columnId
      | None => None
      end in
    let initialValue := or_empty getValue in
    if negb (String.eqb newValue (String_of (or_empty initialValue)))
    then updateData rowIndex columnId (VStr newValue) s
    else Ok s.

(** [onRowSelectionChange: setRowSelection] *)
Definition setRowSelection (selection : list nat) (s : Store) : Store :=
  {| heap := heap s; tableData := tableData s;
     originalData := originalData s; dirtyRows := dirtyRows s;
     rowSelection := selection |}.

(** The requests the store sends. *)
Inductive Request :=
| PutPatients (body : list record)
| DeletePatient (id : string)
| GetPatients.

Inductive Toast :=
| ToastSuccess (message : string)
| ToastError (message : string).

(** What an operation of the store leaves behind. *)
Record Outcome := {
  store_after : Store;
  db_after : Collection;
  requests : list Request;
  toast : option Toast
}.

(** [error.error || fallback] on the JSON of a failed response. *)
Definition error_or (r : Response) (fallback : string) : string :=
  match json r with
  | ErrorBody e _ => if String.eqb e "" then fallback else e
  | _ => fallback
  end.

(** The callback of [Array.from(dirtyRows).map] in [handleSaveChanges]. *)
Definition modifiedRow (s : Store) (index : nat) : Exn loc :=
  match tableData s !! index with
  | None => Throw "Cannot read properties of undefined (reading '_id')"
  | Some l =>
      let row := read (heap s) l in
      if negb (truthy (row !! "_id"))
      then Throw "Cannot update row without _id"
      else Ok l
  end.

(** [const handleSaveChanges = async () => { ... }], run against the
    server holding [db]; [now] is the server's clock. *)
Definition handleSaveChanges (now : JSDate) (s : Store) (db : Collection)
  : Outcome :=
  match mapE (modifiedRow s) (dirtyRows s) with
  | Throw message =>
      {| store_after := s; db_after := db; requests := [];
         toast := Some (ToastError
           (if String.eqb message "" then "Failed to save changes" else message)) |}
  | Ok modifiedRows =>
      if (length modifiedRows =? 0)%nat
      then {| store_after := s; db_after := db; requests := [];
              toast := Some (ToastSuccess "No changes to save") |}
      else
        let body := json_roundtrip <$> rows (heap s) modifiedRows in
        let '(response, db') := PatientsApi.handler_PUT (JArray body) now db in
        if negb (ok response)
        then
          {| store_after := s; db_after := db'; requests := [PutPatients body];
             toast := Some (ToastError (error_or response "Failed to save changes")) |}
        else
          let '(original, h) := deep_copy (heap s) (tableData s) in
          {| store_after :=
               {| heap := h; tableData := tableData s;
                  originalData := original; dirtyRows := [];
                  rowSelection := rowSelection s |};
             db_after := db'; requests := [PutPatients body];
             toast := Some (ToastSuccess
               ("Saved " +:+
                match json response with
                | ModifiedBody n => pretty n
                | _ => "undefined"
                end +:+ " changes!")) |}
  end.

(** [const handleRevertChanges = () => { ... }] *)
Definition handleRevertChanges (s : Store) : Store * Toast :=
  let '(copy, h) := deep_copy (heap s) (originalData s) in
  ({| heap := h; tableData := copy; originalData := originalData s;
      dirtyRows := []; rowSelection := rowSelection s |},
   ToastSuccess "Changes reverted").

(** [selectedRows.map(row => { ... fetch(DELETE) ... })] in
    [handleDeleteSelected]: each request is sent, and answered by the
    server, as the map reaches its row; a row without [_id] throws out of
    the map with the earlier requests already sent.  The result holds, per
    row, whether its promise is fulfilled or rejected. *)
Fixpoint deletePromises (h : Heap) (now : JSDate)
  (selectedRows : list (option loc)) (db : Collection)
  : Exn (list (Exn unit)) * Collection * list Request :=
  match selectedRows with
  | [] => (Ok [], db, [])
  | None :: _ =>
      (Throw "Cannot read properties of undefined (reading '_id')", db, [])
  | Some l :: rest =>
      let row := read h l in
      if negb (truthy (row !! "_id"))
      then (Throw "Cannot delete row without _id", db, [])
      else
        let id := String_of (row !! "_id") in
        let '(response, db1) :=
          PatientIdApi.handler "DELETE" (QString id) None now db in
        let promise :=
          if ok response then Ok ()
          else Throw ("Failed to delete record with ID " +:+ id) in
        let '(promises, db2, reqs) := deletePromises h now rest db1 in
        (promises ←! promises; Ok (promise :: promises),
         db2, DeletePatient id :: reqs)
  end.

(** [await Promise.all(promises)]: the first rejection is thrown (the
    requests are answered in the order they are sent). *)
Fixpoint Promise_all (promises : list (Exn unit)) : Exn unit :=
  match promises with
  | [] => Ok ()
  | Ok _ :: promises' => Promise_all promises'
  | Throw message :: _ => Throw message
  end.

Section Delete.

(** GET /api/patients as the server answers it from its collection: the
    [data] property of the JSON it sends, if any.  The listing branch of
    the route (paging and sorting by the driver's cursor) is not
    modelled. *)
Variable fetchPatients : Collection → option (list record).

(** [const handleDeleteSelected = async () => { ... }]; [confirm] is the
    answer to [window.confirm]. *)
Definition handleDeleteSelected (confirm : bool) (now : JSDate)
  (s : Store) (db : Collection) : Outcome :=
  let selectedRows := (λ index, tableData s !! index) <$> rowSelection s in
  if (length selectedRows =? 0)%nat
  then {| store_after := s; db_after := db; requests := [];
          toast := Some (ToastError "No rows selected") |}
  else if negb confirm
  then {| store_after := s; db_after := db; requests := []; toast := None |}
  else
    let '(promises, db', reqs) := deletePromises (heap s) now selectedRows db in
    match (promises ←! promises; Promise_all promises) with
    | Throw message =>
        {| store_after := s; db_after := db'; requests := reqs;
           toast := Some (ToastError
             (if String.eqb message "" then "Failed to delete records"
              else message)) |}
    | Ok _ =>
        let served := default [] (fetchPatients db') in
        let '(data, h) := alloc_all (heap s) (json_roundtrip <$> served) in
        let '(original, h) := deep_copy h data in
        {| store_after :=
             {| heap := h; tableData := data; originalData := original;
                dirtyRows := []; rowSelection := [] |};
           db_after := db'; requests := reqs ++ [GetPatients];
           toast := Some (ToastSuccess
             ("Deleted " +:+ pretty (length selectedRows)
              +:+ " record(s) successfully")) |}
    end.

End Delete.

End PatientTable.

(** ** The states the store goes through *)
Module Reconciliation.
Import PatientTable.

(** A record [JSON.parse(JSON.stringify(r))] gives back as it is. *)
Definition json_pure (r : record) : Prop := json_roundtrip r = r.

(** The working copy and the snapshot share no row object, and every row
    object is in the heap. *)
Record separated (s : Store) : Prop := {
  sep_nodup : NoDup (tableData s);
  sep_table : Forall (λ l, l < length (heap s)) (tableData s);
  sep_original : Forall (λ l, l < length (heap s)) (originalData s);
  sep_disjoint : ∀ l, l ∈ tableData s → l ∉ originalData s;
  sep_original_pure : Forall json_pure (rows (heap s) (originalData s))
}.

(** The rows outside the dirty set are as they are in the snapshot. *)
Record tracked (s : Store) : Prop := {
  trk_length : length (tableData s) = length (originalData s);
  trk_dirty : Forall (λ i, i < length (tableData s)) (dirtyRows s);
  trk_clean : ∀ i, i ∉ dirtyRows s →
    rows (heap s) (tableData s) !! i = rows (heap s) (originalData s) !! i;
  trk_table_pure : Forall json_pure (rows (heap s) (tableData s))
}.

Definition wf (s : Store) : Prop := separated s ∧ tracked s.

(** The states of a mounted table: it starts with the [useState] defaults;
    the parent hands it fetched data; the user edits cells (the value of an
    edit is the text of the cell, or any other JSON value), saves, reverts,
    selects rows and deletes the selected ones. *)
Inductive reachable : Store → Prop :=
| reach_initial : reachable initial
| reach_load s served :
    reachable s → reachable (load served s)
| reach_edit s rowIndex columnId v s' :
    reachable s → json_value v = v →
    updateData rowIndex columnId v s = Ok s' → reachable s'
| reach_save s now db :
    reachable s → reachable (store_after (handleSaveChanges now s db))
| reach_revert s :
    reachable s → reachable (handleRevertChanges s).1
| reach_select s selection :
    reachable s → reachable (setRowSelection selection s)
| reach_delete s fetchPatients confirm now db :
    reachable s →
    reachable (store_after (handleDeleteSelected fetchPatients confirm now s db)).

(** The store a fetch leaves: fresh row objects as working copy, fresh
    copies of them as snapshot. *)
Definition fresh_table (h : Heap) (rs : list record) (selection : list nat)
  : Store :=
  {| heap := (h ++ rs) ++ rs;
     tableData := seq (length h) (length rs);
     originalData := seq (length (h ++ rs)) (length rs);
     dirtyRows := [];
     rowSelection := selection |}.

(** The store a successful save leaves: the snapshot is a fresh copy of the
    working copy. *)
Definition saved (s : Store) : Store :=
  {| heap := heap s ++ (json_roundtrip <$> rows (heap s) (tableData s));
     tableData := tableData s;
     originalData := seq (length (heap s)) (length (tableData s));
     dirtyRows := [];
     rowSelection := rowSelection s |}.

(** An [edit(rowIndex, fieldName, newValue)] call. *)
Definition edit : Type := nat * string * value.

(** One call of [updateData]; when it throws the state stays as it was. *)
Definition apply_edit (s : Store) (e : edit) : Store :=
  let '(rowIndex, columnId, v) := e in
  match updateData rowIndex columnId v s with
  | Ok s' => s'
  | Throw _ => s
  end.

Definition run_edits (es : list edit) (s : Store) : Store :=
  foldl apply_edit s es.

(** The answers of the server to DELETE /api/patients/[id] for the
    identifiers [ids], one request after the other: whether each response
    is [ok], and the collection afterwards. *)
Fixpoint serve_deletes (now : JSDate) (ids : list string) (db : Collection)
  : list bool * Collection :=
  match ids with
  | [] => ([], db)
  | id :: ids' =>
      let '(response, db1) :=
        PatientIdApi.handler "DELETE" (QString id) None now db in
      let '(oks, db2) := serve_deletes now ids' db1 in
      (ok response :: oks, db2)
  end.


(** The identifier of the row at [index], if there is such a row and it
    carries one. *)
Definition row_id (s : Store) (index : nat) : option string :=
  match tableData s !! index with
  | Some l =>
      let row := read (heap s) l in
      if truthy (row !! "_id") then Some (String_of (row !! "_id")) else None
  | None => None
  end.



End Reconciliation.

(** ** Concrete tables and requests *)
Module Scenario.
Import PatientTable Reconciliation.

Definition now : JSDate :=
  {| toISOString := "2024-05-01T10:00:00.000Z";
     Date_toString := "Wed May 01 2024 10:00:00 GMT+0000 (Coordinated Universal Time)" |}.

Definition id_ann : string := "507f1f77bcf86cd799439011".
Definition id_bob : string := "507f1f77bcf86cd799439012".

(** Two records as GET /api/patients serves them. *)
Definition ann : record :=
  <["_id" := VStr id_ann]> (<["email" := VStr "old@x.com"]> ∅).
Definition bob : record :=
  <["_id" := VStr id_bob]> (<["email" := VStr "bob@x.com"]> ∅).

(** A decoded record that was never persisted: it has no identifier. *)
Definition anonymous : record := <["email" := VStr "old@x.com"]> ∅.

(** The document of [ann] in the collection. *)
Definition ann_doc : record :=
  <["_id" := VOid id_ann]> (<["email" := VStr "old@x.com"]> ∅).

(** The table after [load([ann])], after [edit(0, "email", "new@x.com")]
    and after [edit(0, "email", "old@x.com")]. *)
Definition loaded : Store := load [ann] initial.
Definition edited : Store := apply_edit loaded (0, "email", VStr "new@x.com").
Definition restored : Store := apply_edit edited (0, "email", VStr "old@x.com").

(** A table whose only row has no identifier, edited. *)
Definition unsaved : Store :=
  apply_edit (load [anonymous] initial) (0, "email", VStr "new@x.com").


(** [ann] as the table sends it back in a bulk update once it carries a
    creation time, and her document with that time. *)
Definition ann_created : record :=
  <["createdAt" := VStr "2020-01-01T00:00:00.000Z"]> ann.
Definition ann_created_doc : record :=
  <["createdAt" := VDate {| toISOString := "2020-01-01T00:00:00.000Z";
                            Date_toString := "Wed Jan 01 2020 00:00:00 GMT+0000 (Coordinated Universal Time)" |}]>
    ann_doc.

(** An update entry whose identifier is not an ObjectId. *)
Definition malformed : record :=
  <["_id" := VStr "123"]> (<["email" := VStr "new@x.com"]> ∅).

(** What PapaParse hands over for a file of 101 short rows: one chunk. *)
Definition one_chunk_101 : list FileParser.PapaEvent :=
  [FileParser.PapaChunk
     {| FileParser.results_data := replicate 101 anonymous;
        FileParser.results_meta_fields := Some ["email"];
        FileParser.results_errors := [] |};
   FileParser.PapaComplete].

(** The two chunks of one row each of the parser's test. *)
Definition two_chunks : list FileParser.PapaEvent :=
  [FileParser.PapaChunk
     {| FileParser.results_data := [anonymous];
        FileParser.results_meta_fields := Some ["email"];
        FileParser.results_errors := [] |};
   FileParser.PapaChunk
     {| FileParser.results_data := [anonymous];
        FileParser.results_meta_fields := Some ["email"];
        FileParser.results_errors := [] |};
   FileParser.PapaComplete].

(** What PapaParse hands over for a file whose header row is
    [firstName,,email]. *)
Definition blank_header : FileParser.PapaResults :=
  {| FileParser.results_data :=
       [<["firstName" := VStr "Ann"]> (<["" := VStr "x"]>
          (<["email" := VStr "old@x.com"]> ∅))];
     FileParser.results_meta_fields := Some ["firstName"; ""; "email"];
     FileParser.results_errors := [] |}.

(** A header row of a sheet with an empty text in column 2. *)
Definition header_row : list FileParser.Cell :=
  [{| FileParser.colNumber := 1; FileParser.cell_value := VStr "firstName" |};
   {| FileParser.colNumber := 2; FileParser.cell_value := VStr "" |};
   {| FileParser.colNumber := 3; FileParser.cell_value := VStr "email" |}].

(** A driver whose [insertMany] appends the documents. *)
Definition insert_all (documents : list record) (db : Collection)
  : Exn (nat * Collection) :=
  Ok (length documents, db ++ documents).

(** A stand-in for GET /api/patients: every document, as JSON. *)
Definition serve_all (db : Collection) : option (list record) :=
  Some (Patient.patientToJSON <$> db).

End Scenario.

(** ** Batch cadence and header naming, as the specification words them *)
Module Cadence.
Import FileParser.

(** The sizes of the batches a parse emitted, in order. *)
Definition batch_sizes (cbs : list Callback) : list nat :=
  omap (λ cb, match cb with
              | OnChunk r => Some (length (chunk_data r))
              | _ => None
              end) cbs.

(** The rows of the batches a parse emitted, in order. *)
Definition batch_rows (cbs : list Callback) : list record :=
  mjoin (omap (λ cb, match cb with
                     | OnChunk r => Some (chunk_data r)
                     | _ => None
                     end) cbs).

(** The [totalRows] a parse reported on completion. *)
Definition reported_total (cbs : list Callback) : option nat :=
  match last cbs with
  | Some (OnComplete r) => Some (totalRows r)
  | _ => None
  end.

(** "Batches of exactly [B] rows, except the final batch which may be
    shorter": every batch but the last has [B] rows, the last has at least
    one and at most [B]. *)
Fixpoint cadence (B : nat) (sizes : list nat) : Prop :=
  match sizes with
  | [] => True
  | [n] => 0 < n ≤ B
  | n :: sizes' => n = B ∧ cadence B sizes'
  end.

(** The data rows of a worksheet as records under its headers, in sheet
    order. *)
Definition excel_rows (worksheet : Worksheet) : list record :=
  let headers := (read_headers (getRow1 worksheet)).1 in
  row_record headers <$> filter (λ r, rowNumber r ≠ 1) worksheet.

(** The chunks PapaParse delivers before it completes or fails. *)
Fixpoint papa_chunks (events : list PapaEvent) : list PapaResults :=
  match events with
  | PapaChunk results :: events' => results :: papa_chunks events'
  | _ => []
  end.

(** The invariant of the row loop of [parseExcelFile] after the rows
    [processed]. *)
Record excel_loop (headers allFields : list string) (processed : list Row)
  (st : ExcelState) : Prop := {
  loop_chunk : length (currentChunk st) < CHUNK_SIZE;
  loop_sizes : Forall (λ n, n = CHUNK_SIZE) (batch_sizes (calls st));
  loop_rows :
    batch_rows (calls st) ++ currentChunk st
    = row_record headers <$> filter (λ r, rowNumber r ≠ 1) processed;
  loop_total :
    x_totalRows st = length (batch_rows (calls st) ++ currentChunk st);
  loop_allData : allData st = batch_rows (calls st);
  loop_sum : sum_list (batch_sizes (calls st)) = length (batch_rows (calls st));
  loop_calls :
    Forall (λ cb, ∃ r, cb = OnChunk r ∧ chunk_fields r = allFields) (calls st)
}.

(** "A missing/empty header cell for column index [i] is synthesized as
    [Column{i+1}]; non-empty cells are used verbatim": [names] are the
    field names given to the header cells [header]. *)
Definition synthesized (header names : list string) : Prop :=
  length names = length header ∧
  ∀ i cell, header !! i = Some cell →
    names !! i = Some (if String.eqb cell "" then "Column" +:+ pretty (S i)
                       else cell).

End Cadence.

(** ** JS string methods on ASCII text

    Strings are sequences of bytes here; the methods below agree with
    JavaScript on text that is ASCII. *)
Module Text.

Definition code (c : ascii) : nat := nat_of_ascii c.

(** [/[A-Z]/] *)
Definition is_upper (c : ascii) : bool :=
  (65 <=? code c)%nat && (code c <=? 90)%nat.

Definition is_lower (c : ascii) : bool :=
  (97 <=? code c)%nat && (code c <=? 122)%nat.

Definition upper_char (c : ascii) : ascii :=
  if is_lower c then ascii_of_nat (code c - 32) else c.

Definition lower_char (c : ascii) : ascii :=
  if is_upper c then ascii_of_nat (code c + 32) else c.

(** [/\s/] on ASCII: tab, line feed, vertical tab, form feed, carriage
    return and space. *)
Definition is_space (c : ascii) : bool :=
  ((9 <=? code c)%nat && (code c <=? 13)%nat) || (code c =? 32)%nat.

(** [/[\s_]/] *)
Definition is_separator (c : ascii) : bool :=
  is_space c || (code c =? 95)%nat.

Definition is_ascii (c : ascii) : bool := (code c <? 128)%nat.

(** [s.toLowerCase()] *)
Definition toLowerCase (s : string) : string :=
  Patient.string_map lower_char s.

(** [s.replace(/([A-Z])/g, ' $1')] *)
Fixpoint space_capitals (s : string) : string :=
  match s with
  | EmptyString => EmptyString
  | String c s' =>
      if is_upper c then String " " (String c (space_capitals s'))
      else String c (space_capitals s')
  end.

(** [s.split(/[\s_]+/)]: the pieces between the maximal runs of
    separators; [skipping] says that the text before [s] ended in a
    separator. *)
Fixpoint split_at (skipping : bool) (s : string) : list string :=
  match s with
  | EmptyString => [EmptyString]
  | String c s' =>
      if is_separator c
      then if skipping then split_at true s'
           else EmptyString :: split_at true s'
      else
        match split_at false s' with
        | word :: words => String c word :: words
        | [] => [String c EmptyString]
        end
  end.

Definition split_separators (s : string) : list string := split_at false s.

(** [word.charAt(0).toUpperCase() + word.slice(1).toLowerCase()] *)
Definition capitalize (word : string) : string :=
  match word with
  | EmptyString => EmptyString
  | String c rest => String (upper_char c) (toLowerCase rest)
  end.

(** [words.join(' ')] *)
Fixpoint join_spaces (words : list string) : string :=
  match words with
  | [] => EmptyString
  | [word] => word
  | word :: words' => word +:+ String " " (join_spaces words')
  end.

Fixpoint string_filter (p : ascii → bool) (s : string) : string :=
  match s with
  | EmptyString => EmptyString
  | String c s' =>
      if p c then String c (string_filter p s') else string_filter p s'
  end.

(** The letters of a text: what is left of it without separators and
    without the difference between upper and lower case. *)
Definition letters (s : string) : string :=
  toLowerCase (string_filter (λ c, negb (is_separator c)) s).

(** What a character of a header may be: a space, or no separator at
    all. *)
Definition header_char (c : ascii) : bool :=
  negb (is_separator c) || (code c =? 32)%nat.

End Text.

(** ** pages/index.tsx: the page that relays batches and holds the columns *)
Module Home.
Import PatientTable.

(** The state of the page. *)
Record State := {
  patientData : list record;
  columns : list string;
  isLoading : bool;
  isUploading : bool
}.

(** The [useState] defaults. *)
Definition initial : State :=
  {| patientData := []; columns := []; isLoading := false;
     isUploading := false |}.

(** [new Set([...xs])] *)
Definition new_Set (xs : list string) : list string :=
  foldl (λ s x, Set_add x s) [] xs.

(** The updater of [setColumns] in [handleDataChunk]. *)
Definition mergeColumns (prevColumns fields : list string) : list string :=
  foldl (λ newColumns field,
           if negb (reserved field) then Set_add field newColumns
           else newColumns)
        (new_Set prevColumns) fields.

Section Keys.

(** [Object.keys(x)]: the keys of an object in its own order, which the
    record model does not keep. *)
Variable keys : record → list string.

(** The loop over [data.data] in [fetchPatients], and the same loop over
    [data] in the table's [tableColumns]. *)
Definition extractColumns (data : list record) : list string :=
  foldl (λ allColumns patient,
           foldl (λ allColumns key,
                    if negb (reserved key) then Set_add key allColumns
                    else allColumns)
                 allColumns (keys patient))
        [] data.

(** What [fetch('/api/patients')] gives: it throws, or there is a response
    with its [ok] flag and the [data] property of its JSON, if any. *)
Inductive Fetched :=
| FetchThrows
| FetchResponse (ok : bool) (data : option (list record)).

(** [const fetchPatients = useCallback(async () => { ... })] *)
Definition fetchPatients (response : Fetched) (st : State)
  : State * option Toast :=
  match response with
  | FetchResponse true data =>
      let allColumns :=
        match data with
        | Some rows => if (0 <? length rows)%nat then extractColumns rows else []
        | None => []
        end in
      ({| patientData := default [] data; columns := allColumns;
          isLoading := false; isUploading := isUploading st |}, None)
  | _ =>
      ({| patientData := patientData st; columns := columns st;
          isLoading := false; isUploading := isUploading st |},
       Some (ToastError "Failed to fetch patients"))
  end.

End Keys.

(** What relaying a batch leaves behind: the page, the collection, the
    bodies posted to /api/patients/upload with the answers, and the
    documents handed to [insertMany]. *)
Record Relayed := {
  home_after : State;
  collection_after : Collection;
  posted : list (list record * Response);
  inserted : UploadApi.InsertLog;
  relay_toast : option Toast
}.

Section Relay.

Variable insertMany : list record → Collection → Exn (nat * Collection).

(** [const sendChunkToApi = async (patients) => { ... }], run against the
    server holding [db]. *)
Definition sendChunkToApi (patients : list record) (now : JSDate)
  (db : Collection)
  : Collection * (list record * Response) * UploadApi.InsertLog * option Toast :=
  let body := json_roundtrip <$> patients in
  let '(response, db', log) :=
    UploadApi.handler insertMany "POST" (UploadApi.BodyWith (JArray body))
      now db in
  (db', (body, response), log,
   if negb (ok response) then Some (ToastError "Error uploading data chunk")
   else None).

(** [const handleDataChunk = useCallback((chunk) => { ... })] *)
Definition handleDataChunk (chunk : FileParser.ChunkResult) (now : JSDate)
  (st : State) (db : Collection) : Relayed :=
  let newColumns :=
    if (0 <? length (FileParser.chunk_fields chunk))%nat
    then mergeColumns (columns st) (FileParser.chunk_fields chunk)
    else columns st in
  let st' :=
    {| patientData := patientData st; columns := newColumns;
       isLoading := isLoading st; isUploading := true |} in
  if (0 <? length (FileParser.chunk_data chunk))%nat
  then
    let '(db', post, log, t) :=
      sendChunkToApi (FileParser.chunk_data chunk) now db in
    {| home_after := st'; collection_after := db'; posted := [post];
       inserted := log; relay_toast := t |}
  else
    {| home_after := st'; collection_after := db; posted := [];
       inserted := []; relay_toast := None |}.

End Relay.

End Home.

(** ** components/PatientTable.tsx: the column definitions *)
Module Columns.

(** The header of a data column: split at capitals, underscores and
    spaces, each word capitalised, joined by single spaces. *)
Definition formatHeader (column : string) : string :=
  Text.join_spaces
    (Text.capitalize <$> Text.split_separators (Text.space_capitals column)).

(** A column definition: the selection column, or a data column with its
    [accessorKey] and [header]. *)
Inductive ColumnDef :=
| SelectColumn
| DataColumn (accessorKey header : string).

(** [const tableColumns = useMemo(() => { ... })] *)
Definition tableColumns (keys : record → list string) (data : list record)
  (columns : list string) : list ColumnDef :=
  let columns :=
    if (length columns =? 0)%nat
    then if (0 <? length data)%nat
         then Some (Home.extractColumns keys data)
         else None
    else Some columns in
  match columns with
  | None => []
  | Some columns =>
      SelectColumn
      :: ((λ column, DataColumn column (formatHeader column)) <$> columns)
  end.

(** The [accessorKey]s of the data columns. *)
Definition accessorKeys (defs : list ColumnDef) : list string :=
  omap (λ def, match def with
               | DataColumn key _ => Some key
               | SelectColumn => None
               end) defs.

End Columns.

(** ** components/PatientTable.tsx: what an editable cell shows *)
Module Cells.



End Cells.

(** ** Identifiers in a collection *)
Module Ids.

(** The [_id] of a record is a non-empty string that is no ObjectId. *)
Definition has_malformed_id (p : record) : bool :=
  match p !! "_id" with
  | Some (VStr s) => negb (String.eqb s "") && negb (Patient.validObjectId s)
  | _ => false
  end.

(** What [preparePatient] makes of the [_id]: a non-empty string becomes
    the ObjectId it spells, anything else stays. *)
Definition prepared_id (p : record) : option value :=
  match p !! "_id" with
  | Some (VStr s) =>
      if String.eqb s "" then Some (VStr s)
      else Some (VOid (Patient.string_map Patient.lower_hex_digit s))
  | v => v
  end.

(** What [patientToJSON] makes of a time stamp: the ISO text of a Date,
    anything else as it is. *)
Definition date_as_text (v : option value) : option value :=
  match v with
  | Some (VDate d) => Some (VStr (toISOString d))
  | _ => v
  end.

(** A document as the boundary stamps it: [updatedAt] is the server's
    time, [createdAt] is the patient's own when it has one and the server's
    time otherwise, and every other field but [_id] is the patient's. *)
Definition stamped (now : JSDate) (patient doc : record) : Prop :=
  doc !! "_id" = prepared_id patient ∧
  doc !! "updatedAt" = Some (VDate now) ∧
  doc !! "createdAt" =
    (if truthy (patient !! "createdAt") then patient !! "createdAt"
     else Some (VDate now)) ∧
  truthy (doc !! "createdAt") = true ∧
  (∀ field, field ∉ ["_id"; "createdAt"; "updatedAt"] →
     doc !! field = patient !! field).

(** The [_id] of every document, in order. *)
Definition ids (db : Collection) : list (option value) :=
  (λ d, d !! "_id") <$> db.

(** The update a bulk write applies to a document: every operation whose
    filter matches it sets its fields, in order. *)
Definition apply_ops (ops : list UpdateOneOp) (d : record) : record :=
  foldl (λ d op, if matches_id (filter_id op) d then update_set op ∪ d else d)
        d ops.

End Ids.
Export Ids.

(** ** Concrete columns and pages *)
Module Examples.

(** A chunk of two decoded records, and an empty chunk. *)
Definition chunk_two : FileParser.ChunkResult :=
  {| FileParser.chunk_data := [Scenario.anonymous; Scenario.anonymous];
     FileParser.chunk_fields := ["email"];
     FileParser.chunk_errors := [] |}.

Definition chunk_empty : FileParser.ChunkResult :=
  {| FileParser.chunk_data := [];
     FileParser.chunk_fields := ["email"];
     FileParser.chunk_errors := [] |}.

(** A stand-in for [Object.keys]: the keys in the order of the record
    model. *)
Definition keys_of (r : record) : list string := (map_to_list r).*1.

End Examples.

(** * Properties *)

Import PatientTable Reconciliation.

(** ** JSON round trips *)
Section JsonFacts.

Lemma json_value_idemp v : json_value (json_value v) = json_value v.
Proof. by destruct v. Qed.

Lemma json_roundtrip_idemp r :
  json_roundtrip (json_roundtrip r) = json_roundtrip r.
Proof.
  unfold json_roundtrip. rewrite <- map_fmap_compose.
  apply map_fmap_ext. intros k v _. apply json_value_idemp.
Qed.

Lemma json_pure_roundtrip r : json_pure (json_roundtrip r).
Proof. apply json_roundtrip_idemp. Qed.

Lemma json_pure_insert r k v :
  json_pure r → json_value v = v → json_pure (<[k := v]> r).
Proof.
  unfold json_pure, json_roundtrip. intros Hr Hv.
  rewrite fmap_insert. congruence.
Qed.

Lemma json_pure_empty : json_pure ∅.
Proof. unfold json_pure, json_roundtrip. apply fmap_empty. Qed.

Lemma roundtrip_pure_list (rs : list record) :
  Forall json_pure rs → json_roundtrip <$> rs = rs.
Proof.
  induction 1 as [|r rs Hr _ IH]; [done|].
  rewrite fmap_cons. by rewrite Hr, IH.
Qed.

Lemma roundtrip_list_pure (rs : list record) :
  Forall json_pure (json_roundtrip <$> rs).
Proof.
  induction rs as [|r rs IH]; constructor; [apply json_pure_roundtrip | done].
Qed.

End JsonFacts.

(** ** The heap *)
Section HeapFacts.

Implicit Types (h : Heap) (ls : list loc) (rs : list record).

Lemma read_app_l h h' l : l < length h → read (h ++ h') l = read h l.
Proof. intros Hl. unfold read. by rewrite lookup_app_l. Qed.

Lemma rows_app_l h h' ls :
  Forall (λ l, l < length h) ls → rows (h ++ h') ls = rows h ls.
Proof.
  unfold rows. induction 1 as [|l ls Hl _ IH]; [done|].
  rewrite !fmap_cons. by rewrite IH, read_app_l.
Qed.

Lemma rows_fresh h rs : rows (h ++ rs) (seq (length h) (length rs)) = rs.
Proof.
  unfold rows. apply list_eq. intros i.
  rewrite list_lookup_fmap.
  destruct (decide (i < length rs)) as [Hi|Hi].
  - rewrite lookup_seq_lt by done. simpl. unfold read.
    rewrite lookup_app_r by lia.
    replace (length h + i - length h) with i by lia.
    destruct (lookup_lt_is_Some_2 rs i Hi) as [r Hr]. by rewrite Hr.
  - rewrite lookup_seq_ge by lia. simpl.
    symmetry. apply lookup_ge_None. lia.
Qed.

Lemma rows_length h ls : length (rows h ls) = length ls.
Proof. unfold rows. by rewrite length_fmap. Qed.

Lemma rows_copy h h' ls :
  rows (h' ++ rows h ls) (seq (length h') (length ls)) = rows h ls.
Proof. rewrite <- (rows_length h ls). apply rows_fresh. Qed.

Lemma read_insert_eq h l r : l < length h → read (<[l := r]> h) l = r.
Proof. intros Hl. unfold read. by rewrite list_lookup_insert_eq. Qed.

Lemma read_insert_ne h l l' r : l ≠ l' → read (<[l := r]> h) l' = read h l'.
Proof. intros Hl. unfold read. by rewrite list_lookup_insert_ne. Qed.

Lemma rows_insert_notin h l r ls :
  l ∉ ls → rows (<[l := r]> h) ls = rows h ls.
Proof.
  unfold rows. induction ls as [|l' ls IH]; [done|].
  intros Hl. rewrite !fmap_cons.
  rewrite read_insert_ne by set_solver. rewrite IH by set_solver. done.
Qed.

Lemma rows_lookup h ls i l :
  ls !! i = Some l → rows h ls !! i = Some (read h l).
Proof. intros Hl. unfold rows. by rewrite list_lookup_fmap, Hl. Qed.

Lemma seq_bound (a n : nat) m :
  a + n ≤ m → Forall (λ l, l < m) (seq a n).
Proof.
  intros Hm. apply Forall_forall. intros l Hl%elem_of_seq. lia.
Qed.

End HeapFacts.

(** ** The invariant of the store *)
Section StoreInvariant.

Implicit Types (s : Store) (h : Heap) (rs : list record).

Lemma load_fresh served s :
  load served s = fresh_table (heap s) (json_roundtrip <$> served) [].
Proof.
  unfold load, load_effect, deep_copy, alloc_all, fresh_table. simpl.
  rewrite rows_fresh.
  by rewrite (roundtrip_pure_list _ (roundtrip_list_pure served)).
Qed.

Lemma fresh_table_rows h rs sel :
  let s := fresh_table h rs sel in
  rows (heap s) (tableData s) = rs ∧ rows (heap s) (originalData s) = rs.
Proof.
  simpl. split.
  - rewrite rows_app_l by (apply seq_bound; rewrite length_app; lia).
    apply rows_fresh.
  - apply rows_fresh.
Qed.

Lemma fresh_table_wf h rs sel :
  Forall json_pure rs → wf (fresh_table h rs sel).
Proof.
  intros Hpure.
  destruct (fresh_table_rows h rs sel) as [Ht Ho].
  split; split; simpl in *.
  - apply NoDup_seq.
  - apply seq_bound. rewrite !length_app. lia.
  - apply seq_bound. rewrite !length_app. lia.
  - intros l Hl%elem_of_seq Hl'%elem_of_seq.
    rewrite length_app in Hl'. lia.
  - by rewrite Ho.
  - by rewrite !length_seq.
  - constructor.
  - intros i _. by rewrite Ht, Ho.
  - by rewrite Ht.
Qed.

Lemma wf_initial : wf initial.
Proof.
  split; split; simpl; try by constructor.
  - intros l Hl. by apply elem_of_nil in Hl.
Qed.

Lemma wf_load served s : wf (load served s).
Proof. rewrite load_fresh. apply fresh_table_wf, roundtrip_list_pure. Qed.

(** An edit writes one row object of the working copy. *)
Lemma updateData_Ok rowIndex columnId v s s' :
  updateData rowIndex columnId v s = Ok s' →
  ∃ l, tableData s !! rowIndex = Some l ∧
    s' = {| heap := <[l := <[columnId := v]> (read (heap s) l)]> (heap s);
            tableData := tableData s;
            originalData := originalData s;
            dirtyRows := Set_add rowIndex (dirtyRows s);
            rowSelection := rowSelection s |}.
Proof.
  unfold updateData. destruct (tableData s !! rowIndex) as [l|] eqn:Hl; [|done].
  intros [= <-]. by exists l.
Qed.

Lemma elem_of_Set_add (x y : nat) (xs : list nat) :
  y ∈ Set_add x xs ↔ y = x ∨ y ∈ xs.
Proof.
  unfold Set_add. case_bool_decide as Hx.
  - split; [auto|]. by intros [->|?].
  - rewrite elem_of_app, list_elem_of_singleton. tauto.
Qed.

Lemma separated_updateData rowIndex columnId v s s' :
  separated s → updateData rowIndex columnId v s = Ok s' →
  separated s' ∧
  rows (heap s') (originalData s') = rows (heap s) (originalData s).
Proof.
  intros [Hnd Ht Ho Hdis Hpure] (l & Hl & ->)%updateData_Ok.
  assert (l ∈ tableData s) as Hin by (by eapply list_elem_of_lookup_2).
  assert (rows (<[l := <[columnId := v]> (read (heap s) l)]> (heap s))
            (originalData s) = rows (heap s) (originalData s)) as Hrows
    by (apply rows_insert_notin; auto).
  split; [split|]; simpl; try done.
  - by rewrite length_insert.
  - by rewrite length_insert.
  - by rewrite Hrows.
Qed.

Lemma wf_updateData rowIndex columnId v s s' :
  wf s → json_value v = v → updateData rowIndex columnId v s = Ok s' →
  wf s'.
Proof.
  intros [Hsep Htrk] Hv Hupd.
  destruct (separated_updateData _ _ _ _ _ Hsep Hupd) as [Hsep' Horig].
  split; [done|].
  destruct Hsep as [Hnd Ht Ho Hdis Hpure], Htrk as [Hlen Hdirty Hclean Htp].
  apply updateData_Ok in Hupd as (l & Hl & ->). simpl in *.
  assert (rowIndex < length (tableData s)) as Hlt by (by eapply lookup_lt_Some).
  assert (l < length (heap s)) as Hlh.
  { eapply Forall_forall in Ht; [done|]. by eapply list_elem_of_lookup_2. }
  split; simpl.
  - done.
  - apply Forall_forall. intros i [->|Hi]%elem_of_Set_add; [done|].
    eapply Forall_forall in Hdirty; done.
  - intros i Hi. rewrite Horig.
    assert (i ≠ rowIndex ∧ i ∉ dirtyRows s) as [Hne Hnot].
    { split; intros ?; apply Hi, elem_of_Set_add; auto. }
    rewrite <- (Hclean i Hnot).
    unfold rows. rewrite !list_lookup_fmap.
    destruct (tableData s !! i) as [l'|] eqn:Hl'; [|done]. simpl.
    f_equal. apply read_insert_ne. intros ->.
    apply Hne. by eapply NoDup_lookup.
  - apply Forall_forall. intros r Hr.
    apply list_elem_of_fmap in Hr as (l' & -> & Hl').
    destruct (decide (l = l')) as [<-|Hne].
    + rewrite read_insert_eq by done.
      apply json_pure_insert; [|done].
      eapply Forall_forall in Htp; [done|].
      apply list_elem_of_fmap. eauto.
    + rewrite read_insert_ne by done.
      eapply Forall_forall in Htp; [done|].
      apply list_elem_of_fmap. eauto.
Qed.

Lemma handleSaveChanges_store now s db :
  store_after (handleSaveChanges now s db) = s ∨
  store_after (handleSaveChanges now s db) = saved s.
Proof.
  unfold handleSaveChanges.
  destruct (mapE (modifiedRow s) (dirtyRows s)) as [modifiedRows|m]; [|by left].
  destruct (length modifiedRows =? 0); [by left|].
  destruct (PatientsApi.handler_PUT _ now db) as [response db'].
  destruct (ok response); simpl; [|by left].
  right. unfold saved, deep_copy, alloc_all.
  by rewrite length_fmap, rows_length.
Qed.

Lemma wf_saved s : wf s → wf (saved s).
Proof.
  intros [[Hnd Ht Ho Hdis Hpure] [Hlen Hdirty Hclean Htp]].
  assert (json_roundtrip <$> rows (heap s) (tableData s)
          = rows (heap s) (tableData s)) as Hrt
    by (by apply roundtrip_pure_list).
  assert (rows (heap (saved s)) (tableData s) = rows (heap s) (tableData s))
    as Htab by (simpl; by apply rows_app_l).
  assert (rows (heap (saved s)) (originalData (saved s))
          = rows (heap s) (tableData s)) as Horig.
  { simpl. rewrite Hrt. apply rows_copy. }
  split; split.
  - done.
  - simpl. eapply Forall_impl; [exact Ht|]. intros l Hl. simpl in *.
    rewrite length_app. lia.
  - simpl. apply seq_bound. rewrite length_app, length_fmap, rows_length. lia.
  - simpl. intros l Hl Hl'%elem_of_seq.
    eapply Forall_forall in Ht; [|done]. simpl in Ht. lia.
  - by rewrite Horig.
  - simpl. by rewrite length_seq.
  - constructor.
  - intros i _. change (tableData (saved s)) with (tableData s).
    by rewrite Htab, Horig.
  - change (tableData (saved s)) with (tableData s). by rewrite Htab.
Qed.

Lemma wf_handleSaveChanges now s db :
  wf s → wf (store_after (handleSaveChanges now s db)).
Proof.
  intros Hwf. destruct (handleSaveChanges_store now s db) as [->| ->];
    [done | by apply wf_saved].
Qed.

(** What a revert does to the store. *)
Lemma handleRevertChanges_store s :
  (handleRevertChanges s).1 =
  {| heap := heap s ++ (json_roundtrip <$> rows (heap s) (originalData s));
     tableData := seq (length (heap s)) (length (originalData s));
     originalData := originalData s;
     dirtyRows := [];
     rowSelection := rowSelection s |}.
Proof.
  unfold handleRevertChanges, deep_copy, alloc_all. simpl.
  by rewrite length_fmap, rows_length.
Qed.

Lemma handleRevertChanges_rows s :
  separated s →
  let s' := (handleRevertChanges s).1 in
  rows (heap s') (tableData s') = rows (heap s) (originalData s) ∧
  rows (heap s') (originalData s') = rows (heap s) (originalData s) ∧
  originalData s' = originalData s ∧
  dirtyRows s' = [].
Proof.
  intros [Hnd Ht Ho Hdis Hpure]. rewrite handleRevertChanges_store. simpl.
  rewrite (roundtrip_pure_list _ Hpure).
  split; [|split; [|done]].
  - apply rows_copy.
  - by apply rows_app_l.
Qed.

Lemma wf_handleRevertChanges s : wf s → wf (handleRevertChanges s).1.
Proof.
  intros [Hsep Htrk].
  destruct (handleRevertChanges_rows s Hsep) as (Htab & Horig & Ho' & Hd).
  destruct Hsep as [Hnd Ht Ho Hdis Hpure], Htrk as [Hlen Hdirty Hclean Htp].
  split; split.
  - rewrite handleRevertChanges_store. simpl. apply NoDup_seq.
  - rewrite handleRevertChanges_store. simpl.
    apply seq_bound. rewrite length_app, length_fmap, rows_length. lia.
  - rewrite handleRevertChanges_store. simpl.
    eapply Forall_impl; [exact Ho|]. intros l Hl. simpl in *.
    rewrite length_app. lia.
  - rewrite handleRevertChanges_store. simpl.
    intros l Hl%elem_of_seq Hl'.
    eapply Forall_forall in Ho; [|done]. simpl in Ho. lia.
  - by rewrite Horig.
  - rewrite handleRevertChanges_store. simpl. by rewrite length_seq.
  - rewrite Hd. constructor.
  - intros i _. by rewrite Htab, Horig.
  - by rewrite Htab.
Qed.

Lemma wf_setRowSelection selection s : wf s → wf (setRowSelection selection s).
Proof. by intros [[] []]. Qed.

(** What a delete does to the store: nothing, or what a fetch does. *)
Lemma handleDeleteSelected_store fetchPatients confirm now s db :
  let out := handleDeleteSelected fetchPatients confirm now s db in
  store_after out = s ∨
  store_after out = load (default [] (fetchPatients (db_after out))) s.
Proof.
  unfold handleDeleteSelected.
  destruct (length _ =? 0); [by left|].
  destruct (negb confirm); [by left|].
  destruct (deletePromises _ _ _ _) as [[promises db'] reqs].
  destruct (promises ←! promises; Promise_all promises); [|by left].
  by right.
Qed.

Lemma wf_handleDeleteSelected fetchPatients confirm now s db :
  wf s → wf (store_after (handleDeleteSelected fetchPatients confirm now s db)).
Proof.
  intros Hwf.
  destruct (handleDeleteSelected_store fetchPatients confirm now s db)
    as [->| ->]; [done | apply wf_load].
Qed.

(** Every state the table goes through satisfies the invariant. *)
Lemma reachable_wf s : reachable s → wf s.
Proof.
  induction 1; eauto using wf_initial, wf_load, wf_updateData,
    wf_handleSaveChanges, wf_handleRevertChanges, wf_setRowSelection,
    wf_handleDeleteSelected.
Qed.

End StoreInvariant.

(** ** Dirtiness, edits and revert *)
Section StoreClaims.

Implicit Types (s : Store).

Lemma tracked_clean_equal s :
  tracked s → dirtyRows s = [] →
  rows (heap s) (tableData s) = rows (heap s) (originalData s).
Proof.
  intros [Hlen Hdirty Hclean Htp] Hd. apply list_eq. intros i.
  apply Hclean. rewrite Hd. apply not_elem_of_nil.
Qed.

(** C1 (as the code has it): in every state of the table, each row outside
    the dirty set equals its row in the original snapshot, so an empty dirty
    set means that the working copy equals the snapshot; an edit always puts
    its row into the dirty set and takes no row out of it, so the converse
    does not hold. *)
Theorem clean_rows_equal_snapshot s :
  reachable s →
  (∀ i, i ∉ dirtyRows s →
     rows (heap s) (tableData s) !! i = rows (heap s) (originalData s) !! i) ∧
  (dirtyRows s = [] →
     rows (heap s) (tableData s) = rows (heap s) (originalData s)) ∧
  (∀ rowIndex columnId v s',
     updateData rowIndex columnId v s = Ok s' →
     rowIndex ∈ dirtyRows s' ∧ ∀ j, j ∈ dirtyRows s → j ∈ dirtyRows s').
Proof.
  intros [Hsep Htrk]%reachable_wf. split; [|split].
  - apply Htrk.
  - by apply tracked_clean_equal.
  - intros rowIndex columnId v s' (l & _ & ->)%updateData_Ok. simpl.
    split; [|intros j Hj]; apply elem_of_Set_add; auto.
Qed.

(** The loaded table equals its snapshot, and the edit of row 0 makes row 0
    dirty. *)
Lemma clean_rows_equal_snapshot_witness :
  rows (heap Scenario.loaded) (tableData Scenario.loaded)
  = rows (heap Scenario.loaded) (originalData Scenario.loaded)
  ∧ 0 ∈ dirtyRows Scenario.edited.
Proof.
  destruct (clean_rows_equal_snapshot Scenario.loaded
              (reach_load _ _ reach_initial)) as (_ & Hclean & Hedit).
  split.
  - apply Hclean. reflexivity.
  - destruct (Hedit 0 "email" (VStr "new@x.com") Scenario.edited eq_refl)
      as [Hin _].
    exact Hin.
Defined.

(** C1 (as stated) fails: after [edit(0, "email", "new@x.com")] and
    [edit(0, "email", "old@x.com")] on a row whose original email is
    old@x.com, the working copy equals the snapshot again and the dirty
    set is still {0}. *)
Lemma restoring_edit_stays_dirty :
  updateData 0 "email" (VStr "new@x.com") Scenario.loaded = Ok Scenario.edited
  ∧ dirtyRows Scenario.edited = [0]
  ∧ updateData 0 "email" (VStr "old@x.com") Scenario.edited = Ok Scenario.restored
  ∧ onBlur 0 "email" "old@x.com" Scenario.edited = Ok Scenario.restored
  ∧ rows (heap Scenario.restored) (tableData Scenario.restored)
    = rows (heap Scenario.restored) (originalData Scenario.restored)
  ∧ dirtyRows Scenario.restored = [0]
  ∧ ¬ (dirtyRows Scenario.restored = [] ↔
       rows (heap Scenario.restored) (tableData Scenario.restored)
       = rows (heap Scenario.restored) (originalData Scenario.restored)).
Proof.
  repeat split; try reflexivity.
  intros [_ H]. discriminate H. reflexivity.
Qed.

(** An edit of a valid row succeeds. *)
Lemma updateData_valid rowIndex columnId v s :
  rowIndex < length (tableData s) →
  ∃ s', updateData rowIndex columnId v s = Ok s'.
Proof.
  intros [l Hl]%lookup_lt_is_Some_2. unfold updateData. rewrite Hl. eauto.
Qed.

(** C9: on a valid row index an edit succeeds and changes only the edited
    field of the edited row of the working copy: the number of rows, every
    other row, every other field of the edited row and the original
    snapshot stay as they were. *)
Theorem edit_changes_one_field s rowIndex columnId v :
  reachable s → rowIndex < length (tableData s) →
  ∃ s' r r',
    updateData rowIndex columnId v s = Ok s' ∧
    length (tableData s') = length (tableData s) ∧
    (∀ j, j ≠ rowIndex →
       rows (heap s') (tableData s') !! j = rows (heap s) (tableData s) !! j) ∧
    rows (heap s) (tableData s) !! rowIndex = Some r ∧
    rows (heap s') (tableData s') !! rowIndex = Some r' ∧
    r' !! columnId = Some v ∧
    (∀ field, field ≠ columnId → r' !! field = r !! field) ∧
    originalData s' = originalData s ∧
    rows (heap s') (originalData s') = rows (heap s) (originalData s).
Proof.
  intros [Hsep Htrk]%reachable_wf Hvalid.
  destruct (updateData_valid rowIndex columnId v s Hvalid) as [s' Hupd].
  destruct (separated_updateData _ _ _ _ _ Hsep Hupd) as [_ Horig].
  destruct Hsep as [Hnd Ht Ho Hdis Hpure].
  pose proof Hupd as (l & Hl & Hs')%updateData_Ok.
  assert (l < length (heap s)) as Hlh.
  { eapply Forall_forall in Ht; [done|]. by eapply list_elem_of_lookup_2. }
  exists s', (read (heap s) l), (<[columnId := v]> (read (heap s) l)).
  split; [done|]. subst s'. simpl in *.
  split; [done|]. split; [|split; [|split; [|split; [|split; [|split]]]]].
  - intros j Hj. unfold rows. rewrite !list_lookup_fmap.
    destruct (tableData s !! j) as [l'|] eqn:Hl'; [|done]. simpl.
    f_equal. apply read_insert_ne. intros ->.
    apply Hj. by eapply NoDup_lookup.
  - by apply rows_lookup.
  - erewrite rows_lookup by done. by rewrite read_insert_eq.
  - apply lookup_insert_eq.
  - intros field Hfield. by apply lookup_insert_ne.
  - done.
  - done.
Qed.

(** The edit of the email of row 0 of the loaded table. *)
Lemma edit_changes_one_field_witness :
  ∃ s' r r',
    updateData 0 "email" (VStr "new@x.com") Scenario.loaded = Ok s' ∧
    length (tableData s') = length (tableData Scenario.loaded) ∧
    (∀ j, j ≠ 0 →
       rows (heap s') (tableData s') !! j
       = rows (heap Scenario.loaded) (tableData Scenario.loaded) !! j) ∧
    rows (heap Scenario.loaded) (tableData Scenario.loaded) !! 0 = Some r ∧
    rows (heap s') (tableData s') !! 0 = Some r' ∧
    r' !! "email" = Some (VStr "new@x.com") ∧
    (∀ field, field ≠ "email" → r' !! field = r !! field) ∧
    originalData s' = originalData Scenario.loaded ∧
    rows (heap s') (originalData s')
    = rows (heap Scenario.loaded) (originalData Scenario.loaded).
Proof.
  apply (edit_changes_one_field Scenario.loaded 0 "email" (VStr "new@x.com")).
  - apply reach_load, reach_initial.
  - simpl. lia.
Defined.

(** Edits leave the snapshot alone, whatever their values. *)
Lemma run_edits_separated es s :
  separated s →
  separated (run_edits es s) ∧
  originalData (run_edits es s) = originalData s ∧
  rows (heap (run_edits es s)) (originalData (run_edits es s))
  = rows (heap s) (originalData s).
Proof.
  revert s. induction es as [|[[i f] v] es IH]; intros s Hsep; [done|].
  change (run_edits (_ :: es) s) with (run_edits es (apply_edit s (i, f, v))).
  assert (separated (apply_edit s (i, f, v)) ∧
          originalData (apply_edit s (i, f, v)) = originalData s ∧
          rows (heap (apply_edit s (i, f, v)))
               (originalData (apply_edit s (i, f, v)))
          = rows (heap s) (originalData s)) as (H1 & H2 & H3).
  { unfold apply_edit.
    destruct (updateData i f v s) as [s'|m] eqn:Hupd; [|done].
    destruct (separated_updateData _ _ _ _ _ Hsep Hupd) as [Hsep' Horig].
    split; [done|]. split; [|done].
    by apply updateData_Ok in Hupd as (l & _ & ->). }
  destruct (IH _ H1) as (H4 & H5 & H6).
  split; [done|]. split; [congruence|]. by rewrite H6.
Qed.

(** C4: after any sequence of edits, a revert makes the working copy equal
    to the original snapshot as the last load, save or refetch left it,
    leaves that snapshot as it is and empties the dirty set; it cannot
    fail, and on a clean table it leaves the rows as they are. *)
Theorem revert_restores_snapshot s es :
  reachable s →
  let s' := run_edits es s in
  let reverted := (handleRevertChanges s').1 in
  rows (heap reverted) (tableData reverted) = rows (heap s) (originalData s) ∧
  rows (heap reverted) (originalData reverted) = rows (heap s) (originalData s) ∧
  dirtyRows reverted = [] ∧
  (handleRevertChanges s').2 = ToastSuccess "Changes reverted" ∧
  (dirtyRows s = [] →
   rows (heap (handleRevertChanges s).1) (tableData (handleRevertChanges s).1)
   = rows (heap s) (tableData s)).
Proof.
  intros [Hsep Htrk]%reachable_wf s' reverted.
  destruct (run_edits_separated es s Hsep) as (Hsep' & Ho & Hrows).
  destruct (handleRevertChanges_rows s' Hsep') as (Htab & Horig & _ & Hd).
  fold reverted in Htab, Horig, Hd.
  split; [by rewrite Htab|]. split; [by rewrite Horig|].
  split; [done|]. split; [done|].
  intros Hclean.
  destruct (handleRevertChanges_rows s Hsep) as (Htab0 & _).
  rewrite Htab0. symmetry. by apply tracked_clean_equal.
Qed.

(** Reverting the loaded table after two edits. *)
Lemma revert_restores_snapshot_witness :
  rows (heap (handleRevertChanges Scenario.restored).1)
       (tableData (handleRevertChanges Scenario.restored).1)
  = rows (heap Scenario.loaded) (originalData Scenario.loaded)
  ∧ dirtyRows (handleRevertChanges Scenario.restored).1 = [].
Proof.
  destruct (revert_restores_snapshot Scenario.loaded
              [(0, "email", VStr "new@x.com"); (0, "email", VStr "old@x.com")]
              (reach_load _ _ reach_initial)) as (H1 & _ & H3 & _).
  split; [exact H1 | exact H3].
Defined.

End StoreClaims.

(** ** Save and delete *)
Section SaveDelete.

Implicit Types (s : Store) (db : Collection).

Lemma mapE_modifiedRow_missing s (indices : list nat) i l :
  Forall (λ j, j < length (tableData s)) indices →
  i ∈ indices →
  tableData s !! i = Some l →
  truthy (read (heap s) l !! "_id") = false →
  mapE (modifiedRow s) indices = Throw "Cannot update row without _id".
Proof.
  intros Hvalid Hin Hl Hid.
  induction Hvalid as [|j indices Hj _ IH]; [by apply elem_of_nil in Hin|].
  simpl. unfold modifiedRow at 1.
  destruct (lookup_lt_is_Some_2 _ _ Hj) as [l' Hl']. rewrite Hl'.
  destruct (truthy (read (heap s) l' !! "_id")) eqn:Hid'; simpl; [|done].
  apply elem_of_cons in Hin as [->|Hin]; [congruence|].
  by rewrite IH.
Qed.

(** C3: when some dirty row carries no identifier, a save fails with the
    missing-identifier error ('Cannot update row without _id') before any
    request is sent, so nothing is updated at the boundary, and the store
    (working copy, snapshot and dirty set) is left as it was. *)
Theorem save_without_identifier_fails now s db rowIndex l :
  reachable s →
  rowIndex ∈ dirtyRows s →
  tableData s !! rowIndex = Some l →
  truthy (read (heap s) l !! "_id") = false →
  handleSaveChanges now s db =
  {| store_after := s; db_after := db; requests := [];
     toast := Some (ToastError "Cannot update row without _id") |}.
Proof.
  intros [_ Htrk]%reachable_wf Hin Hl Hid.
  unfold handleSaveChanges.
  by rewrite (mapE_modifiedRow_missing s _ rowIndex l (trk_dirty s Htrk) Hin Hl Hid).
Qed.

(** Saving the edited row that has no identifier. *)
Lemma save_without_identifier_fails_witness :
  handleSaveChanges Scenario.now Scenario.unsaved [Scenario.ann_doc] =
  {| store_after := Scenario.unsaved; db_after := [Scenario.ann_doc];
     requests := [];
     toast := Some (ToastError "Cannot update row without _id") |}.
Proof.
  apply (save_without_identifier_fails Scenario.now Scenario.unsaved
           [Scenario.ann_doc] 0 0).
  - apply (reach_edit (load [Scenario.anonymous] initial) 0 "email"
             (VStr "new@x.com"));
      [apply reach_load, reach_initial | reflexivity | reflexivity].
  - vm_compute. apply list_elem_of_here.
  - reflexivity.
  - reflexivity.
Defined.



(** The answer to one DELETE request depends on its identifier alone: 400
    when it is malformed, 404 when no document has it, and otherwise 200
    with the first document that has it removed. *)
Lemma handler_DELETE_outcome now id db :
  id ≠ "" →
  PatientIdApi.handler "DELETE" (QString id) None now db =
  match Patient.toObjectId id with
  | Throw _ => (PatientIdApi.invalid_format, db)
  | Ok oid =>
      if existsb (matches_id oid) db
      then ({| status := 200; json := SuccessBody |},
            remove_first (matches_id oid) db)
      else (PatientIdApi.not_found, db)
  end.
Proof.
  intros Hid%String.eqb_neq. unfold PatientIdApi.handler. rewrite Hid.
  cbn [String.eqb Ascii.eqb Bool.eqb]. unfold PatientIdApi.handler_DELETE.
  destruct (Patient.toObjectId id) as [oid|]; [|done].
  cbn [bind]. unfold deleteOne. by destruct (existsb (matches_id oid) db).
Qed.





End SaveDelete.

(** ** The persistence boundary *)
Section Boundary.

Implicit Types (patient prepared : record) (db : Collection).

Lemma preparePatient_fields now patient prepared :
  Patient.preparePatient now patient = Ok prepared →
  prepared !! "updatedAt" = Some (VDate now) ∧
  prepared !! "createdAt" =
    (if truthy (patient !! "createdAt") then patient !! "createdAt"
     else Some (VDate now)) ∧
  (∀ field, field ∉ ["_id"; "createdAt"; "updatedAt"] →
     prepared !! field = patient !! field).
Proof.
  unfold Patient.preparePatient. intros Hprep.
  assert (∃ p1, (∀ field, field ≠ "_id" → p1 !! field = patient !! field) ∧
            prepared = <["updatedAt" := VDate now]>
              (if negb (truthy (p1 !! "createdAt"))
               then <["createdAt" := VDate now]> p1 else p1)) as (p1 & Hp1 & ->).
  { destruct (patient !! "_id") as [[| | |id| |]|] eqn:Hid;
      try (injection Hprep as <-; by exists patient).
    simpl in Hprep.
    destruct (negb (id =? "")%string);
      [|injection Hprep as <-; by exists patient].
    destruct (Patient.toObjectId id) as [oid|]; [|done].
    injection Hprep as <-. exists (<["_id" := oid]> patient).
    split; [|done]. intros field Hfield. by rewrite lookup_insert_ne. }
  rewrite (Hp1 "createdAt") by done.
  split; [apply lookup_insert_eq|]. split.
  - rewrite lookup_insert_ne by done.
    destruct (truthy (patient !! "createdAt")) eqn:Hc; simpl.
    + by apply Hp1.
    + apply lookup_insert_eq.
  - intros field Hfield.
    rewrite lookup_insert_ne by set_solver.
    destruct (negb (truthy (patient !! "createdAt"))).
    + rewrite lookup_insert_ne by set_solver. apply Hp1. set_solver.
    + apply Hp1. set_solver.
Qed.

Lemma updateOperation_Ok now patient op :
  PatientsApi.updateOperation now patient = Ok op →
  entry_operation now patient op.
Proof.
  unfold PatientsApi.updateOperation.
  destruct (truthy (patient !! "_id")) eqn:Hid; [|done]. simpl.
  intros Hop.
  assert (∃ oid prepared,
            match patient !! "_id" with
            | Some (VStr id) => Patient.toObjectId id = Ok oid
            | Some v => oid = v
            | None => False
            end ∧
            Patient.preparePatient now patient = Ok prepared ∧
            op = {| filter_id := oid; update_set := delete "_id" prepared;
                    upsert := false |}) as (oid & prepared & Hoid & Hprep & ->).
  { destruct (patient !! "_id") as [v|]; [|done].
    destruct v as [| | |id| |];
      try (simpl in Hop;
           destruct (Patient.preparePatient now patient) as [prepared|];
           [|done]; injection Hop as <-; eauto).
    destruct (Patient.toObjectId id) as [oid|]; [|done]. simpl in Hop.
    destruct (Patient.preparePatient now patient) as [prepared|]; [|done].
    injection Hop as <-. eauto. }
  destruct (preparePatient_fields _ _ _ Hprep) as (Hu & Hc & Hother).
  split; [done|]. split; [done|]. simpl.
  split; [apply lookup_delete_eq|].
  split; [by rewrite lookup_delete_ne|].
  split; [by rewrite lookup_delete_ne|].
  intros field Hfield. rewrite lookup_delete_ne by set_solver. by apply Hother.
Qed.

Lemma mapE_Forall2 {A B} (f : A → Exn B) (P : A → B → Prop) xs ys :
  (∀ x y, f x = Ok y → P x y) →
  mapE f xs = Ok ys → Forall2 P xs ys.
Proof.
  intros Hf. revert ys. induction xs as [|x xs IH]; intros ys; simpl.
  - intros [= <-]. constructor.
  - destruct (f x) as [y|] eqn:Hy; [|done]. simpl.
    destruct (mapE f xs) as [ys'|]; [|done]. simpl.
    intros [= <-]. constructor; auto.
Qed.

Lemma mapE_length {A B} (f : A → Exn B) xs ys :
  mapE f xs = Ok ys → length ys = length xs.
Proof.
  intros H. symmetry. eapply Forall2_length.
  by apply (mapE_Forall2 f (λ _ _, True)) in H.
Qed.

(** [updateOne] replaces the named fields of the first document with the
    identifier, and of no other document. *)
Lemma updateOne_first oid set c i d :
  c !! i = Some d →
  matches_id oid d = true →
  (∀ j d', j < i → c !! j = Some d' → matches_id oid d' = false) →
  updated (updateOne oid set c) = <[i := set ∪ d]> c ∧
  matchedCount (updateOne oid set c) = 1.
Proof.
  revert i. induction c as [|d0 c IH]; intros i Hi Hd Hbefore; [done|].
  destruct i as [|i]; simpl in *.
  - injection Hi as ->. by rewrite Hd.
  - rewrite (Hbefore 0 d0) by (done || lia). simpl.
    destruct (IH i Hi Hd) as [-> ->]; [|done].
    intros j d' Hj Hd'. apply (Hbefore (S j) d'); [lia | done].
Qed.

Lemma updateOne_none oid set c :
  Forall (λ d, matches_id oid d = false) c →
  updateOne oid set c =
  {| matchedCount := 0; modifiedCount := 0; updated := c |}.
Proof.
  induction 1 as [|d c Hd _ IH]; [done|]. simpl. by rewrite Hd, IH.
Qed.

(** An entry whose identifier is a well-formed token gives an update
    operation. *)
Lemma updateOperation_wellformed now patient id :
  patient !! "_id" = Some (VStr id) →
  Patient.validObjectId id = true →
  ∃ op, PatientsApi.updateOperation now patient = Ok op.
Proof.
  intros Hid Hvalid.
  assert (negb (String.eqb id "") = true) as Hne by by destruct id.
  unfold PatientsApi.updateOperation, Patient.preparePatient.
  rewrite Hid. cbn [truthy]. rewrite Hne. cbn [negb].
  unfold Patient.toObjectId, Patient.new_ObjectId. rewrite Hvalid.
  cbn [bind]. eauto.
Qed.

Lemma updateOperations_wellformed now (patients : list record) :
  Forall (λ patient, ∃ id, patient !! "_id" = Some (VStr id) ∧
                           Patient.validObjectId id = true) patients →
  ∃ ops, mapE (PatientsApi.updateOperation now) patients = Ok ops.
Proof.
  induction 1 as [|patient patients (id & Hid & Hvalid) _ [ops Hops]].
  - by exists [].
  - destruct (updateOperation_wellformed now patient id Hid Hvalid)
      as [op Hop].
    exists (op :: ops). simpl. by rewrite Hop, Hops.
Qed.

(** C6 (as the code has it): for a list of entries that all carry a
    well-formed identifier, every entry passes the check and the bulk
    update answers 200 with the modified count of one bulk write; the
    operation of each entry filters on the entry's identifier and sets
    every field of the entry except the identifier: [updatedAt] is always
    the server's time, [createdAt] is the entry's own value when it has one
    and the server's time otherwise, and every other field is the entry's;
    the write replaces these fields on the first record with that
    identifier and keeps its other fields. *)
Theorem bulk_update_field_set now patients db :
  Forall (λ patient, ∃ id, patient !! "_id" = Some (VStr id) ∧
                           Patient.validObjectId id = true) patients →
  ∃ ops,
    mapE (PatientsApi.updateOperation now) patients = Ok ops ∧
    PatientsApi.handler_PUT (JArray patients) now db =
      ({| status := 200; json := ModifiedBody (bulkWrite ops db).1 |},
       (bulkWrite ops db).2) ∧
    Forall2 (entry_operation now) patients ops ∧
    (∀ op c i d,
       op ∈ ops → c !! i = Some d → matches_id (filter_id op) d = true →
       (∀ j d', j < i → c !! j = Some d' →
                matches_id (filter_id op) d' = false) →
       updated (updateOne (filter_id op) (update_set op) c)
         = <[i := update_set op ∪ d]> c ∧
       (update_set op ∪ d) !! "_id" = d !! "_id" ∧
       ∀ field v, update_set op !! field = Some v →
         (update_set op ∪ d) !! field = Some v).
Proof.
  intros Hwell.
  destruct (updateOperations_wellformed now patients Hwell) as [ops Hops].
  exists ops. split; [done|]. split; [|split].
  - unfold PatientsApi.handler_PUT. rewrite Hops.
    destruct ops as [|op ops]; [done|].
    cbn [length Nat.ltb Nat.leb].
    by destruct (bulkWrite (op :: ops) db).
  - eapply mapE_Forall2; [|done]. apply updateOperation_Ok.
  - intros op c i d Hop Hi Hd Hbefore.
    split; [by apply updateOne_first|].
    assert (update_set op !! "_id" = None) as Hnone.
    { apply (mapE_Forall2 _ (entry_operation now)) in Hops;
        [|apply updateOperation_Ok].
      apply list_elem_of_lookup in Hop as [k Hk].
      destruct (Forall2_lookup_r _ _ _ _ _ Hops Hk) as (p & _ & Hp).
      apply Hp. }
    split.
    + by rewrite lookup_union_r.
    + intros field v Hv. by apply lookup_union_Some_l.
Qed.

(** The operation of the entry of [ann] with her creation time. *)
Lemma bulk_update_field_set_witness :
  ∃ ops,
    mapE (PatientsApi.updateOperation Scenario.now) [Scenario.ann_created]
    = Ok ops ∧
    Forall2 (entry_operation Scenario.now) [Scenario.ann_created] ops.
Proof.
  destruct (bulk_update_field_set Scenario.now [Scenario.ann_created] [])
    as (ops & Hops & _ & Hentries & _).
  - constructor; [|constructor].
    exists Scenario.id_ann. split; reflexivity.
  - exists ops. split; [exact Hops | exact Hentries].
Defined.

(** C6 (as stated) fails: the [createdAt] of an entry is part of the fields
    the bulk update sets, so the creation time of the stored record is
    replaced by what the entry carries (here the Date becomes a string);
    an entry without [createdAt] sets it to the server's time. *)
Lemma bulk_update_sets_createdAt :
  (∃ op,
     PatientsApi.updateOperation Scenario.now Scenario.ann_created = Ok op ∧
     update_set op !! "createdAt" = Some (VStr "2020-01-01T00:00:00.000Z")) ∧
  (∃ op,
     PatientsApi.updateOperation Scenario.now Scenario.ann = Ok op ∧
     update_set op !! "createdAt" = Some (VDate Scenario.now)) ∧
  (∃ d,
     (PatientsApi.handler_PUT (JArray [Scenario.ann_created]) Scenario.now
        [Scenario.ann_created_doc]).2 = [d] ∧
     Scenario.ann_created_doc !! "createdAt" ≠ d !! "createdAt" ∧
     d !! "createdAt" = Some (VStr "2020-01-01T00:00:00.000Z")).
Proof.
  split; [|split].
  - eexists. split; reflexivity.
  - eexists. split; reflexivity.
  - eexists. split; [reflexivity|]. split; [|reflexivity]. discriminate.
Qed.

(** A malformed identifier makes [toObjectId] throw. *)
Lemma toObjectId_malformed id :
  Patient.validObjectId id = false → ∃ m, Patient.toObjectId id = Throw m.
Proof.
  intros Hid. unfold Patient.toObjectId, Patient.new_ObjectId.
  rewrite Hid. eauto.
Qed.

(** C8: a malformed identifier is answered with a client error (400) by
    the routes of a single record (GET, PUT with a body, DELETE), but with a
    server error (500) by the bulk update, which leaves the collection as it
    was. *)
Theorem malformed_id_bulk_update_server_error now db id patient rest :
  id ≠ "" →
  Patient.validObjectId id = false →
  patient !! "_id" = Some (VStr id) →
  let bulk := PatientsApi.handler_PUT (JArray (patient :: rest)) now db in
  server_error bulk.1 = true ∧
  client_error bulk.1 = false ∧
  bulk.2 = db ∧
  (∃ details,
     bulk.1 = {| status := 500;
                 json := ErrorBody "Internal server error" (Some details) |}) ∧
  client_error PatientIdApi.invalid_format = true ∧
  PatientIdApi.handler "GET" (QString id) None now db
    = (PatientIdApi.invalid_format, db) ∧
  PatientIdApi.handler "DELETE" (QString id) None now db
    = (PatientIdApi.invalid_format, db) ∧
  (∀ body,
     client_error (PatientIdApi.handler "PUT" (QString id) (Some body) now db).1
       = true ∧
     (PatientIdApi.handler "PUT" (QString id) (Some body) now db).2 = db).
Proof.
  intros Hne Hbad Hid bulk.
  destruct (toObjectId_malformed id Hbad) as [m Hm].
  assert ((id =? "")%string = false) as Heq by (by apply String.eqb_neq).
  assert (bulk = ({| status := 500;
                     json := ErrorBody "Internal server error" (Some m) |}, db))
    as ->.
  { subst bulk. unfold PatientsApi.handler_PUT. simpl.
    unfold PatientsApi.updateOperation at 1. rewrite Hid. simpl.
    rewrite Heq. simpl. by rewrite Hm. }
  split; [done|]. split; [done|]. split; [done|]. split; [by exists m|].
  split; [done|]. split; [|split].
  - unfold PatientIdApi.handler. rewrite Heq. simpl.
    unfold PatientIdApi.handler_GET. by rewrite Hm.
  - unfold PatientIdApi.handler. rewrite Heq. simpl.
    unfold PatientIdApi.handler_DELETE. by rewrite Hm.
  - intros body. unfold PatientIdApi.handler. rewrite Heq. simpl.
    unfold PatientIdApi.handler_PUT.
    destruct (truthy (body !! "_id") && _); [done|].
    by rewrite Hm.
Qed.

(** The bulk update of an entry with the identifier 123 is answered with
    500, the deletion of the record 123 with 400. *)
Lemma malformed_id_bulk_update_server_error_witness :
  status (PatientsApi.handler_PUT (JArray [Scenario.malformed]) Scenario.now
            [Scenario.ann_doc]).1 = 500 ∧
  PatientIdApi.handler "DELETE" (QString "123") None Scenario.now
    [Scenario.ann_doc]
  = (PatientIdApi.invalid_format, [Scenario.ann_doc]).
Proof.
  destruct (malformed_id_bulk_update_server_error Scenario.now
              [Scenario.ann_doc] "123" Scenario.malformed [])
    as (_ & _ & _ & [details H1] & _ & _ & H3 & _);
    [discriminate | reflexivity | reflexivity |].
  split; [by rewrite H1 | exact H3].
Defined.

(** A body of [null] is answered with 500, also without an insert. *)
Lemma upload_null_body insertMany now db :
  UploadApi.handler insertMany "POST" UploadApi.BodyNull now db =
  ({| status := 500;
      json := ErrorBody "Failed to process upload"
        (Some "Cannot destructure property 'patients' of 'req.body' as it is null.") |},
   db, []).
Proof. done. Qed.

(** C10: a POST whose body is [null] is answered with 500 'Failed to
    process upload' where the claim requires a client error: reading
    [patients] from the body throws before the check of the payload; the
    bulk update answers the same body with 400.  A POST from whose body
    [patients] can be read and is missing, not an array or an empty array
    is answered with 400 'Invalid or empty patients array'.  In all these
    cases no insert is made and the collection stays as it was; an insert
    is only ever made for a POST with a non-empty array, with the prepared
    documents. *)
Theorem upload_rejects_invalid_payload insertMany now db :
  UploadApi.handler insertMany "POST" UploadApi.BodyNull now db =
    ({| status := 500;
        json := ErrorBody "Failed to process upload"
          (Some "Cannot destructure property 'patients' of 'req.body' as it is null.") |},
     db, []) ∧
  PatientsApi.handler_PUT (JScalar VNull) now db =
    ({| status := 400; json := ErrorBody "Expected array of patients" None |},
     db) ∧
  (∀ patients,
     (∀ p ps, patients ≠ JArray (p :: ps)) →
     UploadApi.handler insertMany "POST" (UploadApi.BodyWith patients) now db =
     ({| status := 400;
         json := ErrorBody "Invalid or empty patients array" None |},
      db, [])) ∧
  (∀ method body inserted,
     inserted ∈ (UploadApi.handler insertMany method body now db).2 →
     method = "POST" ∧
     ∃ p ps, body = UploadApi.BodyWith (JArray (p :: ps)) ∧
       mapE (Patient.preparePatient now) (p :: ps) = Ok inserted) ∧
  (∀ p ps documents,
     mapE (Patient.preparePatient now) (p :: ps) = Ok documents →
     (UploadApi.handler insertMany "POST"
        (UploadApi.BodyWith (JArray (p :: ps))) now db).2 = [documents]) ∧
  (∀ method body,
     (UploadApi.handler insertMany method body now db).2 = [] →
     (UploadApi.handler insertMany method body now db).1.2 = db).
Proof.
  split; [apply upload_null_body|]. split; [done|].
  split; [|split; [|split]].
  - intros patients Hnot. unfold UploadApi.handler. simpl.
    destruct patients as [| | |[|p ps]]; try done. by destruct (Hnot p ps).
  - intros method body inserted. unfold UploadApi.handler.
    destruct (String.eqb_spec method "POST") as [->|Hm]; simpl;
      [|by intros ?%elem_of_nil].
    destruct body as [|patients]; [by intros ?%elem_of_nil|].
    destruct patients as [| | |[|p ps]]; simpl; try by intros ?%elem_of_nil.
    destruct (Patient.preparePatient now p) as [d|] eqn:Hd; simpl;
      [|by intros ?%elem_of_nil].
    destruct (mapE (Patient.preparePatient now) ps) as [ds|] eqn:Hds; simpl;
      [|by intros ?%elem_of_nil].
    assert (mapE (Patient.preparePatient now) (p :: ps) = Ok (d :: ds))
      as Hall by (simpl; by rewrite Hd, Hds).
    destruct (insertMany (d :: ds) db) as [[n db']|]; simpl;
      intros ->%list_elem_of_singleton; split; eauto.
  - intros p ps documents Hdocs. unfold UploadApi.handler.
    cbn [String.eqb Ascii.eqb Bool.eqb negb isArray UploadApi.array_length
         length Nat.eqb orb UploadApi.array_elements].
    rewrite Hdocs. by destruct (insertMany documents db) as [[n db']|].
  - intros method body. unfold UploadApi.handler.
    destruct (negb (method =? "POST")%string); [done|].
    destruct body as [|patients]; [done|].
    destruct (negb (isArray patients) || _); [done|].
    destruct (mapE _ _) as [documents|]; [|done].
    by destruct (insertMany documents db) as [[n db']|].
Qed.

(** A body of [null] is answered with 500; an empty array and a missing
    payload are answered with 400. *)
Lemma upload_rejects_invalid_payload_witness :
  status (UploadApi.handler Scenario.insert_all "POST" UploadApi.BodyNull
            Scenario.now [Scenario.ann_doc]).1.1 = 500
  ∧
  UploadApi.handler Scenario.insert_all "POST"
    (UploadApi.BodyWith (JArray [])) Scenario.now [Scenario.ann_doc] =
  ({| status := 400;
      json := ErrorBody "Invalid or empty patients array" None |},
   [Scenario.ann_doc], [])
  ∧
  UploadApi.handler Scenario.insert_all "POST"
    (UploadApi.BodyWith JUndefined) Scenario.now [Scenario.ann_doc] =
  ({| status := 400;
      json := ErrorBody "Invalid or empty patients array" None |},
   [Scenario.ann_doc], []).
Proof.
  destruct (upload_rejects_invalid_payload Scenario.insert_all Scenario.now
              [Scenario.ann_doc]) as (Hnull & _ & H & _).
  split; [by rewrite Hnull|]. split; apply H; discriminate.
Defined.

End Boundary.

(** ** Batches and header names *)
Section Parser.
Import FileParser Cadence.

Lemma batch_sizes_app cbs1 cbs2 :
  batch_sizes (cbs1 ++ cbs2) = batch_sizes cbs1 ++ batch_sizes cbs2.
Proof. apply omap_app. Qed.

Lemma batch_rows_app cbs1 cbs2 :
  batch_rows (cbs1 ++ cbs2) = batch_rows cbs1 ++ batch_rows cbs2.
Proof. unfold batch_rows. by rewrite omap_app, join_app. Qed.

Lemma batch_sizes_chunk r : batch_sizes [OnChunk r] = [length (chunk_data r)].
Proof. done. Qed.

Lemma batch_rows_chunk r : batch_rows [OnChunk r] = chunk_data r.
Proof. unfold batch_rows. simpl. apply app_nil_r. Qed.

Lemma batch_sizes_complete r : batch_sizes [OnComplete r] = [].
Proof. done. Qed.

Lemma batch_rows_complete r : batch_rows [OnComplete r] = [].
Proof. done. Qed.

Lemma cadence_full B sizes :
  0 < B → Forall (λ n, n = B) sizes → cadence B sizes.
Proof.
  intros HB. induction 1 as [|n sizes -> Hsizes IH]; [done|].
  destruct sizes as [|m sizes]; simpl; [lia | done].
Qed.

Lemma cadence_last B sizes n :
  Forall (λ m, m = B) sizes → 0 < n ≤ B → cadence B (sizes ++ [n]).
Proof.
  intros Hsizes Hn. induction Hsizes as [|m sizes -> Hsizes IH]; [done|].
  simpl. destruct (sizes ++ [n]) eqn:Happ; [|done].
  by destruct sizes.
Qed.

Lemma CHUNK_SIZE_pos : 0 < CHUNK_SIZE.
Proof. unfold CHUNK_SIZE. lia. Qed.

Lemma excel_loop_init headers allFields :
  excel_loop headers allFields []
    {| currentChunk := []; x_totalRows := 0; allData := []; calls := [] |}.
Proof. split; simpl; try done. apply CHUNK_SIZE_pos. Qed.

Lemma excel_loop_step headers allFields processed st r :
  excel_loop headers allFields processed st →
  excel_loop headers allFields (processed ++ [r])
    (eachRow_step headers allFields st r).
Proof.
  intros [Hchunk Hsizes Hrows Htotal Hall Hsum Hcalls].
  assert (row_record headers <$> filter (λ r, rowNumber r ≠ 1) (processed ++ [r])
          = (batch_rows (calls st) ++ currentChunk st)
            ++ (if rowNumber r =? 1 then [] else [row_record headers r]))
    as Hnext.
  { rewrite filter_app, fmap_app, <- Hrows. f_equal.
    destruct (Nat.eqb_spec (rowNumber r) 1) as [Hr|Hr].
    - by rewrite filter_cons_False, filter_nil by (simpl; lia).
    - by rewrite filter_cons_True, filter_nil by done. }
  unfold eachRow_step.
  destruct (rowNumber r =? 1).
  { rewrite app_nil_r in Hnext. by split. }
  destruct (Nat.leb_spec CHUNK_SIZE
              (length (currentChunk st ++ [row_record headers r])))
    as [Hfull|Hroom].
  - assert (length (currentChunk st ++ [row_record headers r]) = CHUNK_SIZE)
      as Hlen by (rewrite length_app in *; simpl in *; lia).
    assert (batch_rows
              (calls st ++
               [OnChunk {| chunk_data := currentChunk st ++ [row_record headers r];
                           chunk_fields := allFields; chunk_errors := [] |}])
            = batch_rows (calls st) ++ currentChunk st ++ [row_record headers r])
      as Hbatch.
    { rewrite batch_rows_app. f_equal. unfold batch_rows. simpl.
      by rewrite app_nil_r. }
    split; cbn [currentChunk x_totalRows allData calls].
    + apply CHUNK_SIZE_pos.
    + rewrite batch_sizes_app. apply Forall_app. split; [done|].
      simpl. by repeat constructor.
    + by rewrite Hbatch, app_nil_r, Hnext, app_assoc.
    + rewrite Hbatch, app_nil_r, Htotal, !length_app. simpl. lia.
    + by rewrite Hbatch, Hall.
    + rewrite batch_sizes_app, Hbatch, sum_list_with_app, length_app, Hsum.
      simpl. lia.
    + apply Forall_app. split; [done|]. repeat constructor. eauto.
  - split; cbn [currentChunk x_totalRows allData calls]; try done.
    + by rewrite Hnext, app_assoc.
    + rewrite Htotal, !length_app. simpl. lia.
Qed.

Lemma excel_loop_foldl headers allFields worksheet :
  excel_loop headers allFields worksheet
    (foldl (eachRow_step headers allFields)
       {| currentChunk := []; x_totalRows := 0; allData := []; calls := [] |}
       worksheet).
Proof.
  induction worksheet as [|r worksheet IH] using rev_ind.
  - apply excel_loop_init.
  - rewrite foldl_app. simpl. by apply excel_loop_step.
Qed.

Lemma reported_total_complete cbs r :
  reported_total (cbs ++ [OnComplete r]) = Some (totalRows r).
Proof. unfold reported_total. by rewrite last_snoc. Qed.

(** The batches of the spreadsheet variant. *)
Lemma parseExcelFile_batches worksheet others :
  let cbs := parseExcelFile (worksheet :: others) in
  cadence CHUNK_SIZE (batch_sizes cbs) ∧
  batch_rows cbs = excel_rows worksheet ∧
  sum_list (batch_sizes cbs) = length (excel_rows worksheet) ∧
  reported_total cbs = Some (length (excel_rows worksheet)) ∧
  (∀ r, OnChunk r ∈ cbs →
     chunk_fields r = (read_headers (getRow1 worksheet)).2).
Proof.
  unfold parseExcelFile, excel_rows.
  destruct (read_headers (getRow1 worksheet)) as [headers allFields].
  pose proof (excel_loop_foldl headers allFields worksheet) as Hloop.
  destruct (foldl _ _ worksheet) as [cur total all cs].
  destruct Hloop as [Hchunk Hsizes Hrows Htotal Hall Hsum Hcalls].
  cbn [currentChunk x_totalRows allData calls fst snd] in *.
  destruct cur as [|row cur].
  - cbn [length Nat.ltb Nat.leb currentChunk x_totalRows allData calls].
    rewrite app_nil_r in *.
    rewrite batch_sizes_app, batch_rows_app, reported_total_complete.
    rewrite batch_sizes_complete, batch_rows_complete, !app_nil_r.
    cbn [totalRows].
    split; [apply cadence_full; [apply CHUNK_SIZE_pos | done]|].
    split; [done|]. split; [by rewrite Hsum, Hrows|].
    split; [by rewrite Htotal, Hrows|].
    intros r [Hr|Hr]%elem_of_app.
    + rewrite Forall_forall in Hcalls.
      by destruct (Hcalls _ Hr) as (r' & [= ->] & Hf).
    + by apply list_elem_of_singleton in Hr.
  - cbn [length Nat.ltb Nat.leb currentChunk x_totalRows allData calls].
    rewrite !batch_sizes_app, !batch_rows_app, reported_total_complete.
    rewrite batch_sizes_complete, batch_rows_complete, !app_nil_r.
    rewrite batch_sizes_chunk, batch_rows_chunk.
    cbn [totalRows chunk_data].
    split; [apply cadence_last; [done | simpl in *; lia]|].
    split; [done|].
    split.
    { rewrite sum_list_with_app, Hsum, <- Hrows, length_app. simpl. lia. }
    split; [by rewrite Htotal, Hrows|].
    intros r [[Hr|Hr]%elem_of_app|Hr]%elem_of_app.
    + rewrite Forall_forall in Hcalls.
      by destruct (Hcalls _ Hr) as (r' & [= ->] & Hf).
    + by apply list_elem_of_singleton in Hr as [= ->].
    + by apply list_elem_of_singleton in Hr.
Qed.

(** The batches of the delimited-text variant are the parser's chunks. *)
Lemma onmessage_batches w events :
  batch_sizes (onmessage (worker_run w events))
  = (λ results, length (results_data results)) <$> papa_chunks events ∧
  batch_rows (onmessage (worker_run w events))
  = mjoin (results_data <$> papa_chunks events).
Proof.
  revert w. induction events as [|[results| |m] events IH]; intros w; try done.
  destruct (IH (worker_step w (PapaChunk results)).1) as [IH1 IH2].
  split.
  - change (batch_sizes (onmessage (worker_run w (PapaChunk results :: events))))
      with (length (results_data results)
            :: batch_sizes (onmessage
                 (worker_run (worker_step w (PapaChunk results)).1 events))).
    by rewrite IH1.
  - change (batch_rows (onmessage (worker_run w (PapaChunk results :: events))))
      with (results_data results
            ++ batch_rows (onmessage
                 (worker_run (worker_step w (PapaChunk results)).1 events))).
    by rewrite IH2.
Qed.

Lemma onmessage_total w chunks rest :
  reported_total
    (onmessage (worker_run w ((PapaChunk <$> chunks) ++ PapaComplete :: rest)))
  = Some (w_totalRows w
          + sum_list ((λ results, length (results_data results)) <$> chunks)).
Proof.
  revert w. induction chunks as [|results chunks IH]; intros w.
  - simpl. unfold reported_total. simpl. f_equal. lia.
  - rewrite fmap_cons.
    specialize (IH (worker_step w (PapaChunk results)).1).
    change (onmessage (worker_run w
              ((PapaChunk results :: (PapaChunk <$> chunks))
               ++ PapaComplete :: rest)))
      with (OnChunk {| chunk_data := results_data results;
                       chunk_fields := w_allFields (worker_step w (PapaChunk results)).1;
                       chunk_errors := results_errors results |}
            :: onmessage (worker_run (worker_step w (PapaChunk results)).1
                 ((PapaChunk <$> chunks) ++ PapaComplete :: rest))).
    unfold reported_total in *. rewrite last_cons.
    destruct (last _) as [cb|]; [|done].
    rewrite IH. cbn [worker_step fst w_totalRows].
    rewrite fmap_cons. cbn [sum_list_with id]. f_equal. lia.
Qed.

Lemma papa_chunks_prefix chunks rest :
  papa_chunks ((PapaChunk <$> chunks) ++ PapaComplete :: rest) = chunks.
Proof.
  induction chunks as [|c chunks IH]; [done|].
  rewrite fmap_cons. cbn [app papa_chunks]. by rewrite IH.
Qed.

(** C2 (as the code has it): the spreadsheet variant, which fails on a
    workbook without worksheets, emits batches of exactly 100 rows, except
    a last one that may be shorter and is always flushed; the
    delimited-text variant emits one batch per chunk of the parser,
    whatever its size.  In both, the batches hold the rows in arrival order
    and their sizes add up to the reported total. *)
Theorem batches_in_arrival_order :
  parseExcelFile [] = [OnError "No worksheets found in the Excel file"] ∧
  (∀ worksheet others,
     let cbs := parseExcelFile (worksheet :: others) in
     cadence CHUNK_SIZE (batch_sizes cbs) ∧
     batch_rows cbs = excel_rows worksheet ∧
     reported_total cbs = Some (sum_list (batch_sizes cbs))) ∧
  (∀ events,
     let cbs := parseCSVFile events in
     batch_sizes cbs
     = (λ results, length (results_data results)) <$> papa_chunks events ∧
     batch_rows cbs = mjoin (results_data <$> papa_chunks events)) ∧
  (∀ chunks rest,
     let cbs := parseCSVFile ((PapaChunk <$> chunks) ++ PapaComplete :: rest) in
     reported_total cbs = Some (sum_list (batch_sizes cbs))).
Proof.
  split; [done|]. split; [|split].
  - intros worksheet others cbs.
    destruct (parseExcelFile_batches worksheet others)
      as (Hcad & Hrows & Hsum & Htotal & _).
    fold cbs in Hcad, Hrows, Hsum, Htotal.
    split; [done|]. split; [done|]. by rewrite Hsum.
  - intros events. apply onmessage_batches.
  - intros chunks rest cbs. subst cbs. unfold parseCSVFile.
    rewrite onmessage_total.
    rewrite (proj1 (onmessage_batches _ _)), papa_chunks_prefix. done.
Qed.

(** C2 (as stated) fails for the delimited-text variant: a file of 101
    rows that the parser delivers as one chunk gives one batch of 101
    rows, and the two chunks of one row each of the parser's own test give
    a first batch of one row. *)
Lemma csv_batches_follow_parser_chunks :
  batch_sizes (parseCSVFile Scenario.one_chunk_101) = [101]
  ∧ ¬ cadence 100 (batch_sizes (parseCSVFile Scenario.one_chunk_101))
  ∧ batch_sizes (parseCSVFile Scenario.two_chunks) = [1; 1]
  ∧ ¬ cadence 100 (batch_sizes (parseCSVFile Scenario.two_chunks)).
Proof.
  split; [reflexivity|]. split; [|split; [reflexivity|]].
  - change (¬ (0 < 101 ≤ 100)). lia.
  - change (¬ (1 = 100 ∧ 0 < 1 ≤ 100)). lia.
Qed.

Lemma foldl_Set_add_elem (fs acc : list string) field :
  field ∈ foldl (λ s f, Set_add f s) acc fs ↔ field ∈ acc ∨ field ∈ fs.
Proof.
  revert acc. induction fs as [|f fs IH]; intros acc; simpl.
  - rewrite elem_of_nil. tauto.
  - rewrite IH, elem_of_cons. unfold Set_add.
    case_bool_decide as Hf.
    + split; [tauto|]. intros [?|[->|?]]; auto.
    + rewrite elem_of_app, list_elem_of_singleton. tauto.
Qed.

Lemma foldl_Set_add_NoDup (fs acc : list string) :
  NoDup (acc ++ fs) → foldl (λ s f, Set_add f s) acc fs = acc ++ fs.
Proof.
  revert acc. induction fs as [|f fs IH]; intros acc Hnd; simpl.
  - by rewrite app_nil_r.
  - unfold Set_add. case_bool_decide as Hf.
    + apply NoDup_app in Hnd as (_ & Hdis & _).
      destruct (Hdis f Hf). apply list_elem_of_here.
    + rewrite IH; [by rewrite <- app_assoc|]. by rewrite <- app_assoc.
Qed.

(** Every field name the worker emits was reported by the parser. *)
Lemma onmessage_fields w events r field :
  OnChunk r ∈ onmessage (worker_run w events) →
  field ∈ chunk_fields r →
  field ∈ w_allFields w ∨
  ∃ results fs, results ∈ papa_chunks events ∧
    results_meta_fields results = Some fs ∧ field ∈ fs.
Proof.
  revert w. induction events as [|[results| |m] events IH]; intros w; simpl.
  - by intros ?%elem_of_nil.
  - intros [[= ->]|Hr]%elem_of_cons Hfield.
    + simpl in Hfield.
      destruct (results_meta_fields results) as [fs|] eqn:Hfs; [|by left].
      apply foldl_Set_add_elem in Hfield as [?|?]; [by left|].
      right. exists results, fs. split; [apply list_elem_of_here | done].
    + destruct (IH _ Hr Hfield) as [Hw|(results' & fs & Hin & Hfs & Hf)].
      * simpl in Hw.
        destruct (results_meta_fields results) as [fs|] eqn:Hfs; [|by left].
        apply foldl_Set_add_elem in Hw as [?|?]; [by left|].
        right. exists results, fs. split; [apply list_elem_of_here | done].
      * right. exists results', fs. split; [by apply list_elem_of_further | done].
  - by intros [[=]|?%elem_of_nil]%elem_of_cons.
  - by intros [[=]|?%elem_of_nil]%elem_of_cons.
Qed.

(** C7 (as the code has it): in the spreadsheet variant each cell of the
    header row that the sheet reader delivers is named by its text, or, when
    the text is empty, Column followed by the cell's 1-based column number;
    the delimited-text variant emits the header fields the parser reports
    as they are and makes up no name. *)
Theorem header_names_of_delivered_cells :
  (∀ row1,
     (read_headers row1).1 = header_of <$> row1 ∧
     ∀ cell, cell ∈ row1 →
       (cell_text cell = "" →
        header_of cell = "Column" +:+ pretty (colNumber cell)) ∧
       (cell_text cell ≠ "" → header_of cell = cell_text cell)) ∧
  (∀ worksheet others r,
     OnChunk r ∈ parseExcelFile (worksheet :: others) →
     ∀ field, field ∈ chunk_fields r ↔
       ∃ cell, cell ∈ getRow1 worksheet ∧ field = header_of cell) ∧
  (∀ events r field,
     OnChunk r ∈ parseCSVFile events → field ∈ chunk_fields r →
     ∃ results fs, results ∈ papa_chunks events ∧
       results_meta_fields results = Some fs ∧ field ∈ fs) ∧
  (∀ results fs rest,
     results_meta_fields results = Some fs → NoDup fs →
     ∃ r cbs, parseCSVFile (PapaChunk results :: rest) = OnChunk r :: cbs ∧
       chunk_fields r = fs).
Proof.
  assert (∀ row1 hs fs,
            foldl (λ '(headers, allFields) cell,
                     (headers ++ [header_of cell],
                      Set_add (header_of cell) allFields)) (hs, fs) row1
            = (hs ++ (header_of <$> row1),
               foldl (λ s f, Set_add f s) fs (header_of <$> row1)))
    as Hheaders.
  { induction row1 as [|cell row1 IH]; intros hs fs; simpl.
    - by rewrite app_nil_r.
    - rewrite IH. by rewrite <- app_assoc. }
  split; [|split; [|split]].
  - intros row1. unfold read_headers. rewrite Hheaders. split; [done|].
    intros cell _. unfold header_of.
    destruct (String.eqb_spec (cell_text cell) ""); split; done.
  - intros worksheet others r Hr field.
    destruct (parseExcelFile_batches worksheet others) as (_ & _ & _ & _ & Hf).
    rewrite (Hf r Hr). unfold read_headers. rewrite Hheaders. simpl.
    rewrite foldl_Set_add_elem, elem_of_nil, list_elem_of_fmap.
    split; [intros [[]|(cell & -> & Hc)]; eauto | intros (cell & Hc & ->); eauto].
  - intros events r field Hr Hfield.
    destruct (onmessage_fields worker_init events r field Hr Hfield)
      as [Hw|H]; [by apply elem_of_nil in Hw | done].
  - intros results fs rest Hfs Hnd. unfold parseCSVFile. simpl.
    eexists _, _. split; [reflexivity|]. simpl. rewrite Hfs.
    by apply (foldl_Set_add_NoDup fs []).
Qed.

(** The header row [firstName, "", email] of a sheet, and of a delimited
    file. *)
Lemma header_names_of_delivered_cells_witness :
  (read_headers Scenario.header_row).1 = ["firstName"; "Column2"; "email"]
  ∧ ∃ r cbs,
      parseCSVFile [PapaChunk Scenario.blank_header; PapaComplete]
      = OnChunk r :: cbs
      ∧ chunk_fields r = ["firstName"; ""; "email"].
Proof.
  destruct header_names_of_delivered_cells as (Hx & _ & _ & Hcsv).
  split.
  - rewrite (proj1 (Hx Scenario.header_row)). reflexivity.
  - apply (Hcsv Scenario.blank_header ["firstName"; ""; "email"]
             [PapaComplete]); [reflexivity|].
    apply (bool_decide_unpack (NoDup ["firstName"; ""; "email"])). by vm_compute.
Defined.

(** C7 (as stated) fails for the delimited-text variant: for the header row
    [firstName,,email] the field of the second column is the empty name the
    parser reports, not Column2. *)
Lemma csv_blank_header_kept :
  ∃ r cbs,
    parseCSVFile [PapaChunk Scenario.blank_header; PapaComplete]
    = OnChunk r :: cbs
    ∧ chunk_fields r = ["firstName"; ""; "email"]
    ∧ chunk_fields r !! 1 ≠ Some "Column2"
    ∧ ¬ synthesized ["firstName"; ""; "email"] (chunk_fields r).
Proof.
  eexists _, _. split; [reflexivity|]. split; [reflexivity|].
  split; [discriminate|].
  intros [_ H]. specialize (H 1 "" eq_refl). discriminate H.
Qed.

End Parser.

(** ** The columns of the page and of the table *)
Section ColumnFacts.
Import Home.

(** One step of the loops that collect column names. *)
Lemma column_step_elem (f field : string) (acc : list string) :
  f ∈ (if negb (reserved field) then Set_add field acc else acc)
  ↔ f ∈ acc ∨ (f = field ∧ reserved field = false).
Proof.
  destruct (reserved field); simpl.
  - split; [auto | intros [?|[_ [=]]]; done].
  - unfold Set_add. case_bool_decide as Hin.
    + split; [auto | intros [?|[-> _]]; done].
    + rewrite elem_of_app, list_elem_of_singleton. tauto.
Qed.

Lemma column_fold_elem (fields acc : list string) f :
  f ∈ foldl (λ newColumns field,
               if negb (reserved field) then Set_add field newColumns
               else newColumns) acc fields
  ↔ f ∈ acc ∨ (f ∈ fields ∧ reserved f = false).
Proof.
  revert acc. induction fields as [|field fields IH]; intros acc; simpl.
  - rewrite elem_of_nil. tauto.
  - rewrite IH, column_step_elem, elem_of_cons.
    split; [intros [[?|[-> ?]]|[? ?]]; auto | intros [?|[[->|?] ?]]; auto].
Qed.

Lemma column_fold_prefix (fields acc : list string) :
  acc `prefix_of`
    foldl (λ newColumns field,
             if negb (reserved field) then Set_add field newColumns
             else newColumns) acc fields.
Proof.
  revert acc. induction fields as [|field fields IH]; intros acc; simpl; [done|].
  etrans; [|apply IH].
  destruct (reserved field); simpl; [done|].
  unfold Set_add. case_bool_decide; [done|]. by apply prefix_app_r.
Qed.

Lemma column_fold_NoDup (fields acc : list string) :
  NoDup acc →
  NoDup (foldl (λ newColumns field,
                  if negb (reserved field) then Set_add field newColumns
                  else newColumns) acc fields).
Proof.
  revert acc. induction fields as [|field fields IH]; intros acc Hacc; simpl;
    [done|].
  apply IH. destruct (reserved field); simpl; [done|].
  unfold Set_add. case_bool_decide as Hin; [done|].
  apply NoDup_app. split; [done|]. split; [|apply NoDup_singleton].
  intros x Hx ->%list_elem_of_singleton. done.
Qed.

Lemma column_fold_known (fields acc : list string) :
  (∀ f, f ∈ fields → reserved f = false → f ∈ acc) →
  foldl (λ newColumns field,
           if negb (reserved field) then Set_add field newColumns
           else newColumns) acc fields = acc.
Proof.
  induction fields as [|field fields IH]; intros Hknown; simpl; [done|].
  assert ((if negb (reserved field) then Set_add field acc else acc) = acc)
    as ->.
  { destruct (reserved field) eqn:Hr; simpl; [done|].
    unfold Set_add. rewrite bool_decide_eq_true_2; [done|].
    apply Hknown; [apply list_elem_of_here | done]. }
  apply IH. intros f Hf. apply Hknown. by apply list_elem_of_further.
Qed.

Lemma new_Set_NoDup (xs : list string) : NoDup xs → new_Set xs = xs.
Proof. intros Hxs. by apply (foldl_Set_add_NoDup xs []). Qed.

(** X1: the columns of the page only grow.  Merging the fields of a batch
    into columns without repetition keeps the old columns in front in their
    order, appends the fields that are new and not reserved, stays without
    repetition, does nothing when repeated, and merging two batches one
    after the other is merging their fields at once. *)
Theorem merged_columns_append_only prevColumns fields :
  NoDup prevColumns →
  let merged := mergeColumns prevColumns fields in
  prevColumns `prefix_of` merged ∧
  NoDup merged ∧
  (∀ f, f ∈ merged ↔
        f ∈ prevColumns ∨ (f ∈ fields ∧ reserved f = false)) ∧
  mergeColumns merged fields = merged ∧
  (∀ more, mergeColumns merged more = mergeColumns prevColumns (fields ++ more)).
Proof.
  intros Hprev merged. subst merged. unfold mergeColumns.
  rewrite (new_Set_NoDup _ Hprev).
  pose proof (column_fold_NoDup fields prevColumns Hprev) as Hnd.
  split; [apply column_fold_prefix|]. split; [done|].
  split; [apply column_fold_elem|].
  split.
  - rewrite (new_Set_NoDup _ Hnd). apply column_fold_known.
    intros f Hf Hr. apply column_fold_elem. auto.
  - intros more. rewrite (new_Set_NoDup _ Hnd). by rewrite foldl_app.
Qed.

(** Merging a batch with the fields [_id, email, firstName] into the
    column [firstName]. *)
Lemma merged_columns_append_only_witness :
  NoDup (mergeColumns ["firstName"] ["_id"; "email"; "firstName"])
  ∧ ["firstName"] `prefix_of`
      mergeColumns ["firstName"] ["_id"; "email"; "firstName"].
Proof.
  destruct (merged_columns_append_only ["firstName"]
              ["_id"; "email"; "firstName"]) as (H1 & H2 & _).
  - apply (bool_decide_unpack (NoDup ["firstName"])). by vm_compute.
  - split; [exact H2 | exact H1].
Defined.

Lemma keys_of_spec (r : record) k :
  k ∈ Examples.keys_of r ↔ is_Some (r !! k).
Proof.
  unfold Examples.keys_of. rewrite list_elem_of_fmap. split.
  - intros ([k' v] & -> & Hkv%elem_of_map_to_list). by exists v.
  - intros [v Hv]. exists (k, v). split; [done|].
    by apply elem_of_map_to_list.
Qed.

Lemma extractColumns_elem keys (data : list record) (acc : list string) f :
  (∀ r k, k ∈ keys r ↔ is_Some (r !! k)) →
  f ∈ foldl (λ allColumns patient,
               foldl (λ allColumns key,
                        if negb (reserved key) then Set_add key allColumns
                        else allColumns) allColumns (keys patient))
        acc data
  ↔ f ∈ acc ∨ (reserved f = false ∧ ∃ p, p ∈ data ∧ is_Some (p !! f)).
Proof.
  intros Hkeys. revert acc.
  induction data as [|patient data IH]; intros acc; simpl.
  - split; [auto | intros [?|(_ & p & ?%elem_of_nil & _)]; done].
  - rewrite IH, column_fold_elem, Hkeys. split.
    + intros [[?|[? ?]]|(? & p & ? & ?)]; auto.
      * right. split; [done|]. exists patient. split; [apply list_elem_of_here|done].
      * right. split; [done|]. exists p. split; [by apply list_elem_of_further|done].
    + intros [?|(? & p & [->|?]%elem_of_cons & ?)]; auto.
      right. split; [done|]. by exists p.
Qed.

Lemma extractColumns_NoDup keys (data : list record) (acc : list string) :
  NoDup acc →
  NoDup (foldl (λ allColumns patient,
               foldl (λ allColumns key,
                        if negb (reserved key) then Set_add key allColumns
                        else allColumns) allColumns (keys patient))
        acc data).
Proof.
  revert acc. induction data as [|patient data IH]; intros acc Hacc; simpl;
    [done|].
  apply IH. by apply column_fold_NoDup.
Qed.

(** X2: after a successful fetch the page holds the fetched records and,
    replacing whatever columns it had, exactly the field names that occur
    in some fetched record and are not reserved, each once; a failed fetch
    keeps records and columns and reports the failure. *)
Theorem fetched_columns keys (st : State) :
  (∀ r k, k ∈ keys r ↔ is_Some (r !! k)) →
  (∀ data,
     let st' := (fetchPatients keys (FetchResponse true (Some data)) st).1 in
     patientData st' = data ∧
     NoDup (columns st') ∧
     (∀ f, f ∈ columns st' ↔
           reserved f = false ∧ ∃ p, p ∈ data ∧ is_Some (p !! f))) ∧
  (∀ response,
     (∀ data, response ≠ FetchResponse true data) →
     patientData (fetchPatients keys response st).1 = patientData st ∧
     columns (fetchPatients keys response st).1 = columns st ∧
     (fetchPatients keys response st).2
       = Some (ToastError "Failed to fetch patients")).
Proof.
  intros Hkeys. split.
  - intros data st'. subst st'. simpl. split; [done|].
    destruct data as [|p data]; simpl.
    + split; [constructor|]. intros f. split; [by intros ?%elem_of_nil|].
      by intros (_ & p & ?%elem_of_nil & _).
    + split.
      * apply (extractColumns_NoDup keys (p :: data) []). constructor.
      * intros f.
        pose proof (extractColumns_elem keys (p :: data) [] f Hkeys) as H.
        simpl in H. rewrite H, elem_of_nil. tauto.
  - intros response Hfail.
    destruct response as [|[] data]; try done. by destruct (Hfail data).
Qed.

(** Fetching [ann] and [bob]. *)
Lemma fetched_columns_witness :
  NoDup (columns (fetchPatients Examples.keys_of
           (FetchResponse true (Some [Scenario.ann; Scenario.bob]))
           Home.initial).1)
  ∧ "email" ∈ columns (fetchPatients Examples.keys_of
           (FetchResponse true (Some [Scenario.ann; Scenario.bob]))
           Home.initial).1.
Proof.
  destruct (fetched_columns Examples.keys_of Home.initial keys_of_spec)
    as [Hok _].
  destruct (Hok [Scenario.ann; Scenario.bob]) as (_ & Hnd & Helem).
  split; [exact Hnd|].
  apply Helem. split; [reflexivity|].
  exists Scenario.ann. split; [apply list_elem_of_here | by eexists].
Defined.

End ColumnFacts.

(** ** The headers of the table *)
Section HeaderFacts.
Import Text Columns.

Lemma separator_upper c : is_separator (upper_char c) = is_separator c.
Proof. by destruct c as [[] [] [] [] [] [] [] []]. Qed.

Lemma separator_lower c : is_separator (lower_char c) = is_separator c.
Proof. by destruct c as [[] [] [] [] [] [] [] []]. Qed.

Lemma lower_upper c : lower_char (upper_char c) = lower_char c.
Proof. by destruct c as [[] [] [] [] [] [] [] []]. Qed.

Lemma lower_lower c : lower_char (lower_char c) = lower_char c.
Proof. by destruct c as [[] [] [] [] [] [] [] []]. Qed.

Lemma upper_not_separator c : is_upper c = true → is_separator c = false.
Proof. by destruct c as [[] [] [] [] [] [] [] []]. Qed.

Lemma letters_cons c s :
  letters (String c s) =
  if is_separator c then letters s else String (lower_char c) (letters s).
Proof. unfold letters. simpl. by destruct (is_separator c). Qed.

Lemma letters_app a b : letters (a +:+ b) = letters a +:+ letters b.
Proof.
  induction a as [|c a IH]; [done|].
  change (String c a +:+ b) with (String c (a +:+ b)).
  rewrite !letters_cons, IH. by destruct (is_separator c).
Qed.

Lemma letters_toLowerCase s : letters (toLowerCase s) = letters s.
Proof.
  induction s as [|c s IH]; [done|]. unfold toLowerCase in *. simpl.
  rewrite !letters_cons, separator_lower, lower_lower, IH. done.
Qed.

Lemma letters_space_capitals s : letters (space_capitals s) = letters s.
Proof.
  induction s as [|c s IH]; [done|]. simpl.
  destruct (is_upper c) eqn:Hc.
  - rewrite (letters_cons " "). simpl. by rewrite !letters_cons, IH.
  - by rewrite !letters_cons, IH.
Qed.

Lemma letters_capitalize word : letters (capitalize word) = letters word.
Proof.
  destruct word as [|c word]; [done|]. simpl.
  by rewrite !letters_cons, separator_upper, lower_upper, letters_toLowerCase.
Qed.

Lemma split_at_nonempty skipping s : split_at skipping s ≠ [].
Proof.
  revert skipping. induction s as [|c s IH]; intros skipping; simpl; [done|].
  destruct (is_separator c).
  - destruct skipping; [apply IH | done].
  - by destruct (split_at false s).
Qed.

Lemma append_empty (s : string) : s +:+ "" = s.
Proof.
  induction s as [|c s IH]; [done|].
  change (String c s +:+ "") with (String c (s +:+ "")). by rewrite IH.
Qed.

(** The letters of the joined words are the letters of the words. *)
Lemma letters_join words :
  letters (join_spaces words) = foldr (λ w acc, letters w +:+ acc) "" words.
Proof.
  induction words as [|w words IH]; [done|].
  destruct words as [|w' words].
  - simpl. by rewrite append_empty.
  - change (join_spaces (w :: w' :: words))
      with (w +:+ String " " (join_spaces (w' :: words))).
    rewrite letters_app, (letters_cons " "). simpl is_separator. cbv iota.
    by rewrite IH.
Qed.

Lemma letters_split skipping s :
  foldr (λ w acc, letters w +:+ acc) "" (split_at skipping s) = letters s.
Proof.
  revert skipping. induction s as [|c s IH]; intros skipping; [done|].
  rewrite letters_cons. cbn [split_at].
  destruct (is_separator c) eqn:Hc.
  - destruct skipping; [apply IH|]. cbn [foldr]. by rewrite IH.
  - pose proof (split_at_nonempty false s) as Hne. specialize (IH false).
    destruct (split_at false s) as [|w ws]; [done|].
    cbn [foldr] in *. rewrite letters_cons, Hc.
    change (String (lower_char c) (letters w) +:+ ?rest)
      with (String (lower_char c) (letters w +:+ rest)).
    by rewrite IH.
Qed.

Lemma letters_capitalized ws :
  foldr (λ w acc, letters w +:+ acc) "" (capitalize <$> ws)
  = foldr (λ w acc, letters w +:+ acc) "" ws.
Proof.
  induction ws as [|w ws IH]; [done|].
  rewrite fmap_cons. cbn [foldr]. by rewrite letters_capitalize, IH.
Qed.

Lemma header_char_join words :
  Forall (λ w, Patient.string_forall header_char w = true) words →
  Patient.string_forall header_char (join_spaces words) = true.
Proof.
  induction 1 as [|w words Hw Hwords IH]; [done|].
  destruct words as [|w' words]; [done|].
  change (join_spaces (w :: w' :: words))
    with (w +:+ String " " (join_spaces (w' :: words))).
  clear Hwords. induction w as [|c w IHw]; simpl in *; [done|].
  apply andb_true_iff in Hw as [-> Hw]. simpl. by apply IHw.
Qed.

Lemma header_char_split skipping s :
  Forall (λ w, Patient.string_forall (λ c, negb (is_separator c)) w = true)
    (split_at skipping s).
Proof.
  revert skipping. induction s as [|c s IH]; intros skipping; simpl.
  - by repeat constructor.
  - destruct (is_separator c) eqn:Hc.
    + destruct skipping; [apply IH | constructor; [done | apply IH]].
    + specialize (IH false).
      destruct (split_at false s) as [|w ws]; simpl.
      * repeat constructor. simpl. by rewrite Hc.
      * inversion IH as [|? ? Hw Hws]; subst. constructor; [|done].
        simpl. by rewrite Hc.
Qed.

Lemma header_char_capitalize w :
  Patient.string_forall (λ c, negb (is_separator c)) w = true →
  Patient.string_forall header_char (capitalize w) = true.
Proof.
  destruct w as [|c w]; [done|]. simpl.
  intros [Hc Hw]%andb_true_iff. unfold header_char at 1.
  rewrite separator_upper, Hc. simpl.
  clear Hc c. induction w as [|c w IH]; [done|]. simpl in *.
  apply andb_true_iff in Hw as [Hc Hw]. unfold header_char at 1.
  rewrite separator_lower, Hc. simpl. by apply IH.
Qed.

Lemma accessorKeys_data columns :
  accessorKeys ((λ column, DataColumn column (formatHeader column)) <$> columns)
  = columns.
Proof.
  induction columns as [|c columns IH]; [done|].
  rewrite fmap_cons.
  change (c :: accessorKeys
                 ((λ column, DataColumn column (formatHeader column))
                  <$> columns) = c :: columns).
  by rewrite IH.
Qed.

(** X3: the header of a column is cosmetic.  On an ASCII column name it
    has the same letters as the name (separators and case apart), holds no
    underscore and no white space but single spaces between its words; and
    the table's data columns keep the column names themselves as keys, in
    order, under whatever header. *)
Theorem header_is_cosmetic column :
  Patient.string_forall is_ascii column = true →
  letters (formatHeader column) = letters column ∧
  Patient.string_forall header_char (formatHeader column) = true ∧
  (∀ keys data columns,
     columns ≠ [] →
     tableColumns keys data columns
     = SelectColumn
       :: ((λ column, DataColumn column (formatHeader column)) <$> columns) ∧
     accessorKeys (tableColumns keys data columns) = columns).
Proof.
  intros _. unfold formatHeader, split_separators. split; [|split].
  - by rewrite letters_join, letters_capitalized, letters_split,
      letters_space_capitals.
  - apply header_char_join.
    pose proof (header_char_split false (space_capitals column)) as Hwords.
    induction Hwords as [|w ws Hw _ IH]; [constructor|].
    rewrite fmap_cons. constructor; [by apply header_char_capitalize | done].
  - intros keys data columns Hcolumns.
    destruct columns as [|c columns]; [done|].
    split; [done|].
    change (accessorKeys (tableColumns keys data (c :: columns)))
      with (accessorKeys
              ((λ column, DataColumn column (formatHeader column))
               <$> (c :: columns))).
    apply accessorKeys_data.
Qed.

(** The header of [first_name]. *)
Lemma header_is_cosmetic_witness :
  letters (formatHeader "first_name") = "firstname"
  ∧ formatHeader "first_name" = "First Name".
Proof.
  destruct (header_is_cosmetic "first_name" eq_refl) as (H & _).
  split; [rewrite H; reflexivity | reflexivity].
Defined.

End HeaderFacts.

(** ** Preparing and serialising patients *)
Section PatientFacts.

Implicit Types (patient prepared doc : record).

Lemma validObjectId_nonempty s :
  Patient.validObjectId s = true → String.eqb s "" = false.
Proof. by destruct s. Qed.

Lemma preparePatient_malformed now patient :
  has_malformed_id patient = true →
  ∃ m, Patient.preparePatient now patient = Throw m.
Proof.
  unfold has_malformed_id, Patient.preparePatient.
  destruct (patient !! "_id") as [[| | |s| |]|]; try done.
  intros [Hs Hv]%andb_true_iff. simpl. rewrite Hs.
  unfold Patient.toObjectId, Patient.new_ObjectId.
  apply negb_true_iff in Hv. rewrite Hv. simpl. eauto.
Qed.

Lemma preparePatient_wellformed now patient :
  has_malformed_id patient = false →
  ∃ prepared, Patient.preparePatient now patient = Ok prepared ∧
    stamped now patient prepared.
Proof.
  intros Hid.
  assert (∃ prepared, Patient.preparePatient now patient = Ok prepared ∧
            prepared !! "_id" = prepared_id patient)
    as (prepared & Hprep & Hpid).
  { unfold has_malformed_id, prepared_id, Patient.preparePatient in *.
    destruct (patient !! "_id") as [v|] eqn:Hp; [destruct v as [| | |s| |]|];
      try (eexists; split; [reflexivity|];
           rewrite lookup_insert_ne by done;
           destruct (negb _); rewrite ?lookup_insert_ne by done; done).
    simpl. destruct (String.eqb s "") eqn:Hs; simpl in *.
    - eexists. split; [reflexivity|].
      rewrite lookup_insert_ne by done.
      destruct (negb _); by rewrite ?lookup_insert_ne by done.
    - apply negb_false_iff in Hid.
      unfold Patient.toObjectId, Patient.new_ObjectId. rewrite Hid. simpl.
      eexists. split; [reflexivity|].
      rewrite lookup_insert_ne by done.
      destruct (negb _); rewrite ?lookup_insert_ne by done;
        apply lookup_insert_eq. }
  exists prepared. split; [done|].
  destruct (preparePatient_fields _ _ _ Hprep) as (Hu & Hc & Hother).
  split; [done|]. split; [done|]. split; [done|]. split; [|done].
  rewrite Hc. by destruct (truthy (patient !! "createdAt")) eqn:Ht.
Qed.

(** X6: preparing a patient fails exactly when its [_id] is a non-empty
    string that is no ObjectId; otherwise the prepared document has the
    identifier as an ObjectId, the server's time as [updatedAt], a
    [createdAt] that is the patient's own or else the server's time, and
    every other field of the patient unchanged. *)
Theorem prepare_patient_outcome now patient :
  (has_malformed_id patient = true →
   ∃ m, Patient.preparePatient now patient = Throw m) ∧
  (has_malformed_id patient = false →
   ∃ prepared, Patient.preparePatient now patient = Ok prepared ∧
     stamped now patient prepared).
Proof.
  split; [apply preparePatient_malformed | apply preparePatient_wellformed].
Qed.

(** Preparing [ann], whose identifier is an ObjectId, and the entry with
    the identifier 123. *)
Lemma prepare_patient_outcome_witness :
  (∃ m, Patient.preparePatient Scenario.now Scenario.malformed = Throw m)
  ∧ ∃ prepared,
      Patient.preparePatient Scenario.now Scenario.ann = Ok prepared ∧
      stamped Scenario.now Scenario.ann prepared.
Proof.
  split.
  - apply (proj1 (prepare_patient_outcome Scenario.now Scenario.malformed)).
    reflexivity.
  - apply (proj2 (prepare_patient_outcome Scenario.now Scenario.ann)).
    reflexivity.
Defined.

Lemma patientToJSON_other patient field :
  field ∉ ["_id"; "createdAt"; "updatedAt"] →
  Patient.patientToJSON patient !! field = patient !! field.
Proof.
  intros Hfield.
  assert ("_id" ≠ field ∧ "createdAt" ≠ field ∧ "updatedAt" ≠ field)
    as (H1 & H2 & H3).
  { rewrite !not_elem_of_cons in Hfield.
    destruct Hfield as (? & ? & ? & _). split_and!; congruence. }
  unfold Patient.patientToJSON.
  repeat match goal with
         | |- context [match ?x with _ => _ end] => destruct x
         end;
    rewrite ?lookup_insert_ne by done; done.
Qed.

Lemma patientToJSON_id patient :
  Patient.patientToJSON patient !! "_id" =
  match patient !! "_id" with
  | Some v => if truthy (Some v) && negb (is_string (Some v))
              then Some (VStr (toString v)) else Some v
  | None => None
  end.
Proof.
  unfold Patient.patientToJSON.
  destruct (patient !! "_id") as [v|] eqn:Hid.
  - destruct (truthy (Some v) && negb (is_string (Some v))) eqn:Hc.
    + repeat match goal with
             | |- context [match ?x with _ => _ end] => destruct x
             end;
        rewrite ?lookup_insert_ne by done; apply lookup_insert_eq.
    + repeat match goal with
             | |- context [match ?x with _ => _ end] => destruct x
             end;
        rewrite ?lookup_insert_ne by done; done.
  - repeat match goal with
           | |- context [match ?x with _ => _ end] => destruct x
           end;
      rewrite ?lookup_insert_ne by done; done.
Qed.

Lemma patientToJSON_createdAt patient :
  Patient.patientToJSON patient !! "createdAt"
  = date_as_text (patient !! "createdAt").
Proof.
  unfold Patient.patientToJSON.
  set (p1 := match patient !! "_id" with
             | Some v => if truthy (Some v) && negb (is_string (Some v))
                         then <["_id" := VStr (toString v)]> patient
                         else patient
             | None => patient
             end).
  assert (p1 !! "createdAt" = patient !! "createdAt") as Hp1.
  { subst p1. destruct (patient !! "_id") as [v|]; [|done].
    destruct (_ && _); [by rewrite lookup_insert_ne | done]. }
  rewrite <- Hp1.
  destruct (p1 !! "createdAt") as [[| | | |d|]|] eqn:Hc; simpl;
    repeat match goal with
           | |- context [match ?x with _ => _ end] => destruct x
           end;
    rewrite ?lookup_insert_ne by done; rewrite ?lookup_insert_eq; done.
Qed.

Lemma patientToJSON_updatedAt patient :
  Patient.patientToJSON patient !! "updatedAt"
  = date_as_text (patient !! "updatedAt").
Proof.
  unfold Patient.patientToJSON.
  set (p1 := match patient !! "_id" with
             | Some v => if truthy (Some v) && negb (is_string (Some v))
                         then <["_id" := VStr (toString v)]> patient
                         else patient
             | None => patient
             end).
  set (p2 := match p1 !! "createdAt" with
             | Some (VDate d) => <["createdAt" := VStr (toISOString d)]> p1
             | _ => p1
             end).
  assert (p2 !! "updatedAt" = patient !! "updatedAt") as Hp2.
  { subst p2 p1.
    repeat match goal with
           | |- context [match ?x with _ => _ end] => destruct x
           end;
      rewrite ?lookup_insert_ne by done; done. }
  rewrite <- Hp2.
  destruct (p2 !! "updatedAt") as [[| | | |d|]|] eqn:Hu; simpl;
    rewrite ?lookup_insert_eq; done.
Qed.

(** X7: the JSON form of a document leaves every field but the reserved
    ones as it is, turns a truthy identifier that is no string into its
    text and the two time stamps, when they are Dates, into their ISO text;
    taking the JSON form twice is taking it once. *)
Theorem patientToJSON_idempotent patient :
  let j := Patient.patientToJSON patient in
  (∀ field, field ∉ ["_id"; "createdAt"; "updatedAt"] →
     j !! field = patient !! field) ∧
  (∀ oid, patient !! "_id" = Some (VOid oid) → j !! "_id" = Some (VStr oid)) ∧
  (∀ s, patient !! "_id" = Some (VStr s) → j !! "_id" = Some (VStr s)) ∧
  j !! "createdAt" = date_as_text (patient !! "createdAt") ∧
  j !! "updatedAt" = date_as_text (patient !! "updatedAt") ∧
  (∀ d, j !! "createdAt" ≠ Some (VDate d) ∧ j !! "updatedAt" ≠ Some (VDate d)) ∧
  Patient.patientToJSON j = j.
Proof.
  intros j. subst j.
  split; [apply patientToJSON_other|].
  split; [intros oid Hid; by rewrite patientToJSON_id, Hid|].
  split; [intros s Hid; rewrite patientToJSON_id, Hid; simpl;
          by rewrite andb_false_r|].
  split; [apply patientToJSON_createdAt|].
  split; [apply patientToJSON_updatedAt|].
  split.
  - intros d. rewrite patientToJSON_createdAt, patientToJSON_updatedAt.
    split.
    + by destruct (patient !! "createdAt") as [[]|].
    + by destruct (patient !! "updatedAt") as [[]|].
  - apply map_eq. intros field.
    destruct (decide (field = "_id")) as [->|H1].
    { rewrite !patientToJSON_id.
      destruct (patient !! "_id") as [v|]; [|done].
      destruct (truthy (Some v) && negb (is_string (Some v))) eqn:Hc.
      - simpl. by rewrite andb_false_r.
      - by rewrite Hc. }
    destruct (decide (field = "createdAt")) as [->|H2].
    { rewrite !patientToJSON_createdAt.
      by destruct (patient !! "createdAt") as [[]|]. }
    destruct (decide (field = "updatedAt")) as [->|H3].
    { rewrite !patientToJSON_updatedAt.
      by destruct (patient !! "updatedAt") as [[]|]. }
    rewrite !patientToJSON_other; [done| |];
      rewrite !not_elem_of_cons; split_and!; try done;
      apply not_elem_of_nil.
Qed.

Lemma lower_hex_lowercase s :
  Patient.string_forall (λ c, negb (Text.is_upper c)) s = true →
  Patient.string_map Patient.lower_hex_digit s = s.
Proof.
  induction s as [|c s IH]; [done|]. simpl.
  intros [Hc Hs]%andb_true_iff. rewrite (IH Hs). f_equal.
  revert Hc. by destruct c as [[] [] [] [] [] [] [] []].
Qed.

(** X8: an identifier makes the round trip through the boundary.  A
    patient whose [_id] is the text of an ObjectId is prepared without
    error, and the JSON form of the prepared document carries the same
    identifier in lower case (the very same text when it has no capital),
    the server's time as ISO text in [updatedAt] and every other field
    but the time stamps as the patient had it. *)
Theorem identifier_round_trip now patient s :
  patient !! "_id" = Some (VStr s) →
  Patient.validObjectId s = true →
  ∃ prepared,
    Patient.preparePatient now patient = Ok prepared ∧
    let j := Patient.patientToJSON prepared in
    j !! "_id" = Some (VStr (Patient.string_map Patient.lower_hex_digit s)) ∧
    (Patient.string_forall (λ c, negb (Text.is_upper c)) s = true →
     j !! "_id" = patient !! "_id") ∧
    j !! "updatedAt" = Some (VStr (toISOString now)) ∧
    (∀ field, field ∉ ["_id"; "createdAt"; "updatedAt"] →
       j !! field = patient !! field).
Proof.
  intros Hid Hvalid.
  assert (has_malformed_id patient = false) as Hok.
  { unfold has_malformed_id. rewrite Hid, Hvalid. apply andb_false_r. }
  destruct (preparePatient_wellformed now patient Hok)
    as (prepared & Hprep & Hpid & Hu & _ & _ & Hother).
  exists prepared. split; [done|]. intros j. subst j.
  assert (Patient.patientToJSON prepared !! "_id"
          = Some (VStr (Patient.string_map Patient.lower_hex_digit s))) as Hj.
  { rewrite patientToJSON_id, Hpid. unfold prepared_id.
    by rewrite Hid, (validObjectId_nonempty s Hvalid). }
  split; [done|]. split.
  - intros Hlow. by rewrite Hj, Hid, lower_hex_lowercase.
  - split; [by rewrite patientToJSON_updatedAt, Hu|].
    intros field Hfield. rewrite patientToJSON_other by done. by apply Hother.
Qed.

(** The round trip of [ann]. *)
Lemma identifier_round_trip_witness :
  ∃ prepared,
    Patient.preparePatient Scenario.now Scenario.ann = Ok prepared ∧
    Patient.patientToJSON prepared !! "_id" = Some (VStr Scenario.id_ann).
Proof.
  destruct (identifier_round_trip Scenario.now Scenario.ann Scenario.id_ann
              eq_refl eq_refl) as (prepared & Hprep & _ & Hid & _).
  exists prepared. split; [exact Hprep|]. apply Hid. reflexivity.
Defined.

End PatientFacts.

(** ** Uploading batches *)
Section UploadFacts.
Import Home.

Lemma mapE_prepare_wellformed now (patients : list record) :
  Forall (λ p, has_malformed_id p = false) patients →
  ∃ documents,
    mapE (Patient.preparePatient now) patients = Ok documents ∧
    Forall2 (stamped now) patients documents.
Proof.
  induction 1 as [|p patients Hp _ (documents & Hdocs & Hall)].
  - exists []. split; [done | constructor].
  - destruct (preparePatient_wellformed now p Hp) as (doc & Hdoc & Hst).
    exists (doc :: documents). simpl. rewrite Hdoc, Hdocs.
    split; [done | by constructor].
Qed.

Lemma mapE_prepare_malformed now (patients : list record) :
  Exists (λ p, has_malformed_id p = true) patients →
  ∃ m, mapE (Patient.preparePatient now) patients = Throw m.
Proof.
  induction 1 as [p patients Hp|p patients _ [m Hm]]; simpl.
  - destruct (preparePatient_malformed now p Hp) as [m ->]. by exists m.
  - destruct (Patient.preparePatient now p); simpl; [|eauto].
    rewrite Hm. eauto.
Qed.

(** X5: the upload of a batch is all or nothing before the insert.  When
    no patient of a non-empty batch has a malformed identifier, the
    documents handed to the one [insertMany] are the patients in order,
    each stamped with the server's time, and the answer is 200 with the
    batch size and the inserted count, or 500 when the insert fails; when
    some patient has a malformed identifier the answer is 500, nothing is
    inserted and the collection stays as it was. *)
Theorem upload_stamps_or_rejects insertMany now db p ps :
  (Forall (λ q, has_malformed_id q = false) (p :: ps) →
   ∃ documents,
     Forall2 (stamped now) (p :: ps) documents ∧
     UploadApi.handler insertMany "POST"
       (UploadApi.BodyWith (JArray (p :: ps))) now db =
     match insertMany documents db with
     | Ok (insertedCount, db') =>
         ({| status := 200;
             json := UploadedBody (length (p :: ps)) insertedCount |},
          db', [documents])
     | Throw message =>
         ({| status := 500;
             json := ErrorBody "Failed to process upload" (Some message) |},
          db, [documents])
     end) ∧
  (Exists (λ q, has_malformed_id q = true) (p :: ps) →
   ∃ message,
     UploadApi.handler insertMany "POST"
       (UploadApi.BodyWith (JArray (p :: ps))) now db =
     ({| status := 500;
         json := ErrorBody "Failed to process upload" (Some message) |},
      db, [])).
Proof.
  split.
  - intros Hok.
    destruct (mapE_prepare_wellformed now (p :: ps) Hok)
      as (documents & Hdocs & Hst).
    exists documents. split; [done|].
    unfold UploadApi.handler.
    cbn [String.eqb Ascii.eqb Bool.eqb negb isArray UploadApi.array_length
         length Nat.eqb orb UploadApi.array_elements].
    rewrite Hdocs. by destruct (insertMany documents db) as [[n db']|].
  - intros Hbad.
    destruct (mapE_prepare_malformed now (p :: ps) Hbad) as [m Hm].
    exists m. unfold UploadApi.handler.
    cbn [String.eqb Ascii.eqb Bool.eqb negb isArray UploadApi.array_length
         length Nat.eqb orb UploadApi.array_elements].
    by rewrite Hm.
Qed.

(** Uploading a record without identifier, and the entry with the
    identifier 123. *)
Lemma upload_stamps_or_rejects_witness :
  (UploadApi.handler Scenario.insert_all "POST"
     (UploadApi.BodyWith (JArray [Scenario.malformed])) Scenario.now []).2
  = []
  ∧ ∃ documents,
      Forall2 (stamped Scenario.now) [Scenario.anonymous] documents.
Proof.
  destruct (upload_stamps_or_rejects Scenario.insert_all Scenario.now []
              Scenario.malformed []) as [_ Hbad].
  destruct (upload_stamps_or_rejects Scenario.insert_all Scenario.now []
              Scenario.anonymous []) as [Hok _].
  split.
  - destruct Hbad as [m ->]; [|reflexivity].
    apply Exists_cons_hd. reflexivity.
  - destruct Hok as (documents & Hst & _); [|by exists documents].
    repeat constructor.
Defined.

(** X4: the page never posts an empty batch.  A chunk without records
    posts nothing and leaves the collection alone; a chunk with records
    posts them once, as JSON, and the answer is never the 400 of the
    payload check: it is 200, or 500 with the error toast.  Either way the
    page is uploading afterwards and keeps its records. *)
Theorem relay_skips_empty_batches insertMany chunk now st db :
  let out := handleDataChunk insertMany chunk now st db in
  (FileParser.chunk_data chunk = [] →
   posted out = [] ∧ inserted out = [] ∧ collection_after out = db ∧
   relay_toast out = None) ∧
  (FileParser.chunk_data chunk ≠ [] →
   ∃ response,
     posted out = [(json_roundtrip <$> FileParser.chunk_data chunk, response)] ∧
     (status response = 200 ∧ relay_toast out = None ∨
      status response = 500 ∧
      relay_toast out = Some (ToastError "Error uploading data chunk"))) ∧
  isUploading (home_after out) = true ∧
  patientData (home_after out) = patientData st.
Proof.
  intros out. subst out. unfold handleDataChunk.
  destruct (FileParser.chunk_data chunk) as [|p ps] eqn:Hdata.
  - cbn [length Nat.ltb Nat.leb]. by split; [|split].
  - cbn [length Nat.ltb Nat.leb]. unfold sendChunkToApi.
    rewrite fmap_cons.
    destruct (UploadApi.handler insertMany "POST" _ now db)
      as [[response db'] log] eqn:Hhandler.
    cbn [home_after posted relay_toast isUploading patientData].
    split; [done|]. split; [|done]. intros _. exists response. split; [done|].
    revert Hhandler. unfold UploadApi.handler.
    cbn [String.eqb Ascii.eqb Bool.eqb negb isArray UploadApi.array_length
         length Nat.eqb orb UploadApi.array_elements].
    destruct (mapE _ _) as [documents|m]; [|intros [= <- _ _]; by right].
    destruct (insertMany documents db) as [[n db'']|m'];
      intros [= <- _ _]; [by left | by right].
Qed.

(** Relaying a chunk of two records and an empty chunk. *)
Lemma relay_skips_empty_batches_witness :
  posted (handleDataChunk Scenario.insert_all Examples.chunk_empty
            Scenario.now Home.initial []) = []
  ∧ ∃ response,
      posted (handleDataChunk Scenario.insert_all Examples.chunk_two
                Scenario.now Home.initial [])
      = [(json_roundtrip <$> FileParser.chunk_data Examples.chunk_two,
          response)].
Proof.
  destruct (relay_skips_empty_batches Scenario.insert_all Examples.chunk_empty
              Scenario.now Home.initial []) as ((H & _) & _); [reflexivity|].
  destruct (relay_skips_empty_batches Scenario.insert_all Examples.chunk_two
              Scenario.now Home.initial []) as (_ & (r & Hr & _) & _);
    [discriminate|].
  split; [exact H | by exists r].
Defined.

End UploadFacts.

(** ** The routes of a single record *)
Section SingleRecord.

Implicit Types (db c : Collection) (d : record) (oid : value).

Lemma matches_id_true oid d : matches_id oid d = true ↔ d !! "_id" = Some oid.
Proof. apply bool_decide_eq_true. Qed.

Lemma matches_id_false oid d : matches_id oid d = false ↔ d !! "_id" ≠ Some oid.
Proof. apply bool_decide_eq_false. Qed.

(** Either no document has the identifier, or there is a first one. *)
Lemma first_match_cases oid c :
  Forall (λ d, matches_id oid d = false) c ∨
  ∃ i d, c !! i = Some d ∧ matches_id oid d = true ∧
    ∀ j d', j < i → c !! j = Some d' → matches_id oid d' = false.
Proof.
  induction c as [|d0 c [IH|(i & d & Hi & Hd & Hbefore)]].
  - left. constructor.
  - destruct (matches_id oid d0) eqn:Hd0.
    + right. exists 0, d0. split; [done|]. split; [done|]. intros; lia.
    + left. by constructor.
  - destruct (matches_id oid d0) eqn:Hd0.
    + right. exists 0, d0. split; [done|]. split; [done|]. intros; lia.
    + right. exists (S i), d. split; [done|]. split; [done|].
      intros [|j] d' Hj Hd'; simpl in Hd'; [congruence|].
      apply (Hbefore j); [lia | done].
Qed.

Lemma no_match_ids oid c :
  Forall (λ d, matches_id oid d = false) c ↔ Some oid ∉ ids c.
Proof.
  unfold ids. rewrite list_elem_of_fmap, Forall_forall. split.
  - intros Hall (d & Hd & Hin). apply Hall in Hin.
    apply matches_id_false in Hin. congruence.
  - intros Hnot d Hin. apply matches_id_false. intros Hd. apply Hnot. eauto.
Qed.

Lemma findOne_none oid c :
  Forall (λ d, matches_id oid d = false) c → findOne oid c = None.
Proof.
  unfold findOne. induction 1 as [|d c Hd _ IH]; [done|]. simpl.
  by rewrite Hd.
Qed.

Lemma findOne_first oid c i d :
  c !! i = Some d →
  matches_id oid d = true →
  (∀ j d', j < i → c !! j = Some d' → matches_id oid d' = false) →
  findOne oid c = Some d.
Proof.
  unfold findOne. revert i. induction c as [|d0 c IH]; intros i Hi Hd Hbefore;
    [done|].
  destruct i as [|i]; simpl in *.
  - injection Hi as ->. by rewrite Hd.
  - rewrite (Hbefore 0 d0) by (done || lia).
    apply (IH i Hi Hd). intros j d' Hj Hd'.
    apply (Hbefore (S j) d'); [lia | done].
Qed.

Lemma existsb_none oid c :
  Forall (λ d, matches_id oid d = false) c → existsb (matches_id oid) c = false.
Proof. induction 1 as [|d c Hd _ IH]; [done|]. simpl. by rewrite Hd. Qed.

Lemma remove_first_match oid c i d :
  c !! i = Some d →
  matches_id oid d = true →
  (∀ j d', j < i → c !! j = Some d' → matches_id oid d' = false) →
  existsb (matches_id oid) c = true ∧
  remove_first (matches_id oid) c = delete i c.
Proof.
  revert i. induction c as [|d0 c IH]; intros i Hi Hd Hbefore; [done|].
  destruct i as [|i]; simpl in *.
  - injection Hi as ->. by rewrite Hd.
  - rewrite (Hbefore 0 d0) by (done || lia). simpl.
    destruct (IH i Hi Hd) as [-> ->]; [|done].
    intros j d' Hj Hd'. apply (Hbefore (S j) d'); [lia | done].
Qed.

Lemma ids_delete i c : ids (delete i c) = delete i (ids c).
Proof.
  unfold ids. revert i. induction c as [|d c IH]; intros [|i]; simpl; try done.
  by rewrite IH.
Qed.

(** With unique identifiers a document that is removed leaves no document
    with its identifier behind. *)
Lemma delete_unique oid c i d :
  NoDup (ids c) →
  c !! i = Some d →
  matches_id oid d = true →
  Forall (λ d, matches_id oid d = false) (delete i c).
Proof.
  intros Hnd Hi Hd%matches_id_true. apply no_match_ids.
  rewrite ids_delete. intros Hin.
  apply list_elem_of_lookup in Hin as [j Hj].
  assert (ids c !! i = Some (Some oid)) as Hi'.
  { unfold ids. by rewrite list_lookup_fmap, Hi, <- Hd. }
  destruct (decide (j < i)) as [Hlt|Hge].
  - rewrite list_lookup_delete_lt in Hj by done.
    pose proof (NoDup_lookup _ _ _ _ Hnd Hi' Hj). lia.
  - rewrite list_lookup_delete_ge in Hj by lia.
    pose proof (NoDup_lookup _ _ _ _ Hnd Hi' Hj). lia.
Qed.

Lemma toObjectId_Ok id oid :
  Patient.toObjectId id = Ok oid →
  Patient.validObjectId id = true ∧
  oid = VOid (Patient.string_map Patient.lower_hex_digit id).
Proof.
  unfold Patient.toObjectId, Patient.new_ObjectId.
  destruct (Patient.validObjectId id); [|done]. by intros [= <-].
Qed.

Lemma handler_GET_outcome body now id db :
  id ≠ "" →
  PatientIdApi.handler "GET" (QString id) body now db =
  PatientIdApi.handler_GET id db.
Proof.
  intros Hid%String.eqb_neq. unfold PatientIdApi.handler. by rewrite Hid.
Qed.

(** X9: a GET of one record never writes.  It answers 200 exactly when
    the identifier is well formed and some document carries it; the body
    is then the JSON form of the first such document, and its [_id] is the
    requested identifier in lower case.  A malformed identifier is
    answered 400 and an unknown one 404. *)
Theorem get_serves_first_match id body now db :
  let out := PatientIdApi.handler "GET" (QString id) body now db in
  out.2 = db ∧
  (status out.1 = 200 ∨ status out.1 = 400 ∨ status out.1 = 404) ∧
  (status out.1 = 200 ↔
   ∃ oid, Patient.toObjectId id = Ok oid ∧ Some oid ∈ ids db) ∧
  (status out.1 = 200 →
   ∃ i d, db !! i = Some d ∧
     json out.1 = PatientBody (Patient.patientToJSON d) ∧
     Patient.patientToJSON d !! "_id"
     = Some (VStr (Patient.string_map Patient.lower_hex_digit id))) ∧
  (id ≠ "" → Patient.validObjectId id = false →
   out.1 = PatientIdApi.invalid_format).
Proof.
  intros out. subst out.
  destruct (decide (id = "")) as [->|Hid].
  { cbn. split; [done|]. split; [auto|]. split; [|done].
    split; [done|]. by intros (oid & Hoid & _). }
  rewrite handler_GET_outcome by done. unfold PatientIdApi.handler_GET.
  destruct (Patient.toObjectId id) as [oid|m] eqn:Hoid; cbn [bind].
  - destruct (toObjectId_Ok _ _ Hoid) as [Hvalid ->].
    set (oid := VOid _) in *.
    destruct (first_match_cases oid db) as [Hnone|(i & d & Hi & Hd & Hbefore)].
    + rewrite (findOne_none _ _ Hnone). cbn.
      split; [done|]. split; [auto|]. split; [|split; [done|congruence]].
      split; [done|]. intros (oid' & [= <-] & Hin).
      by apply no_match_ids in Hnone.
    + rewrite (findOne_first _ _ _ _ Hi Hd Hbefore). cbn.
      split; [done|]. split; [auto|]. split; [|split; [|congruence]].
      * split; [|done]. intros _. exists oid. split; [done|].
        apply matches_id_true in Hd. unfold ids. apply list_elem_of_fmap.
        exists d. split; [done|]. by eapply list_elem_of_lookup_2.
      * intros _. exists i, d. split; [done|]. split; [done|].
        apply matches_id_true in Hd. by rewrite patientToJSON_id, Hd.
  - cbn. split; [done|]. split; [auto|]. split; [|done].
    split; [done|]. by intros (oid & [=] & _).
Qed.

(** Asking for [ann], whose document is in the collection. *)
Lemma get_serves_first_match_witness :
  ∃ i d, [Scenario.ann_doc] !! i = Some d ∧
    Patient.patientToJSON d !! "_id" = Some (VStr Scenario.id_ann).
Proof.
  destruct (get_serves_first_match Scenario.id_ann None Scenario.now
              [Scenario.ann_doc]) as (_ & _ & _ & Hbody & _).
  destruct Hbody as (i & d & Hi & _ & Hid); [reflexivity|].
  by exists i, d.
Defined.

(** X10: a DELETE of one record removes at most one document.  It answers
    200, 400 or 404; unless it answers 200 the collection stays as it was;
    when it answers 200 exactly the first document with the identifier is
    removed and all others keep their place.  When no two documents share
    an identifier, the record is then gone: a GET and a second DELETE of
    the same identifier are answered 404. *)
Theorem delete_removes_one_document id now db :
  let out := PatientIdApi.handler "DELETE" (QString id) None now db in
  (status out.1 = 200 ∨ status out.1 = 400 ∨ status out.1 = 404) ∧
  (status out.1 ≠ 200 → out.2 = db) ∧
  (status out.1 = 200 →
   ∃ i d oid,
     Patient.toObjectId id = Ok oid ∧ db !! i = Some d ∧
     d !! "_id" = Some oid ∧ out.2 = delete i db ∧
     (NoDup (ids db) →
      PatientIdApi.handler "GET" (QString id) None now out.2
      = (PatientIdApi.not_found, out.2) ∧
      PatientIdApi.handler "DELETE" (QString id) None now out.2
      = (PatientIdApi.not_found, out.2))).
Proof.
  intros out. subst out.
  destruct (decide (id = "")) as [->|Hid].
  { cbn. split; [auto|]. split; done. }
  rewrite handler_DELETE_outcome by done.
  destruct (Patient.toObjectId id) as [oid|m] eqn:Hoid.
  - destruct (first_match_cases oid db) as [Hnone|(i & d & Hi & Hd & Hbefore)].
    + rewrite (existsb_none _ _ Hnone). cbn. split; [auto|]. split; done.
    + destruct (remove_first_match _ _ _ _ Hi Hd Hbefore) as [-> ->].
      cbn [fst snd status].
      split; [auto|]. split; [done|]. intros _. exists i, d, oid.
      split; [done|]. split; [done|]. split; [by apply matches_id_true|].
      split; [done|]. intros Hnd.
      pose proof (delete_unique _ _ _ _ Hnd Hi Hd) as Hgone.
      rewrite handler_GET_outcome, handler_DELETE_outcome by done.
      unfold PatientIdApi.handler_GET. rewrite Hoid. cbn [bind].
      by rewrite (findOne_none _ _ Hgone), (existsb_none _ _ Hgone).
  - cbn. split; [auto|]. split; done.
Qed.

(** Deleting [ann] from the collection that holds her document. *)
Lemma delete_removes_one_document_witness :
  PatientIdApi.handler "GET" (QString Scenario.id_ann) None Scenario.now
    (PatientIdApi.handler "DELETE" (QString Scenario.id_ann) None Scenario.now
       [Scenario.ann_doc]).2
  = (PatientIdApi.not_found,
     (PatientIdApi.handler "DELETE" (QString Scenario.id_ann) None Scenario.now
        [Scenario.ann_doc]).2).
Proof.
  destruct (delete_removes_one_document Scenario.id_ann Scenario.now
              [Scenario.ann_doc]) as (_ & _ & Hgone).
  destruct Hgone as (i & d & oid & _ & _ & _ & _ & Hnd); [reflexivity|].
  apply Hnd. apply (bool_decide_unpack (NoDup (ids [Scenario.ann_doc]))).
  by vm_compute.
Defined.

End SingleRecord.

(** ** Updates at the boundary *)
Section Updates.

Implicit Types (db c : Collection) (d set : record) (oid : value).

Lemma updateOne_cases oid set c :
  updateOne oid set c
  = {| matchedCount := 0; modifiedCount := 0; updated := c |} ∨
  ∃ i d, c !! i = Some d ∧ matches_id oid d = true ∧
    (∀ j d', j < i → c !! j = Some d' → matches_id oid d' = false) ∧
    updated (updateOne oid set c) = <[i := set ∪ d]> c ∧
    matchedCount (updateOne oid set c) = 1.
Proof.
  destruct (first_match_cases oid c) as [Hnone|(i & d & Hi & Hd & Hbefore)].
  - left. by apply updateOne_none.
  - right. exists i, d. split; [done|]. split; [done|]. split; [done|].
    by apply updateOne_first.
Qed.

Lemma ids_insert_same i c d d' :
  c !! i = Some d → d' !! "_id" = d !! "_id" → ids (<[i := d']> c) = ids c.
Proof.
  intros Hi Hid. unfold ids. rewrite list_fmap_insert.
  apply list_insert_id. by rewrite list_lookup_fmap, Hi, Hid.
Qed.

(** A [$set] without [_id], or with the identifier of the filter, leaves
    the identifier of the document it is applied to. *)
Lemma union_keeps_id oid set d :
  set !! "_id" = None ∨ set !! "_id" = Some oid →
  matches_id oid d = true →
  (set ∪ d) !! "_id" = d !! "_id".
Proof.
  intros [Hset|Hset] Hd%matches_id_true.
  - by apply lookup_union_r.
  - rewrite Hd. by apply lookup_union_Some_l.
Qed.

Lemma updateOne_ids oid set c :
  set !! "_id" = None ∨ set !! "_id" = Some oid →
  ids (updated (updateOne oid set c)) = ids c.
Proof.
  intros Hset.
  destruct (updateOne_cases oid set c) as [->|(i & d & Hi & Hd & _ & -> & _)];
    [done|].
  apply (ids_insert_same i c d); [done|]. by apply (union_keeps_id oid).
Qed.

Lemma updateOne_modified oid set c : modifiedCount (updateOne oid set c) ≤ 1.
Proof.
  induction c as [|d c IH]; simpl; [lia|].
  destruct (matches_id oid d); simpl; [|done].
  destruct (bool_decide _); lia.
Qed.

Lemma bulkWrite_ids (ops : list UpdateOneOp) c :
  Forall (λ op, update_set op !! "_id" = None) ops →
  ids (bulkWrite ops c).2 = ids c ∧ (bulkWrite ops c).1 ≤ length ops.
Proof.
  intros Hops. revert c.
  induction Hops as [|op ops Hop _ IH]; intros c; simpl; [done|].
  specialize (IH (updated (updateOne (filter_id op) (update_set op) c))).
  destruct (bulkWrite ops _) as [n c'] eqn:Hbulk. simpl in *.
  destruct IH as [-> Hn]. split.
  - apply updateOne_ids. by left.
  - pose proof (updateOne_modified (filter_id op) (update_set op) c). lia.
Qed.

(** With unique identifiers [updateOne] is a map over the documents. *)
Lemma updateOne_map oid set c :
  NoDup (ids c) →
  updated (updateOne oid set c)
  = (λ d, if matches_id oid d then set ∪ d else d) <$> c.
Proof.
  induction c as [|d c IH]; [done|].
  intros [Hd Hnd]%NoDup_cons. simpl.
  destruct (matches_id oid d) eqn:Hm; simpl.
  - f_equal. apply matches_id_true in Hm. rewrite Hm in Hd.
    apply no_match_ids in Hd. clear IH Hnd.
    induction Hd as [|d' c Hd' _ IH]; [done|]. simpl.
    by rewrite Hd', <- IH.
  - f_equal. by apply IH.
Qed.

Lemma bulkWrite_map (ops : list UpdateOneOp) c :
  Forall (λ op, update_set op !! "_id" = None) ops →
  NoDup (ids c) →
  (bulkWrite ops c).2 = apply_ops ops <$> c.
Proof.
  intros Hops. revert c.
  induction Hops as [|op ops Hop _ IH]; intros c Hnd; simpl.
  - unfold apply_ops. simpl. by rewrite list_fmap_id.
  - assert (NoDup (ids (updated (updateOne (filter_id op) (update_set op) c))))
      as Hnd' by (rewrite updateOne_ids; [done | by left]).
    specialize (IH _ Hnd').
    destruct (bulkWrite ops _) as [n c'] eqn:Hbulk. simpl in *.
    rewrite IH, updateOne_map by done.
    rewrite <- list_fmap_compose. by apply list_fmap_ext.
Qed.

Lemma updateOperations_no_id now (patients : list record) ops :
  mapE (PatientsApi.updateOperation now) patients = Ok ops →
  Forall (λ op, update_set op !! "_id" = None) ops.
Proof.
  intros Hops.
  apply (mapE_Forall2 _ (entry_operation now)) in Hops;
    [|apply updateOperation_Ok].
  induction Hops as [|p op ps ops (_ & _ & Hid & _) _ IH]; by constructor.
Qed.

Lemma apply_ops_unnamed (ops : list UpdateOneOp) d :
  Forall (λ op, d !! "_id" ≠ Some (filter_id op)) ops →
  apply_ops ops d = d.
Proof.
  unfold apply_ops. induction 1 as [|op ops Hop _ IH]; [done|]. simpl.
  apply matches_id_false in Hop. by rewrite Hop.
Qed.

(** What the bulk update does to the collection and what it answers. *)
Lemma bulk_handler_outcome body now db :
  let out := PatientsApi.handler_PUT body now db in
  ids out.2 = ids db ∧
  (isArray body = false → status out.1 = 400) ∧
  (status out.1 ≠ 200 → out.2 = db) ∧
  (∀ n, json out.1 = ModifiedBody n → n ≤ UploadApi.array_length body) ∧
  (body = JArray [] →
   out = ({| status := 200; json := ModifiedBody 0 |}, db)).
Proof.
  intros out. subst out. unfold PatientsApi.handler_PUT.
  destruct body as [|v|r|patients]; try (by cbn).
  destruct (mapE (PatientsApi.updateOperation now) patients) as [ops|m]
    eqn:Hops.
  2:{ cbn. split; [done|]. split; [done|]. split; [done|]. split; [done|].
      intros [= ->]. discriminate Hops. }
  pose proof (updateOperations_no_id _ _ _ Hops) as Hno.
  pose proof (mapE_length _ _ _ Hops) as Hlen.
  destruct (bulkWrite_ids ops db Hno) as [Hids Hcount].
  destruct (0 <? length ops) eqn:Hpos.
  - destruct (bulkWrite ops db) as [n db'] eqn:Hbulk. cbn in *.
    split; [done|]. split; [done|]. split; [done|]. split.
    + intros n' [= <-]. lia.
    + intros [= ->]. by destruct ops.
  - cbn. split; [done|]. split; [done|]. split; [done|]. split.
    + intros n' [= <-]. lia.
    + done.
Qed.

Lemma ids_length db db' : ids db' = ids db → length db' = length db.
Proof.
  intros Hids.
  by rewrite <- (length_fmap (λ d, d !! "_id") db'),
    <- (length_fmap (λ d, d !! "_id") db), <- !(eq_refl : ids _ = _), Hids.
Qed.

(** X11: the bulk update never adds, removes or reorders documents and
    never changes an identifier.  A body that is no array is answered 400;
    whenever the answer is not 200 the collection is left as it was, since
    every entry is checked before the bulk write; the modified count of a
    200 answer is at most the number of entries; an empty array is answered
    200 with a count of 0. *)
Theorem bulk_update_keeps_identifiers body now db :
  let out := PatientsApi.handler_PUT body now db in
  ids out.2 = ids db ∧
  length out.2 = length db ∧
  (isArray body = false → status out.1 = 400) ∧
  (status out.1 ≠ 200 → out.2 = db) ∧
  (∀ n, json out.1 = ModifiedBody n → n ≤ UploadApi.array_length body) ∧
  (body = JArray [] →
   out = ({| status := 200; json := ModifiedBody 0 |}, db)).
Proof.
  intros out.
  destruct (bulk_handler_outcome body now db) as (Hids & Hrest).
  split; [done|]. split; [by apply ids_length | done].
Qed.

(** A bulk update of [ann] keeps the identifiers of the collection. *)
Lemma bulk_update_keeps_identifiers_witness :
  ids (PatientsApi.handler_PUT (JArray [Scenario.ann]) Scenario.now
         [Scenario.ann_doc]).2
  = ids [Scenario.ann_doc]
  ∧ status (PatientsApi.handler_PUT (JScalar VNull) Scenario.now
              [Scenario.ann_doc]).1 = 400.
Proof.
  split.
  - apply (bulk_update_keeps_identifiers (JArray [Scenario.ann]) Scenario.now
             [Scenario.ann_doc]).
  - apply (bulk_update_keeps_identifiers (JScalar VNull) Scenario.now
             [Scenario.ann_doc]). reflexivity.
Defined.

(** X12: when no two documents share an identifier, a bulk update whose
    entries all pass the check is a map over the collection: each document
    gets, in the order of the entries, the fields of every entry that names
    its identifier, and a document no entry names is left as it was. *)
Theorem bulk_update_maps_documents now patients ops db :
  mapE (PatientsApi.updateOperation now) patients = Ok ops →
  NoDup (ids db) →
  let out := PatientsApi.handler_PUT (JArray patients) now db in
  status out.1 = 200 ∧
  out.2 = apply_ops ops <$> db ∧
  ∀ i d, db !! i = Some d →
    Forall (λ op, d !! "_id" ≠ Some (filter_id op)) ops →
    out.2 !! i = Some d.
Proof.
  intros Hops Hnd out.
  assert (status out.1 = 200 ∧ out.2 = apply_ops ops <$> db) as [Hst Hout].
  { subst out. unfold PatientsApi.handler_PUT. rewrite Hops.
    pose proof (bulkWrite_map ops db (updateOperations_no_id _ _ _ Hops) Hnd)
      as Hmap.
    destruct (0 <? length ops) eqn:Hpos.
    - destruct (bulkWrite ops db) as [n db']. by cbn in *.
    - destruct ops; [|done]. cbn. unfold apply_ops. simpl.
      by rewrite list_fmap_id. }
  split; [done|]. split; [done|].
  intros i d Hi Hunnamed.
  rewrite Hout, list_lookup_fmap, Hi. simpl.
  by rewrite (apply_ops_unnamed ops d Hunnamed).
Qed.

(** A bulk update of [ann] on a collection that holds her document and
    that of [bob]: the latter stays. *)
Lemma bulk_update_maps_documents_witness :
  (PatientsApi.handler_PUT (JArray [Scenario.ann]) Scenario.now
     [Scenario.ann_doc; <["_id" := VOid Scenario.id_bob]> ∅]).2 !! 1
  = Some (<["_id" := VOid Scenario.id_bob]> ∅).
Proof.
  destruct (mapE (PatientsApi.updateOperation Scenario.now) [Scenario.ann])
    as [ops|m] eqn:Hops; [|discriminate Hops].
  refine (proj2 (proj2 (bulk_update_maps_documents Scenario.now [Scenario.ann]
            ops [Scenario.ann_doc; <["_id" := VOid Scenario.id_bob]> ∅]
            Hops _)) 1 _ eq_refl _).
  - apply (bool_decide_unpack (NoDup _)). by vm_compute.
  - injection Hops as <-. repeat constructor. by vm_compute.
Defined.

Lemma handler_PUT_outcome body now id db :
  id ≠ "" →
  PatientIdApi.handler "PUT" (QString id) body now db =
  PatientIdApi.handler_PUT id body now db.
Proof.
  intros Hid%String.eqb_neq. unfold PatientIdApi.handler. by rewrite Hid.
Qed.

(** X13: a PUT of one record never adds, removes or reorders documents and
    never changes an identifier.  It answers 200, 400 or 404, and unless it
    answers 200 the collection stays as it was.  When it answers 200 the
    fields of the body, stamped by the server and with the identifier of
    the URL, were set on the first document with that identifier, and the
    answer is the JSON form of that document as it is now, never null.  A
    body whose own identifier differs from the URL is answered 400. *)
Theorem put_one_sets_stamped_fields id patientData now db :
  let out :=
    PatientIdApi.handler "PUT" (QString id) (Some patientData) now db in
  ids out.2 = ids db ∧
  (status out.1 = 200 ∨ status out.1 = 400 ∨ status out.1 = 404) ∧
  (status out.1 ≠ 200 → out.2 = db) ∧
  (status out.1 = 200 →
   ∃ i d set,
     db !! i = Some d ∧
     stamped now (<["_id" := VStr id]> patientData) set ∧
     out.2 = <[i := set ∪ d]> db ∧
     json out.1 = PatientBody (Patient.patientToJSON (set ∪ d))) ∧
  (truthy (patientData !! "_id") = true →
   patientData !! "_id" ≠ Some (VStr id) → status out.1 = 400).
Proof.
  intros out. subst out.
  destruct (decide (id = "")) as [->|Hid].
  { cbn. split; [done|]. split; [auto|]. done. }
  rewrite handler_PUT_outcome by done. unfold PatientIdApi.handler_PUT.
  destruct (truthy (patientData !! "_id")
            && negb (bool_decide (patientData !! "_id" = Some (VStr id))))
    eqn:Hmismatch.
  { cbn. split; [done|]. split; [auto|]. done. }
  assert (truthy (patientData !! "_id") = true →
          patientData !! "_id" ≠ Some (VStr id) → False) as Hsame.
  { intros Ht Hne. rewrite Ht in Hmismatch.
    by rewrite (bool_decide_eq_false_2 _ Hne) in Hmismatch. }
  destruct (Patient.toObjectId id) as [oid|m] eqn:Hoid; cbn [bind].
  2:{ cbn. split; [done|]. split; [auto|]. split; [done|]. split; [done|].
      intros Ht Hne. by destruct (Hsame Ht Hne). }
  destruct (toObjectId_Ok _ _ Hoid) as [Hvalid ->].
  set (oid := VOid _) in *.
  assert (has_malformed_id (<["_id" := VStr id]> patientData) = false) as Hok.
  { unfold has_malformed_id. rewrite lookup_insert_eq, Hvalid.
    apply andb_false_r. }
  destruct (preparePatient_wellformed now _ Hok) as (set & -> & Hst).
  cbn [bind].
  assert (set !! "_id" = Some oid) as Hset.
  { destruct Hst as [-> _]. unfold prepared_id.
    by rewrite lookup_insert_eq, (validObjectId_nonempty id Hvalid). }
  destruct (updateOne_cases oid set db)
    as [->|(i & d & Hi & Hd & Hbefore & Hup & Hcount)].
  { cbn. split; [done|]. split; [auto|]. split; [done|]. split; [done|].
    intros Ht Hne. by destruct (Hsame Ht Hne). }
  rewrite Hcount, Hup. cbn [Nat.eqb].
  assert ((set ∪ d) !! "_id" = Some oid) as Hnew
    by by apply lookup_union_Some_l.
  rewrite (findOne_first oid (<[i := set ∪ d]> db) i (set ∪ d)); cycle 1.
  { apply list_lookup_insert_eq. by eapply lookup_lt_Some. }
  { by apply matches_id_true. }
  { intros j d' Hj Hd'. rewrite list_lookup_insert_ne in Hd' by lia.
    by apply (Hbefore j). }
  cbn [fst snd status json].
  split.
  { apply (ids_insert_same i db d); [done|].
    apply matches_id_true in Hd. by rewrite Hnew, Hd. }
  split; [auto|]. split; [done|]. split.
  - intros _. by exists i, d, set.
  - intros Ht Hne. by destruct (Hsame Ht Hne).
Qed.

(** A PUT that changes the email of [ann]. *)
Lemma put_one_sets_stamped_fields_witness :
  ∃ i d set,
    [Scenario.ann_doc] !! i = Some d ∧
    stamped Scenario.now
      (<["_id" := VStr Scenario.id_ann]> (<["email" := VStr "new@x.com"]> ∅))
      set ∧
    (PatientIdApi.handler "PUT" (QString Scenario.id_ann)
       (Some (<["email" := VStr "new@x.com"]> ∅)) Scenario.now
       [Scenario.ann_doc]).2
    = <[i := set ∪ d]> [Scenario.ann_doc].
Proof.
  destruct (put_one_sets_stamped_fields Scenario.id_ann
              (<["email" := VStr "new@x.com"]> ∅) Scenario.now
              [Scenario.ann_doc]) as (_ & _ & _ & Hset & _).
  destruct Hset as (i & d & set & Hi & Hst & Hdb & _); [reflexivity|].
  exists i, d, set. split; [exact Hi|]. split; [exact Hst | exact Hdb].
Defined.

End Updates.

(** ** The store: saving, deleting, editing through a cell, reloading *)
Section StoreFacts.

Implicit Types (s : Store) (db : Collection).

Lemma mapE_modifiedRow_Ok s (indices : list nat) ls :
  mapE (modifiedRow s) indices = Ok ls →
  Forall2 (λ i l, tableData s !! i = Some l ∧
                  truthy (read (heap s) l !! "_id") = true) indices ls.
Proof.
  intros Hls. eapply (mapE_Forall2 (modifiedRow s)); [|exact Hls].
  intros i l. unfold modifiedRow.
  destruct (tableData s !! i) as [l'|]; [|done]. cbn zeta.
  destruct (truthy (read (heap s) l' !! "_id")) eqn:Ht; [|done].
  cbn [negb]. by intros [= <-].
Qed.

Lemma saved_rows s :
  separated s →
  rows (heap (saved s)) (tableData (saved s)) = rows (heap s) (tableData s).
Proof. intros Hsep. simpl. apply rows_app_l, Hsep. Qed.

(** X14: what a save sends.  From a state the table can reach, a save
    sends no request or one bulk update.  With no dirty row it sends none
    and says so.  The one request carries exactly the dirty rows, in the
    order they became dirty, each with an identifier.  Whatever the
    outcome, the rows of the working copy stay as they are, the collection
    keeps its documents' identifiers, and afterwards either no row is dirty
    or the store is as it was. *)
Theorem save_sends_the_dirty_rows now s db :
  reachable s →
  let out := handleSaveChanges now s db in
  (dirtyRows s = [] →
   requests out = [] ∧ toast out = Some (ToastSuccess "No changes to save")) ∧
  (requests out = [] ∧ store_after out = s ∧ db_after out = db ∨
   ∃ body,
     requests out = [PutPatients body] ∧
     Forall2 (λ i r, rows (heap s) (tableData s) !! i = Some r ∧
                     truthy (r !! "_id") = true) (dirtyRows s) body) ∧
  ids (db_after out) = ids db ∧
  rows (heap (store_after out)) (tableData (store_after out))
  = rows (heap s) (tableData s) ∧
  (dirtyRows (store_after out) = [] ∨ store_after out = s).
Proof.
  intros Hreach out.
  destruct (reachable_wf s Hreach) as [Hsep Htrk].
  pose proof (handleSaveChanges_store now s db) as Hstore. fold out in Hstore.
  assert ((dirtyRows s = [] →
           requests out = [] ∧
           toast out = Some (ToastSuccess "No changes to save")) ∧
          (requests out = [] ∧ store_after out = s ∧ db_after out = db ∨
           ∃ body,
             requests out = [PutPatients body] ∧
             Forall2 (λ i r, rows (heap s) (tableData s) !! i = Some r ∧
                             truthy (r !! "_id") = true) (dirtyRows s) body) ∧
          ids (db_after out) = ids db) as (Hclean & Hreq & Hids).
  { subst out. unfold handleSaveChanges.
    destruct (mapE (modifiedRow s) (dirtyRows s)) as [ls|m] eqn:Hrows.
    2:{ cbn. split; [|split; [by left | done]].
        intros Hd. rewrite Hd in Hrows. discriminate Hrows. }
    destruct (length ls =? 0) eqn:Hlen.
    { cbn. split; [done|]. split; [by left | done]. }
    pose proof (bulk_handler_outcome
                  (JArray (json_roundtrip <$> rows (heap s) ls)) now db)
      as (Hids & _).
    destruct (PatientsApi.handler_PUT _ now db) as [response db'].
    assert (Forall2 (λ i r, rows (heap s) (tableData s) !! i = Some r ∧
                            truthy (r !! "_id") = true) (dirtyRows s)
              (json_roundtrip <$> rows (heap s) ls)) as Hbody.
    { unfold rows at 2. rewrite !Forall2_fmap_r.
      eapply Forall2_impl; [apply (mapE_modifiedRow_Ok _ _ _ Hrows)|].
      intros i l [Hl Hid]. cbn beta.
      assert (rows (heap s) (tableData s) !! i = Some (read (heap s) l))
        as Hrow by (unfold rows; by rewrite list_lookup_fmap, Hl).
      pose proof (trk_table_pure s Htrk) as Hpure.
      rewrite Forall_lookup in Hpure. unfold compose.
      by rewrite (Hpure _ _ Hrow). }
    split.
    { intros Hd. rewrite Hd in Hrows. injection Hrows as <-. done. }
    destruct (ok response); cbn [negb];
      [destruct (deep_copy (heap s) (tableData s)) as [original h]|];
      cbn [requests store_after db_after]; (split; [right; eauto | done]). }
  split; [done|]. split; [done|]. split; [done|].
  destruct Hstore as [->| ->].
  - split; [done | by right].
  - split; [by apply saved_rows | by left].
Qed.

(** Saving the table in which the email of [ann] was edited. *)
Lemma save_sends_the_dirty_rows_witness :
  ids (db_after (handleSaveChanges Scenario.now Scenario.edited
                   [Scenario.ann_doc]))
  = ids [Scenario.ann_doc].
Proof.
  apply (save_sends_the_dirty_rows Scenario.now Scenario.edited
           [Scenario.ann_doc]).
  apply (reach_edit (load [Scenario.ann] initial) 0 "email"
           (VStr "new@x.com"));
    [apply reach_load, reach_initial | reflexivity | reflexivity].
Defined.

Lemma row_id_None s index :
  row_id s index = None →
  tableData s !! index = None ∨
  ∃ l, tableData s !! index = Some l ∧
       truthy (read (heap s) l !! "_id") = false.
Proof.
  unfold row_id. destruct (tableData s !! index) as [l|]; [|by left].
  cbn zeta. destruct (truthy (read (heap s) l !! "_id")) eqn:Ht; [done|].
  right. by exists l.
Qed.

(** The requests for the rows before the first one that has no identifier
    are sent and served before the map throws. *)
Lemma deletePromises_missing s now (sel1 : list nat) ids1 index rest db :
  mapM (row_id s) sel1 = Some ids1 →
  row_id s index = None →
  ∃ m,
    m ≠ "" ∧
    deletePromises (heap s) now
      ((λ i, tableData s !! i) <$> (sel1 ++ index :: rest)) db
    = (Throw m, (serve_deletes now ids1 db).2, DeletePatient <$> ids1).
Proof.
  intros Hids%mapM_Some_1 Hmissing. revert db.
  induction Hids as [|i id sel1 ids1 Hid _ IH]; intros db.
  - rewrite app_nil_l, fmap_cons. cbn [deletePromises].
    destruct (row_id_None _ _ Hmissing) as [->|(l & -> & Ht)].
    + eexists. split; [|reflexivity]. done.
    + rewrite Ht. eexists. split; [|reflexivity]. done.
  - rewrite <- app_comm_cons, fmap_cons. unfold row_id in Hid.
    destruct (tableData s !! i) as [l|]; [|done]. cbn zeta in Hid.
    destruct (truthy (read (heap s) l !! "_id")) eqn:Htruthy; [|done].
    injection Hid as <-.
    cbn [deletePromises serve_deletes]. rewrite Htruthy. cbn [negb].
    destruct (PatientIdApi.handler "DELETE" _ None now db) as [response db1].
    destruct (IH db1) as (m & Hm & ->). exists m. split; [done|].
    by destruct (serve_deletes now ids1 db1) as [oks db2].
Qed.

(** X15: the edges of deleting the selected rows.  Without a selection
    nothing is sent and the user is told so; when the user declines the
    confirmation nothing happens at all.  When the user confirms and a
    selected row has no identifier, the requests for the rows selected
    before it have already been sent and served, no later request and no
    refetch is sent, an error is shown and the store stays as it was. *)
Theorem delete_selected_edges fetchPatients now s db :
  (rowSelection s = [] →
   ∀ confirm,
     handleDeleteSelected fetchPatients confirm now s db
     = {| store_after := s; db_after := db; requests := [];
          toast := Some (ToastError "No rows selected") |}) ∧
  (rowSelection s ≠ [] →
   handleDeleteSelected fetchPatients false now s db
   = {| store_after := s; db_after := db; requests := []; toast := None |}) ∧
  (∀ sel1 ids1 index rest,
     rowSelection s = sel1 ++ index :: rest →
     mapM (row_id s) sel1 = Some ids1 →
     row_id s index = None →
     ∃ message,
       handleDeleteSelected fetchPatients true now s db
       = {| store_after := s;
            db_after := (serve_deletes now ids1 db).2;
            requests := DeletePatient <$> ids1;
            toast := Some (ToastError message) |}).
Proof.
  split; [|split].
  - intros Hsel confirm. unfold handleDeleteSelected. by rewrite Hsel.
  - intros Hsel. unfold handleDeleteSelected. rewrite length_fmap.
    by destruct (rowSelection s).
  - intros sel1 ids1 index rest Hsel Hids Hmissing.
    unfold handleDeleteSelected. rewrite length_fmap, Hsel.
    rewrite length_app. cbn [length]. rewrite Nat.add_succ_r.
    cbn [Nat.eqb negb].
    destruct (deletePromises_missing s now sel1 ids1 index rest db Hids Hmissing)
      as (m & Hm & ->).
    cbn [bind]. apply String.eqb_neq in Hm. rewrite Hm. by eexists.
Qed.

(** Deleting [ann] and a row without identifier, both selected: the
    request for [ann] is sent and served, then the operation fails. *)
Lemma delete_selected_edges_witness :
  ∃ message,
    handleDeleteSelected Scenario.serve_all true Scenario.now
      (setRowSelection [0; 1]
         (load [Scenario.ann; Scenario.anonymous] initial))
      [Scenario.ann_doc]
    = {| store_after :=
           setRowSelection [0; 1]
             (load [Scenario.ann; Scenario.anonymous] initial);
         db_after := [];
         requests := [DeletePatient Scenario.id_ann];
         toast := Some (ToastError message) |}.
Proof.
  apply (proj2 (proj2 (delete_selected_edges Scenario.serve_all Scenario.now
           (setRowSelection [0; 1]
              (load [Scenario.ann; Scenario.anonymous] initial))
           [Scenario.ann_doc]))
         [0] [Scenario.id_ann] 1 []); reflexivity.
Defined.



(** X17: loading fetched records replaces everything the table holds.
    The working copy and the snapshot are the records as JSON, in separate
    objects; no row is dirty and none is selected; the objects the table
    held before are not written to. *)
Theorem load_replaces_table served s :
  let s' := load served s in
  rows (heap s') (tableData s') = json_roundtrip <$> served ∧
  rows (heap s') (originalData s') = json_roundtrip <$> served ∧
  (∀ l, l ∈ tableData s' → l ∉ originalData s') ∧
  dirtyRows s' = [] ∧ rowSelection s' = [] ∧
  (∀ l, l < length (heap s) → read (heap s') l = read (heap s) l) ∧
  wf s'.
Proof.
  intros s'. subst s'. rewrite load_fresh.
  destruct (fresh_table_rows (heap s) (json_roundtrip <$> served) [])
    as [Ht Ho].
  pose proof (fresh_table_wf (heap s) (json_roundtrip <$> served) []
                (roundtrip_list_pure served)) as Hwf.
  split; [done|]. split; [done|].
  split; [apply Hwf|]. split; [done|]. split; [done|]. split; [|done].
  intros l Hlt. simpl. rewrite <- app_assoc. by apply read_app_l.
Qed.

End StoreFacts.

(** ** The parsers: rows, completion, the end of a parse *)
Section ParserFacts.
Import FileParser Cadence.

(** The callback of [row.eachCell] on the cells visited so far. *)
Lemma row_record_snoc headers n cs cell :
  row_record headers {| rowNumber := n; cells := cs ++ [cell] |}
  = let rowData := row_record headers {| rowNumber := n; cells := cs |} in
    if (colNumber cell <=? length headers)%nat
    then match headers !! (colNumber cell - 1)%nat with
         | Some header => <[header := cell_value cell]> rowData
         | None => rowData
         end
    else rowData.
Proof. unfold row_record. cbn [cells]. by rewrite foldl_app. Qed.

Lemma row_record_source headers n cs k v :
  row_record headers {| rowNumber := n; cells := cs |} !! k = Some v →
  ∃ cell, cell ∈ cs ∧ headers !! (colNumber cell - 1)%nat = Some k ∧
    cell_value cell = v.
Proof.
  induction cs as [|cell cs IH] using rev_ind; [done|].
  rewrite row_record_snoc. cbn zeta.
  assert (row_record headers {| rowNumber := n; cells := cs |} !! k = Some v →
          ∃ cell0, cell0 ∈ cs ++ [cell] ∧
            headers !! (colNumber cell0 - 1)%nat = Some k ∧
            cell_value cell0 = v) as Hold.
  { intros (cell0 & Hin & Hrest)%IH. exists cell0. split; [|done].
    apply elem_of_app. by left. }
  destruct (colNumber cell <=? length headers)%nat; [|done].
  destruct (headers !! (colNumber cell - 1)%nat) as [header|] eqn:Hh; [|done].
  destruct (decide (header = k)) as [->|Hne].
  - rewrite lookup_insert_eq. intros [= <-]. exists cell.
    split; [|done]. apply elem_of_app. right. apply list_elem_of_here.
  - by rewrite lookup_insert_ne.
Qed.

Lemma row_record_stored headers n cs cell k :
  NoDup headers →
  NoDup (colNumber <$> cs) →
  Forall (λ cell, 1 ≤ colNumber cell) cs →
  cell ∈ cs →
  headers !! (colNumber cell - 1)%nat = Some k →
  row_record headers {| rowNumber := n; cells := cs |} !! k
  = Some (cell_value cell).
Proof.
  intros Hheaders.
  induction cs as [|last cs IH] using rev_ind;
    intros Hcols Hpos Hin Hk; [by apply elem_of_nil in Hin|].
  rewrite fmap_app in Hcols.
  apply NoDup_app in Hcols as (Hcols & Hdisjoint & _).
  apply Forall_app in Hpos as [Hpos Hlast].
  rewrite Forall_singleton in Hlast.
  rewrite row_record_snoc. cbn zeta.
  apply elem_of_app in Hin as [Hin| ->%list_elem_of_singleton].
  - assert (row_record headers {| rowNumber := n; cells := cs |} !! k
            = Some (cell_value cell)) as Hold by by apply IH.
    destruct (colNumber last <=? length headers)%nat; [|done].
    destruct (headers !! (colNumber last - 1)%nat) as [header|] eqn:Hh;
      [|done].
    rewrite lookup_insert_ne; [done|]. intros ->.
    pose proof (NoDup_lookup _ _ _ _ Hheaders Hh Hk) as Heq.
    rewrite Forall_forall in Hpos. pose proof (Hpos _ Hin) as Hcell.
    simpl in Hcell, Hlast.
    apply (Hdisjoint (colNumber cell)).
    + apply list_elem_of_fmap. by exists cell.
    + replace (colNumber cell) with (colNumber last) by lia.
      apply list_elem_of_here.
  - pose proof (lookup_lt_Some _ _ _ Hk) as Hlt.
    assert ((colNumber last <=? length headers)%nat = true) as ->
      by (apply Nat.leb_le; lia).
    rewrite Hk. apply lookup_insert_eq.
Qed.

(** X18: the record of a spreadsheet row.  Every field of the record is
    the header of the column of some cell of the row, with that cell's
    value; so cells beyond the headers are dropped.  When the headers are
    pairwise different and the cells of the row come with pairwise
    different 1-based column numbers, every cell under a header is stored
    under that header. *)
Theorem excel_row_fields headers r :
  (∀ k v, row_record headers r !! k = Some v →
     ∃ cell, cell ∈ cells r ∧ colNumber cell - 1 < length headers ∧
       headers !! (colNumber cell - 1)%nat = Some k ∧ cell_value cell = v) ∧
  (NoDup headers →
   NoDup (colNumber <$> cells r) →
   Forall (λ cell, 1 ≤ colNumber cell) (cells r) →
   ∀ cell k, cell ∈ cells r →
     headers !! (colNumber cell - 1)%nat = Some k →
     row_record headers r !! k = Some (cell_value cell)).
Proof.
  destruct r as [n cs]. cbn [cells]. split.
  - intros k v (cell & Hin & Hk & Hv)%row_record_source.
    exists cell. split; [done|]. split; [by eapply lookup_lt_Some | done].
  - intros Hheaders Hcols Hpos cell k Hin Hk.
    by apply row_record_stored.
Qed.

(** A row with a cell in column 1 and one in column 3, under the two
    headers [firstName] and [email]: the cell in column 3 is dropped. *)
Lemma excel_row_fields_witness :
  row_record ["firstName"; "email"]
    {| rowNumber := 2;
       cells := [{| colNumber := 1; cell_value := VStr "Ann" |};
                 {| colNumber := 3; cell_value := VStr "x" |}] |}
  !! "firstName" = Some (VStr "Ann").
Proof.
  refine (proj2 (excel_row_fields ["firstName"; "email"]
            {| rowNumber := 2;
               cells := [{| colNumber := 1; cell_value := VStr "Ann" |};
                         {| colNumber := 3; cell_value := VStr "x" |}] |})
            _ _ _ {| colNumber := 1; cell_value := VStr "Ann" |} "firstName"
            _ _).
  - apply (bool_decide_unpack (NoDup _)). by vm_compute.
  - apply (bool_decide_unpack (NoDup _)). by vm_compute.
  - repeat constructor.
  - apply list_elem_of_here.
  - reflexivity.
Defined.

Lemma all_chunks allFields (cs : list Callback) :
  Forall (λ cb, ∃ r, cb = OnChunk r ∧ chunk_fields r = allFields) cs →
  ∃ chunks, cs = OnChunk <$> chunks.
Proof.
  induction 1 as [|cb cs (r & -> & _) _ [chunks ->]].
  - by exists [].
  - by exists (r :: chunks).
Qed.

Lemma batch_rows_chunks (chunks : list ChunkResult) :
  batch_rows (OnChunk <$> chunks) = mjoin (chunk_data <$> chunks).
Proof.
  induction chunks as [|r chunks IH]; [done|].
  rewrite !fmap_cons.
  change (batch_rows (OnChunk r :: (OnChunk <$> chunks)))
    with (chunk_data r ++ batch_rows (OnChunk <$> chunks)).
  by rewrite IH.
Qed.

Lemma batch_sizes_chunks (chunks : list ChunkResult) :
  batch_sizes (OnChunk <$> chunks) = (λ r, length (chunk_data r)) <$> chunks.
Proof.
  induction chunks as [|r chunks IH]; [done|].
  rewrite !fmap_cons.
  change (batch_sizes (OnChunk r :: (OnChunk <$> chunks)))
    with (length (chunk_data r) :: batch_sizes (OnChunk <$> chunks)).
  by rewrite IH.
Qed.

(** X19: how a spreadsheet parse ends.  The callbacks are the batches
    followed by exactly one completion, which comes last; the completion
    repeats all rows of the batches in [data], reports their number as
    [totalRows], the header names as [fields] and no error.  A sheet
    without data rows gives the completion alone. *)
Theorem excel_completion_repeats_rows worksheet others :
  ∃ chunks,
    parseExcelFile (worksheet :: others)
    = (OnChunk <$> chunks) ++
      [OnComplete {| data := excel_rows worksheet;
                     fields := (read_headers (getRow1 worksheet)).2;
                     errors := [];
                     totalRows := length (excel_rows worksheet) |}] ∧
    mjoin (chunk_data <$> chunks) = excel_rows worksheet ∧
    (excel_rows worksheet = [] → chunks = []).
Proof.
  unfold parseExcelFile, excel_rows.
  destruct (read_headers (getRow1 worksheet)) as [headers allFields].
  pose proof (excel_loop_foldl headers allFields worksheet) as Hloop.
  destruct (foldl _ _ worksheet) as [cur total all cs].
  destruct Hloop as [Hchunk Hsizes Hrows Htotal Hall Hsum Hcalls].
  cbn [currentChunk x_totalRows allData calls fst snd] in *.
  destruct (all_chunks _ _ Hcalls) as [chunks ->].
  rewrite batch_rows_chunks in *. rewrite batch_sizes_chunks in *.
  assert (mjoin (chunk_data <$> chunks) = [] → chunks = []) as Hnone.
  { intros Hnil. destruct chunks as [|r chunks]; [done|].
    rewrite fmap_cons in Hsizes. apply Forall_cons in Hsizes as [Hr _].
    simpl in Hnil. apply app_eq_nil in Hnil as [Hnil _].
    rewrite Hnil in Hr. by vm_compute in Hr. }
  destruct cur as [|row cur].
  - cbn [length Nat.ltb Nat.leb currentChunk x_totalRows allData calls].
    rewrite app_nil_r in *. exists chunks.
    rewrite Hall, Htotal, Hrows. split; [done|]. split; [done|].
    intros Hnil. apply Hnone. by rewrite Hrows.
  - cbn [length Nat.ltb Nat.leb currentChunk x_totalRows allData calls].
    exists (chunks ++ [{| chunk_data := row :: cur; chunk_fields := allFields;
                          chunk_errors := [] |}]).
    rewrite !fmap_app, Hall, Htotal, Hrows. cbn [fmap list_fmap].
    rewrite join_app. cbn [mjoin list_join chunk_data]. rewrite app_nil_r.
    split; [done|]. split; [done|].
    intros Hnil. rewrite <- Hrows in Hnil.
    by apply app_eq_nil in Hnil as [_ ?].
Qed.

Lemma foldl_Set_add_prefix (fs acc : list string) :
  acc `prefix_of` foldl (λ s f, Set_add f s) acc fs.
Proof.
  revert acc. induction fs as [|f fs IH]; intros acc; simpl; [done|].
  etrans; [|apply IH].
  unfold Set_add. case_bool_decide; [done|]. by apply prefix_app_r.
Qed.

(** The callbacks for the chunks of a parse that then completes, from any
    state of the worker. *)
Lemma worker_run_complete w chunks rest :
  ∃ rs fields,
    onmessage (worker_run w ((PapaChunk <$> chunks) ++ PapaComplete :: rest))
    = (OnChunk <$> rs) ++
      [OnComplete {| data := []; fields := fields;
                     errors := w_errors w ++ mjoin (results_errors <$> chunks);
                     totalRows := w_totalRows w
                       + length (mjoin (results_data <$> chunks)) |}] ∧
    Forall2 (λ results r,
               chunk_data r = results_data results ∧
               chunk_errors r = results_errors results ∧
               w_allFields w `prefix_of` chunk_fields r ∧
               chunk_fields r `prefix_of` fields) chunks rs ∧
    w_allFields w `prefix_of` fields.
Proof.
  revert w. induction chunks as [|results chunks IH]; intros w.
  - exists [], (w_allFields w). cbn. rewrite app_nil_r, Nat.add_0_r.
    split; [done|]. split; [constructor | done].
  - destruct (IH (worker_step w (PapaChunk results)).1)
      as (rs & fields & Hrun & Hall & Hprefix).
    set (w' := (worker_step w (PapaChunk results)).1) in *.
    assert (w_allFields w `prefix_of` w_allFields w') as Hstep.
    { subst w'. cbn. destruct (results_meta_fields results) as [fs|]; [|done].
      apply foldl_Set_add_prefix. }
    assert (w_errors w' = w_errors w ++ results_errors results) as Herr.
    { subst w'. cbn. destruct (results_errors results); [|done].
      by rewrite app_nil_r. }
    assert (w_totalRows w' = w_totalRows w + length (results_data results))
      as Htot by done.
    exists ({| chunk_data := results_data results;
               chunk_fields := w_allFields w';
               chunk_errors := results_errors results |} :: rs), fields.
    rewrite fmap_cons.
    change (onmessage (worker_run w
              ((PapaChunk results :: (PapaChunk <$> chunks))
               ++ PapaComplete :: rest)))
      with (OnChunk {| chunk_data := results_data results;
                       chunk_fields := w_allFields w';
                       chunk_errors := results_errors results |}
            :: onmessage (worker_run w'
                 ((PapaChunk <$> chunks) ++ PapaComplete :: rest))).
    rewrite Hrun, Herr, Htot. rewrite !fmap_cons. cbn [mjoin list_join].
    rewrite length_app, <- !app_assoc, Nat.add_assoc.
    split; [done|]. split; [|by etrans].
    constructor.
    + cbn. split; [done|]. split; [done|]. split; done.
    + eapply Forall2_impl; [exact Hall|].
      intros results' r (? & ? & ? & ?). split; [done|]. split; [done|].
      split; [by etrans | done].
Qed.

Lemma worker_run_error w chunks message rest :
  ∃ rs,
    onmessage (worker_run w
      ((PapaChunk <$> chunks) ++ PapaError message :: rest))
    = (OnChunk <$> rs) ++ [OnError message] ∧
    Forall2 (λ results r,
               chunk_data r = results_data results ∧
               chunk_errors r = results_errors results) chunks rs.
Proof.
  revert w. induction chunks as [|results chunks IH]; intros w.
  - exists []. split; [done | constructor].
  - destruct (IH (worker_step w (PapaChunk results)).1) as (rs & Hrun & Hall).
    set (w' := (worker_step w (PapaChunk results)).1) in *.
    exists ({| chunk_data := results_data results;
               chunk_fields := w_allFields w';
               chunk_errors := results_errors results |} :: rs).
    rewrite fmap_cons.
    change (onmessage (worker_run w
              ((PapaChunk results :: (PapaChunk <$> chunks))
               ++ PapaError message :: rest)))
      with (OnChunk {| chunk_data := results_data results;
                       chunk_fields := w_allFields w';
                       chunk_errors := results_errors results |}
            :: onmessage (worker_run w'
                 ((PapaChunk <$> chunks) ++ PapaError message :: rest))).
    rewrite Hrun. split; [done|]. by constructor.
Qed.

(** X20: how a delimited-text parse ends.  Whatever the parser does after
    its completion or its error is ignored.  Up to there, every chunk gives
    one batch with the chunk's rows and errors; the field list only grows
    from batch to batch, each being a prefix of the one the completion
    reports.  The completion carries no rows, the number of all rows and
    the errors of all chunks in order; an error of the parser ends the
    parse with that error alone. *)
Theorem csv_parse_ends_once chunks rest :
  (∃ rs fields,
     parseCSVFile ((PapaChunk <$> chunks) ++ PapaComplete :: rest)
     = (OnChunk <$> rs) ++
       [OnComplete {| data := []; fields := fields;
                      errors := mjoin (results_errors <$> chunks);
                      totalRows := length (mjoin (results_data <$> chunks)) |}] ∧
     Forall2 (λ results r,
                chunk_data r = results_data results ∧
                chunk_errors r = results_errors results ∧
                chunk_fields r `prefix_of` fields) chunks rs) ∧
  (∀ message,
     ∃ rs,
       parseCSVFile ((PapaChunk <$> chunks) ++ PapaError message :: rest)
       = (OnChunk <$> rs) ++ [OnError message] ∧
       Forall2 (λ results r,
                  chunk_data r = results_data results ∧
                  chunk_errors r = results_errors results) chunks rs).
Proof.
  split.
  - destruct (worker_run_complete worker_init chunks rest)
      as (rs & fields & Hrun & Hall & _).
    exists rs, fields. split; [exact Hrun|].
    eapply Forall2_impl; [exact Hall|]. by intros results r (? & ? & _ & ?).
  - intros message. apply worker_run_error.
Qed.

End ParserFacts.
